(** * jrpc-client: the JSON-RPC client session, embedded and verified

    The development follows [index.js] of the package: the class
    [JRPCClient] (constructor, [isConnected], [connect], [disconnect],
    [notification], [call], [prepare], [batch]) and its private helpers
    ([checkTransport], [cleanResponse], [onTransportData]); [destroy] is
    left out.

    JavaScript values are a small inductive type. The session, its
    transport and its engine are one explicit state ([world]), and a
    method of the client is a function from state to state. Every closure
    the source creates (a completion callback, a [then] or [catch] on a
    promise of the transport, a job for [setImmediate]) is a constructor
    of a first-order type, and its interpretation is the body of that
    closure.

    Time is a sequence of [event]s: calls of the application, promises of
    the transport settling, data arriving, the engine completing a
    pending call, the event loop running an immediate job. What is
    chained on a promise runs when the promise settles; the order of
    microtasks among themselves is not modelled.

    The collaborators that are not in the repository are modelled by what
    the client relies on: the engine ([jrpc], module [JRPC] below), the
    lazy promise of [prepare] ([lazy-promise]), the aggregates of [batch]
    ([Promise.all], [p-props]) and the predicates of [check-types]. *)

From Stdlib Require Import ZArith QArith Qround String List Bool Lia.
From stdpp Require Import base option gmap strings list.

Open Scope string_scope.
Open Scope list_scope.
Set Warnings "-register-all".

(** ** JavaScript values *)

Inductive errkind := TypeError | PlainError.

(** Numbers are the integers among the doubles; [VFun f] is the function
    object with identity [f]; [VErr k m] is [new TypeError(m)] or
    [new Error(m)]; [VLazy l] is the [LazyPromise] instance stored at
    index [l]. Objects list their own properties in insertion order. *)
Inductive value :=
| VUndefined
| VNull
| VBool (b : bool)
| VNum (n : Z)
| VStr (s : string)
| VArr (items : list value)
| VObj (props : list (string * value))
| VFun (f : nat)
| VErr (k : errkind) (message : string)
| VLazy (l : nat).

(** ToBoolean: [undefined], [null], [false], [0] and [''] are falsy. *)
Definition truthy (v : value) : bool :=
  match v with
  | VUndefined | VNull => false
  | VBool b => b
  | VNum n => negb (n =? 0)%Z
  | VStr s => negb (String.eqb s "")
  | _ => true
  end.

(** [a || b] *)
Definition js_or (a b : value) : value := if truthy a then a else b.

Definition is_function (v : value) : bool :=
  match v with VFun _ => true | _ => false end.

(** Own properties of an object. *)
Definition hasOwnProperty (o : list (string * value)) (k : string) : bool :=
  existsb (fun kv => String.eqb (fst kv) k) o.

Definition get_prop (o : list (string * value)) (k : string) : value :=
  match List.find (fun kv => String.eqb (fst kv) k) o with
  | Some kv => snd kv
  | None => VUndefined
  end.

Definition delete_prop (k : string) (o : list (string * value))
  : list (string * value) :=
  List.filter (fun kv => negb (String.eqb (fst kv) k)) o.

(** ** check-types predicates used by the client *)

Module check.

(** [check.nonEmptyString] *)
Definition nonEmptyString (v : value) : bool :=
  match v with
  | VStr s => negb (String.eqb s "")
  | _ => false
  end.

(** [check.instanceStrict(v, LazyPromise)] *)
Definition instanceLazyPromise (v : value) : bool :=
  match v with VLazy _ => true | _ => false end.

(** [check.array.of.instanceStrict(l, LazyPromise)] *)
Definition array_of_LazyPromise (l : list value) : bool :=
  forallb instanceLazyPromise l.

(** [check.object.of.instanceStrict(o, LazyPromise)] *)
Definition object_of_LazyPromise (o : list (string * value)) : bool :=
  forallb (fun kv => instanceLazyPromise (snd kv)) o.

End check.

(** ** [cleanResponse] and the RPCResponse object *)

Definition cleanResponse (response : value) : value :=
  match response with
  | VObj o =>
      if hasOwnProperty o "error" && hasOwnProperty o "result" then
        if truthy (get_prop o "error")
        then VObj (delete_prop "result" o)
        else VObj (delete_prop "error" o)
      else response
  | _ => response
  end.

(** The value handed to [remote.receive] by [onTransportData]. *)
Definition normalize (data : value) : value :=
  if truthy data then
    match data with
    | VArr l => VArr (map cleanResponse l)
    | VObj _ => cleanResponse data
    | _ => data
    end
  else data.

(** [{ error: (err || null), result: (result || null) }] *)
Definition response (err result : value) : value :=
  VObj [("error", js_or err VNull); ("result", js_or result VNull)].

Definition TimeoutError : value :=
  VObj [("code", VNum (-1000)); ("message", VStr "Timed out waiting for response")].

(** The double quote, for the messages of the errors the client creates. *)
Definition dq : string := String (Ascii.ascii_of_nat 34) EmptyString.

Definition not_connected : value := VErr PlainError "Transport not connected".

(** ** Promises and the closures of the client *)

Inductive pstate := Pending | Fulfilled (v : value) | Rejected (e : value).

(** How a promise returned by the transport settles. *)
Inductive outcome := Resolves (v : value) | Rejects (e : value).

Definition settled (o : outcome) : pstate :=
  match o with Resolves v => Fulfilled v | Rejects e => Rejected e end.

(** The completion callbacks handed to [remote.call]: the arrow function
    of [call], closed over [resolve]/[reject] of promise [p] and over
    [rejectOnError], and the one of [prepare], closed over [resolve] of
    the lazy promise [l]. *)
Inductive callback :=
| CbCall (p : nat) (rejectOnError : bool)
| CbPrepare (l : nat).

(** ** The RPC engine *)

(** Modelled from the spec: the RPC Engine (the [jrpc] package, [remote] in
    the client) is not part of the repository. Its contract is section 6
    of the specification: [call] registers one pending call under a fresh
    correlation id, [transmit] flushes every registered and unsent call
    into one message, [receive] correlates one inbound message and
    dispatches notifications to the exposed handlers, and the completion
    callback of a pending call fires once. The client reads and edits
    the [exposed] table itself. *)
Module JRPC.

Record request := Request {
  id : nat;
  method : string;
  params : value
}.

Record t := Engine {
  remoteTimeout : Z;               (* seconds *)
  serial : nat;                    (* last correlation id given out *)
  inbox : gmap nat callback;       (* pending calls, by correlation id *)
  outbox : list request;           (* registered, not transmitted yet *)
  exposed : gmap string nat;       (* notification name -> handler *)
  answered : list (value * value)  (* next(result) of served requests *)
}.

Definition new (timeout : Z) : t := Engine timeout 0 ∅ [] ∅ [].

Definition call (m : string) (ps : value) (next : callback) (r : t) : t :=
  let i := S (serial r) in
  Engine (remoteTimeout r) i (<[i := next]> (inbox r))
         (outbox r ++ [Request i m ps]) (exposed r) (answered r).

(** The message for [sendFn], when there is something to send. *)
Definition transmit (r : t) : t * option (list request) :=
  match outbox r with
  | [] => (r, None)
  | reqs =>
      (Engine (remoteTimeout r) (serial r) (inbox r) [] (exposed r)
              (answered r), Some reqs)
  end.

Definition expose (name : string) (handler : nat) (r : t) : t :=
  Engine (remoteTimeout r) (serial r) (inbox r) (outbox r)
         (<[name := handler]> (exposed r)) (answered r).

Definition set_exposed (e : gmap string nat) (r : t) : t :=
  Engine (remoteTimeout r) (serial r) (inbox r) (outbox r) e (answered r).

(** The pending call [i] completes: its callback is taken out. *)
Definition complete (i : nat) (r : t) : option (callback * t) :=
  match inbox r !! i with
  | Some next =>
      Some (next, Engine (remoteTimeout r) (serial r) (delete i (inbox r))
                         (outbox r) (exposed r) (answered r))
  | None => None
  end.

(** [next(result)] of a served request: answered when it carried an id. *)
Definition answer (i result : value) (r : t) : t :=
  match i with
  | VUndefined | VNull => r
  | _ => Engine (remoteTimeout r) (serial r) (inbox r) (outbox r)
                (exposed r) (answered r ++ [(i, result)])
  end.

(** What [receive] asks of the client's closures. *)
Inductive effect :=
| Deliver (next : callback) (err result : value)
| Serve (handler : nat) (name : string) (ps : value) (i : value).

(** A response: the pending call with its id, if any, completes with
    the error, or with no error (a falsy [err]) and the result. *)
Definition deliverResponse (o : list (string * value)) (r : t) : t * list effect :=
  match get_prop o "id" with
  | VNum (Zpos k) =>
      match complete (Pos.to_nat k) r with
      | Some (next, r') =>
          if hasOwnProperty o "error"
          then (r', [Deliver next (get_prop o "error") VNull])
          else (r', [Deliver next (VBool false) (get_prop o "result")])
      | None => (r, [])
      end
  | _ => (r, [])
  end.

(** One message: a request or notification (it names a method) goes to
    the handler exposed under that name, anything else is a response. *)
Definition receive_one (msg : value) (r : t) : t * list effect :=
  match msg with
  | VObj o =>
      match get_prop o "method" with
      | VStr name =>
          match exposed r !! name with
          | Some h => (r, [Serve h name (get_prop o "params") (get_prop o "id")])
          | None => (r, [])
          end
      | _ =>
          deliverResponse o r
      end
  | _ => (r, [])
  end.

Definition receive (data : value) (r : t) : t * list effect :=
  match data with
  | VArr l =>
      fold_left (fun acc msg =>
                   let '(r', es) := receive_one msg (fst acc) in
                   (r', snd acc ++ es))
                l (r, [])
  | VObj _ => receive_one data r
  | _ => (r, [])
  end.

End JRPC.

(** ** The session and its collaborators *)

(** Where a promise handed to the application comes from (book-keeping for
    the invariants; no operation reads it). *)
Inductive origin :=
| OConnect
| OCall (rejectOnError : bool)
| OBatch (requests : value).

Record promise := Promise { p_origin : origin; p_state : pstate }.

(** A [LazyPromise] (package [lazy-promise], named at the top of
    [index.js]): a promise whose function does not run when the promise
    is made but when its [then] is first called. The record keeps the
    function given to the constructor, the state ([None] until the first
    [then]) and who waits for it. [ExPrepare m ps] is the arrow function
    of [prepare]; [ExForeign] is any other function (a [LazyPromise] made
    elsewhere), which the environment settles. *)
Inductive executor :=
| ExPrepare (method params : value)
| ExForeign.

Record lazy := Lazy {
  l_exec : executor;
  l_state : option pstate;
  l_subs : list (nat * nat)        (* collector, slot *)
}.

(** [Promise.all(requests)] / [pProps(requests)] chained into
    [resolve]/[reject] of the promise [c_target]. *)
Record collector := Collector {
  c_target : nat;
  c_keys : option (list string);   (* [None]: array; [Some ks]: object *)
  c_inputs : list value;           (* the input of each slot *)
  c_slots : list (option value)
}.

(** Whose [reject] a failed [transport.send] calls. *)
Inductive target := TPromise (p : nat) | TLazy (l : nat).

(** What the client chained on a promise returned by the transport. *)
Inductive reaction :=
| RSettle (p : nat)
    (* connect(), disconnect(): [return await transport.connect()] *)
| RThenMakeCall (p : nat) (method params : value) (rejectOnError : bool)
    (* call: [this.connect().then(makeCall).catch(reject)] *)
| RThenMakeCalls (p : nat) (requests : value)
    (* batch: [this.connect().then(makeCalls).catch(reject)] *)
| RCatchReject (t : target).
    (* [transport.send(data).catch(reject)] *)

(** Jobs queued with [setImmediate]: batch's deferred [remote.transmit]. *)
Inductive job := JTransmit (p : nat).

(** Calls made on the transport. *)
Inductive transport_op :=
| OpConnect
| OpDisconnect
| OpSend (data : list JRPC.request).

Record world := World {
  needsConnection : bool;              (* transport.needsConnection *)
  transport_isConnected : bool;        (* transport.isConnected *)
  autoConnect : bool;
  batchRequests : bool;
  remote : JRPC.t;
  promises : list promise;             (* promises handed to the application *)
  lazies : list lazy;                  (* LazyPromise instances *)
  collectors : list collector;
  awaited : list (option reaction);    (* promises returned by the transport *)
  immediates : list job;
  transport_log : list transport_op;   (* calls made on the transport, in order *)
  invoked : list (string * nat * value) (* notification handlers run: name, handler, params *)
}.

Definition set_transport_isConnected (b : bool) (w : world) : world :=
  World (needsConnection w) b (autoConnect w) (batchRequests w) (remote w)
        (promises w) (lazies w) (collectors w) (awaited w) (immediates w)
        (transport_log w) (invoked w).

Definition set_remote (r : JRPC.t) (w : world) : world :=
  World (needsConnection w) (transport_isConnected w) (autoConnect w)
        (batchRequests w) r (promises w) (lazies w) (collectors w)
        (awaited w) (immediates w) (transport_log w) (invoked w).

Definition set_promises (ps : list promise) (w : world) : world :=
  World (needsConnection w) (transport_isConnected w) (autoConnect w)
        (batchRequests w) (remote w) ps (lazies w) (collectors w)
        (awaited w) (immediates w) (transport_log w) (invoked w).

Definition set_lazies (ls : list lazy) (w : world) : world :=
  World (needsConnection w) (transport_isConnected w) (autoConnect w)
        (batchRequests w) (remote w) (promises w) ls (collectors w)
        (awaited w) (immediates w) (transport_log w) (invoked w).

Definition set_collectors (cs : list collector) (w : world) : world :=
  World (needsConnection w) (transport_isConnected w) (autoConnect w)
        (batchRequests w) (remote w) (promises w) (lazies w) cs
        (awaited w) (immediates w) (transport_log w) (invoked w).

Definition set_awaited (a : list (option reaction)) (w : world) : world :=
  World (needsConnection w) (transport_isConnected w) (autoConnect w)
        (batchRequests w) (remote w) (promises w) (lazies w) (collectors w)
        a (immediates w) (transport_log w) (invoked w).

Definition set_immediates (js : list job) (w : world) : world :=
  World (needsConnection w) (transport_isConnected w) (autoConnect w)
        (batchRequests w) (remote w) (promises w) (lazies w) (collectors w)
        (awaited w) js (transport_log w) (invoked w).

Definition set_transport_log (l : list transport_op) (w : world) : world :=
  World (needsConnection w) (transport_isConnected w) (autoConnect w)
        (batchRequests w) (remote w) (promises w) (lazies w) (collectors w)
        (awaited w) (immediates w) l (invoked w).

Definition set_invoked (l : list (string * nat * value)) (w : world) : world :=
  World (needsConnection w) (transport_isConnected w) (autoConnect w)
        (batchRequests w) (remote w) (promises w) (lazies w) (collectors w)
        (awaited w) (immediates w) (transport_log w) l.

(** *** Promises: creation and settlement *)

(** [new Promise(...)]: the new promise is the last of the store. *)
Definition new_promise (o : origin) (w : world) : world * nat :=
  (set_promises (promises w ++ [Promise o Pending]) w, length (promises w)).

(** [resolve]/[reject] of promise [p]: only the first call has an effect. *)
Definition settle_promise (s : pstate) (pr : promise) : promise :=
  match p_state pr with
  | Pending => Promise (p_origin pr) s
  | _ => pr
  end.

Definition settle (p : nat) (s : pstate) (w : world) : world :=
  set_promises (alter (settle_promise s) p (promises w)) w.

Definition resolve (p : nat) (v : value) : world -> world := settle p (Fulfilled v).
Definition reject (p : nat) (e : value) : world -> world := settle p (Rejected e).

Definition promise_state (w : world) (p : nat) : option pstate :=
  p_state <$> promises w !! p.

(** *** [Promise.all] and [pProps] *)

(** The value of the aggregate: an array, or an object with the keys of
    the input. *)
Definition assemble (keys : option (list string)) (vs : list value) : value :=
  match keys with
  | None => VArr vs
  | Some ks => VObj (zip ks vs)
  end.

(** All the values, once every slot is filled. *)
Fixpoint filled (slots : list (option value)) : option (list value) :=
  match slots with
  | [] => Some []
  | Some v :: rest => cons v <$> filled rest
  | None :: _ => None
  end.

(** Input [i] of collector [c] is fulfilled with [v]. *)
Definition fill (c i : nat) (v : value) (w : world) : world :=
  match collectors w !! c with
  | Some col =>
      let slots := <[i := Some v]> (c_slots col) in
      let w1 := set_collectors
                  (<[c := Collector (c_target col) (c_keys col) (c_inputs col) slots]>
                     (collectors w)) w in
      match filled slots with
      | Some vs => resolve (c_target col) (assemble (c_keys col) vs) w1
      | None => w1
      end
  | None => w
  end.

(** An input of collector [c] is rejected with [e]. *)
Definition abort (c : nat) (e : value) (w : world) : world :=
  match collectors w !! c with
  | Some col => reject (c_target col) e w
  | None => w
  end.

Definition notify (s : pstate) (w : world) (sub : nat * nat) : world :=
  match s with
  | Fulfilled v => fill (fst sub) (snd sub) v w
  | Rejected e => abort (fst sub) e w
  | Pending => w
  end.

(** [resolve]/[reject] of the lazy promise [l], once its function has
    run: the first call settles it and tells those who wait. *)
Definition settle_lazy (l : nat) (s : pstate) (w : world) : world :=
  match lazies w !! l with
  | Some lz =>
      match l_state lz with
      | Some Pending =>
          fold_left (notify s) (l_subs lz)
                    (set_lazies (<[l := Lazy (l_exec lz) (Some s) (l_subs lz)]> (lazies w)) w)
      | _ => w
      end
  | None => w
  end.

Definition lazy_state (w : world) (l : nat) : option pstate :=
  lazies w !! l ≫= l_state.

Definition reject_target (t : target) (e : value) (w : world) : world :=
  match t with
  | TPromise p => reject p e w
  | TLazy l => settle_lazy l (Rejected e) w
  end.

(** ** The client: [class JRPCClient] *)

(** *** [constructor] *)

(** The transport as the constructor inspects it. *)
Record transport_object := TransportObject {
  t_emitter : bool;                (* instance of EventEmitter *)
  t_needsConnection : value;
  t_send : value;
  t_isConnected : value;
  t_connect : value;
  t_disconnect : value
}.

(** [options]: an absent transport is [None], an absent flag is
    [VUndefined]; [timeout], when given, is a finite number. *)
Record options := Options {
  opt_transport : option transport_object;
  opt_autoConnect : value;
  opt_batchRequests : value;
  opt_timeout : option Q
}.

Definition is_boolean (v : value) : bool :=
  match v with VBool _ => true | _ => false end.

Definition as_bool (v : value) : bool :=
  match v with VBool b => b | _ => false end.

Definition as_string (v : value) : string :=
  match v with VStr s => s | _ => "" end.

Definition invalid (prefix name kind : string) : value :=
  VErr TypeError (prefix +:+ dq +:+ name +:+ dq +:+ " " +:+ kind).

(** The error [checkTransport] throws, if any. *)
Definition checkTransport (transport : option transport_object) : option value :=
  match transport with
  | None => Some (invalid "missing/invalid " "transport" "option")
  | Some t =>
      if negb (t_emitter t) then
        Some (invalid "missing/invalid " "transport" "option")
      else if negb (is_boolean (t_needsConnection t)) then
        Some (invalid "missing/invalid " "transport.needsConnection" "property")
      else if negb (is_function (t_send t)) then
        Some (invalid "missing/invalid " "transport.send" "method")
      else if as_bool (t_needsConnection t) then
        if negb (is_boolean (t_isConnected t)) then
          Some (invalid "missing/invalid " "transport.isConnected" "property")
        else if negb (is_function (t_connect t)) then
          Some (invalid "missing/invalid " "transport.connect" "method")
        else if negb (is_function (t_disconnect t)) then
          Some (invalid "missing/invalid " "transport.disconnect" "method")
        else None
      else None
  end.

Definition or_default (v d : value) : value :=
  match v with VUndefined => d | _ => v end.

(** [new JRPCClient(options)]: the error thrown, or the new session. *)
Definition constructor (o : options) : value + world :=
  match checkTransport (opt_transport o), opt_transport o with
  | Some e, _ => inl e
  | None, None => inl (invalid "missing/invalid " "transport" "option")
  | None, Some t =>
      let autoConnect := or_default (opt_autoConnect o) (VBool true) in
      let batchRequests := or_default (opt_batchRequests o) (VBool true) in
      let timeout := default 60000%Q (opt_timeout o) in
      if negb (is_boolean autoConnect) then
        inl (invalid "invalid " "autoConnect" "option")
      else if negb (is_boolean batchRequests) then
        inl (invalid "invalid " "batchRequests" "option")
      else if negb (Qle_bool 1000 timeout) then
        inl (invalid "invalid " "timeout" "option")
      else
        inr (World (as_bool (t_needsConnection t)) (as_bool (t_isConnected t))
                   (as_bool autoConnect) (as_bool batchRequests)
                   (JRPC.new (Qfloor (timeout / 1000)))
                   [] [] [] [] [] [] [])
  end.

(** *** [isConnected], [connect], [disconnect] *)

Definition isConnected (w : world) : bool :=
  negb (needsConnection w) || transport_isConnected w.

(** A method of the transport is called; [r] is chained on the promise
    it returns, which is the last of [awaited]. *)
Definition transport_call (op : transport_op) (r : reaction) (w : world) : world :=
  set_transport_log (transport_log w ++ [op])
    (set_awaited (awaited w ++ [Some r]) w).

Definition connect (w : world) : world * nat :=
  let '(w1, p) := new_promise OConnect w in
  if needsConnection w1 && negb (transport_isConnected w1)
  then (transport_call OpConnect (RSettle p) w1, p)
  else (resolve p VUndefined w1, p).

Definition disconnect (w : world) : world * nat :=
  let '(w1, p) := new_promise OConnect w in
  if needsConnection w1 && transport_isConnected w1
  then (transport_call OpDisconnect (RSettle p) w1, p)
  else (resolve p VUndefined w1, p).

(** *** [notification] *)

(** The function exposed for [handler] is
    [(params, next) => { handler.call(null, params); next(true); }];
    the table keeps the identity of [handler]. *)
Definition notification (name : string) (handler : value) (w : world) : world :=
  match handler with
  | VFun f => set_remote (JRPC.expose name f (remote w)) w
  | _ =>
      match JRPC.exposed (remote w) !! name with
      | Some _ =>
          set_remote (JRPC.set_exposed (delete name (JRPC.exposed (remote w)))
                                       (remote w)) w
      | None => w
      end
  end.

(** *** Transmission *)

(** [(data, next) => { next(); transport.send(data).catch(reject); }] *)
Definition send (data : list JRPC.request) (t : target) (w : world) : world :=
  transport_call (OpSend data) (RCatchReject t) w.

(** [remote.transmit(sendFn)] *)
Definition transmit (t : target) (w : world) : world :=
  match JRPC.transmit (remote w) with
  | (r, Some data) => send data t (set_remote r w)
  | (r, None) => set_remote r w
  end.

(** *** [call] *)

(** The completion callbacks of [call] and [prepare]. *)
Definition run_callback (next : callback) (err result : value) (w : world) : world :=
  match next with
  | CbCall p rejectOnError =>
      if rejectOnError then
        if truthy err then reject p err w else resolve p result w
      else resolve p (response err result) w
  | CbPrepare l => settle_lazy l (Fulfilled (response err result)) w
  end.

Definition makeCall (p : nat) (method params : value) (rejectOnError : bool)
    (w : world) : world :=
  transmit (TPromise p)
    (set_remote (JRPC.call (as_string method) (js_or params (VArr []))
                           (CbCall p rejectOnError) (remote w)) w).

(** *** [prepare] and [LazyPromise] *)

Definition prepare (method params : value) (w : world) : world * nat :=
  (set_lazies (lazies w ++ [Lazy (ExPrepare method params) None []]) w,
   length (lazies w)).

(** The function [prepare] gives to [new LazyPromise]. *)
Definition prepare_executor (l : nat) (method params : value) (w : world) : world :=
  if negb (check.nonEmptyString method) then
    settle_lazy l (Rejected (invalid "missing/invalid " "method" "parameter")) w
  else
    let w1 := set_remote (JRPC.call (as_string method) (js_or params (VArr []))
                                    (CbPrepare l) (remote w)) w in
    if negb (batchRequests w1) then transmit (TLazy l) w1 else w1.

Definition run_executor (l : nat) (x : executor) (w : world) : world :=
  match x with
  | ExPrepare method params => prepare_executor l method params w
  | ExForeign => w
  end.

(** The first [then] of a lazy promise runs its function. *)
Definition start (l : nat) (w : world) : world :=
  match lazies w !! l with
  | Some lz =>
      match l_state lz with
      | None =>
          run_executor l (l_exec lz)
            (set_lazies (<[l := Lazy (l_exec lz) (Some Pending) (l_subs lz)]> (lazies w)) w)
      | Some _ => w
      end
  | None => w
  end.

(** [l.then(...)] on behalf of slot [i] of collector [c]. *)
Definition subscribe (c i l : nat) (w : world) : world :=
  let w1 := start l w in
  match lazies w1 !! l with
  | Some lz =>
      match l_state lz with
      | Some Pending =>
          set_lazies (<[l := Lazy (l_exec lz) (l_state lz) (l_subs lz ++ [(c, i)])]>
                        (lazies w1)) w1
      | Some s => notify s w1 (c, i)
      | None => w1
      end
  | None => w1
  end.

(** *** [batch] *)

(** One input of [Promise.all]: a lazy promise is awaited, any other
    value is its own result. *)
Definition await_input (c : nat) (w : world) (iv : nat * value) : world :=
  match snd iv with
  | VLazy l => subscribe c (fst iv) l w
  | v => fill c (fst iv) v w
  end.

(** [Promise.all(inputs).then(resolve).catch(reject)], and the same for
    [pProps] with the keys of the object. *)
Definition collect (p : nat) (keys : option (list string)) (inputs : list value)
    (w : world) : world :=
  match inputs with
  | [] => resolve p (assemble keys []) w
  | _ =>
      let c := length (collectors w) in
      fold_left (await_input c) (imap pair inputs)
        (set_collectors
           (collectors w ++ [Collector p keys inputs (replicate (length inputs) None)]) w)
  end.

Definition makeCalls (p : nat) (requests : value) (w : world) : world :=
  let w1 := match requests with
            | VArr l => collect p None l w
            | VObj o => collect p (Some (map fst o)) (map snd o) w
            | _ => w
            end in
  if batchRequests w1
  then set_immediates (immediates w1 ++ [JTransmit p]) w1
  else w1.

(** What was chained on a promise of the transport runs when it settles. *)
Definition run_reaction (r : reaction) (o : outcome) (w : world) : world :=
  match r with
  | RSettle p => settle p (settled o) w
  | RThenMakeCall p method params rejectOnError =>
      match o with
      | Resolves _ => makeCall p method params rejectOnError w
      | Rejects e => reject p e w
      end
  | RThenMakeCalls p requests =>
      match o with
      | Resolves _ => makeCalls p requests w
      | Rejects e => reject p e w
      end
  | RCatchReject t =>
      match o with
      | Resolves _ => w
      | Rejects e => reject_target t e w
      end
  end.

(** [this.connect().then(k).catch(reject)] *)
Definition connect_then (k : reaction) (w : world) : world :=
  if needsConnection w && negb (transport_isConnected w)
  then transport_call OpConnect k w
  else run_reaction k (Resolves VUndefined) w.

(** The function [call] gives to [new Promise]; [p] is that promise. *)
Definition call_executor (p : nat) (method params : value) (rejectOnError : bool)
    (w : world) : world :=
  if negb (check.nonEmptyString method) then
    reject p (invalid "missing/invalid " "method" "parameter") w
  else if negb (isConnected w) then
    if negb (autoConnect w) then reject p not_connected w
    else connect_then (RThenMakeCall p method params rejectOnError) w
  else makeCall p method params rejectOnError w.

Definition call (method params : value) (rejectOnError : bool) (w : world)
    : world * nat :=
  let '(w1, p) := new_promise (OCall rejectOnError) w in
  (call_executor p method params rejectOnError w1, p).

(** The part of [batch] after the checks of [requests]. *)
Definition batch_valid (p : nat) (requests : value) (w : world) : world :=
  if negb (isConnected w) then
    if negb (autoConnect w) then reject p not_connected w
    else connect_then (RThenMakeCalls p requests) w
  else makeCalls p requests w.

(** The function [batch] gives to [new Promise]; [p] is that promise. *)
Definition batch_executor (p : nat) (requests : value) (w : world) : world :=
  match requests with
  | VArr l =>
      match l with
      | [] => resolve p (VArr []) w
      | _ =>
          if negb (check.array_of_LazyPromise l) then
            reject p (invalid "missing/invalid " "requests" "parameter") w
          else batch_valid p requests w
      end
  | VObj o =>
      match o with
      | [] => resolve p (VObj []) w
      | _ =>
          if negb (check.object_of_LazyPromise o) then
            reject p (invalid "missing/invalid " "requests" "parameter") w
          else batch_valid p requests w
      end
  | _ => reject p (invalid "missing/invalid " "requests" "parameter") w
  end.

Definition batch (requests : value) (w : world) : world * nat :=
  let '(w1, p) := new_promise (OBatch requests) w in
  (batch_executor p requests w1, p).

(** *** [onTransportData] *)

Definition run_effect (w : world) (e : JRPC.effect) : world :=
  match e with
  | JRPC.Deliver next err result => run_callback next err result w
  | JRPC.Serve handler name params i =>
      (* handler.call(null, params); next(true); *)
      let w1 := set_invoked (invoked w ++ [(name, handler, params)]) w in
      set_remote (JRPC.answer i (VBool true) (remote w1)) w1
  end.

Definition onTransportData (data : value) (w : world) : world :=
  let '(r, es) := JRPC.receive (normalize data) (remote w) in
  fold_left run_effect es (set_remote r w).

(** ** Events *)

(** What can happen to a session: the application calls a method of the
    client or awaits a prepared call; a promise of the transport settles,
    the transport changes state or emits data; the engine completes a
    pending call (a response, a timeout); the event loop runs the next
    immediate job. *)
Inductive event :=
| Connect
| Disconnect
| Notification (name : string) (handler : value)
| Call (method params : value) (rejectOnError : bool)
| Prepare (method params : value)
| Then (l : nat)
| Batch (requests : value)
| NewLazyPromise
| LazySettles (l : nat) (o : outcome)
| TransportSettles (e : nat) (o : outcome)
| TransportIs (connected : bool)
| TransportData (data : value)
| Completes (i : nat) (err result : value)
| Immediate.

Definition exec (ev : event) (w : world) : world :=
  match ev with
  | Connect => fst (connect w)
  | Disconnect => fst (disconnect w)
  | Notification name handler => notification name handler w
  | Call method params rejectOnError => fst (call method params rejectOnError w)
  | Prepare method params => fst (prepare method params w)
  | Then l => start l w
  | Batch requests => fst (batch requests w)
  | NewLazyPromise => set_lazies (lazies w ++ [Lazy ExForeign None []]) w
  | LazySettles l o =>
      match l_exec <$> lazies w !! l with
      | Some ExForeign => settle_lazy l (settled o) w
      | _ => w
      end
  | TransportSettles e o =>
      match awaited w !! e with
      | Some (Some r) => run_reaction r o (set_awaited (<[e := None]> (awaited w)) w)
      | _ => w
      end
  | TransportIs connected => set_transport_isConnected connected w
  | TransportData data => onTransportData data w
  | Completes i err result =>
      match JRPC.complete i (remote w) with
      | Some (next, r) => run_callback next err result (set_remote r w)
      | None => w
      end
  | Immediate =>
      match immediates w with
      | JTransmit p :: rest => transmit (TPromise p) (set_immediates rest w)
      | [] => w
      end
  end.

Definition run (evs : list event) (w : world) : world :=
  fold_left (fun w ev => exec ev w) evs w.

(** ** The transports and sessions of the test suite *)

(** [FakeTransport]: connectionless. *)
Definition FakeTransport : transport_object :=
  TransportObject true (VBool false) (VFun 0) VUndefined VUndefined VUndefined.

(** [ConnectedTransport]: needs a connection, not connected at first. *)
Definition ConnectedTransport : transport_object :=
  TransportObject true (VBool true) (VFun 0) (VBool false) (VFun 1) (VFun 2).

(** [new JRPCClient({ transport: new FakeTransport() })] *)
Definition fake_client : world :=
  World false false true true (JRPC.new 60) [] [] [] [] [] [] [].

(** [new JRPCClient({ transport: new ConnectedTransport(), autoConnect })] *)
Definition connected_client (autoConnect : bool) : world :=
  World true false autoConnect true (JRPC.new 60) [] [] [] [] [] [] [].

(** A response and a notification as the fake transport emits them. *)
Definition result_message (i : Z) (result : value) : value :=
  VObj [("jsonrpc", VStr "2.0"); ("id", VNum i); ("result", result)].


(** ** Predicates used in the statements *)







(** ** Invariants of a session *)

Definition origin_of (w : world) (p : nat) : option origin :=
  p_origin <$> promises w !! p.

(** A later state of the same session: promises keep their origin and,
    once settled, their state; lazy promises keep their function and,
    once settled, their state; collectors keep their target, keys and
    inputs. *)
Record ext (w w' : world) : Prop := Ext {
  ext_origin : ∀ p o, origin_of w p = Some o → origin_of w' p = Some o;
  ext_settled : ∀ p s, promise_state w p = Some s → s ≠ Pending →
                       promise_state w' p = Some s;
  ext_lazy : ∀ l lz, lazies w !! l = Some lz →
      ∃ lz', lazies w' !! l = Some lz' ∧ l_exec lz' = l_exec lz
             ∧ (∀ s, l_state lz = Some s → s ≠ Pending → l_state lz' = Some s);
  ext_collector : ∀ c col, collectors w !! c = Some col →
      ∃ col', collectors w' !! c = Some col' ∧ c_target col' = c_target col
              ∧ c_keys col' = c_keys col ∧ c_inputs col' = c_inputs col
              ∧ length (c_slots col') = length (c_slots col)
}.

(** ** The arguments of [batch] *)

(** [requests] is neither an array nor an object, or one of its
    elements (values) is not a [LazyPromise]. *)
Definition invalid_requests (requests : value) : bool :=
  match requests with
  | VArr l => negb (check.array_of_LazyPromise l)
  | VObj o => negb (check.object_of_LazyPromise o)
  | _ => true
  end.

(** [requests] is a non-empty array or object of [LazyPromise]s. *)
Definition valid_requests (requests : value) : bool :=
  match requests with
  | VArr (x :: l) => check.array_of_LazyPromise (x :: l)
  | VObj (x :: o) => check.object_of_LazyPromise (x :: o)
  | _ => false
  end.

(** The inputs of the aggregate and, for an object, their keys. *)
Definition inputs_of (requests : value) : list value :=
  match requests with
  | VArr l => l
  | VObj o => map snd o
  | _ => []
  end.

Definition keys_of (requests : value) : option (list string) :=
  match requests with
  | VObj o => Some (map fst o)
  | _ => None
  end.

(** The prepared call [l] is pending in the engine. *)
Definition registered (l : nat) (w : world) : Prop :=
  ∃ i : nat, (i ≤ JRPC.serial (remote w))%nat
           ∧ JRPC.inbox (remote w) !! i = Some (CbPrepare l).

(** ** The invariant of a session *)

(** [v] is an RPCResponse object. *)
Definition is_response (v : value) : Prop :=
  ∃ err result, v = response err result.

(** [v] is what the input [x] of an aggregate is fulfilled with: the
    value of the lazy promise, or [x] itself when it is no promise. *)
Definition value_of (w : world) (x v : value) : Prop :=
  match x with
  | VLazy l => lazy_state w l = Some (Fulfilled v)
  | _ => v = x
  end.

(** [v] has the shape of [requests]: an array as long as [requests], or
    an object with its keys, and holds in each place the value of the
    input in that place. *)
Definition good_result (w : world) (requests v : value) : Prop :=
  ∃ vs, v = assemble (keys_of requests) vs
        ∧ Forall2 (value_of w) (inputs_of requests) vs.

Definition reaction_ok (w : world) (r : reaction) : Prop :=
  match r with
  | RSettle p => origin_of w p = Some OConnect
  | RThenMakeCall p _ _ b => origin_of w p = Some (OCall b)
  | RThenMakeCalls p requests => origin_of w p = Some (OBatch requests)
  | RCatchReject _ => True
  end.

Record inv (w : world) : Prop := Inv {
  (* a fulfilled batch has the shape and the values of its inputs *)
  inv_batch : ∀ p requests v,
    promises w !! p = Some (Promise (OBatch requests) (Fulfilled v)) →
    good_result w requests v;
  (* a collector belongs to a batch, and its filled slots hold the
     values of its inputs *)
  inv_collector : ∀ c col, collectors w !! c = Some col →
    (∃ requests, origin_of w (c_target col) = Some (OBatch requests)
                 ∧ keys_of requests = c_keys col
                 ∧ inputs_of requests = c_inputs col)
    ∧ length (c_slots col) = length (c_inputs col)
    ∧ ∀ i v, c_slots col !! i = Some (Some v) →
        ∃ x, c_inputs col !! i = Some x ∧ value_of w x v;
  (* who waits for a lazy promise has it as input *)
  inv_subs : ∀ l lz c i, lazies w !! l = Some lz → (c, i) ∈ l_subs lz →
    ∃ col, collectors w !! c = Some col ∧ c_inputs col !! i = Some (VLazy l);
  (* the callbacks and reactions of [call] settle promises of [call] *)
  inv_inbox : ∀ i p b, JRPC.inbox (remote w) !! i = Some (CbCall p b) →
    origin_of w p = Some (OCall b);
  inv_awaited : ∀ e r, awaited w !! e = Some (Some r) → reaction_ok w r;
  (* a prepared call is fulfilled with a response *)
  inv_prepared : ∀ l lz v, lazies w !! l = Some lz → l_exec lz ≠ ExForeign →
    l_state lz = Some (Fulfilled v) → is_response v
}.

(** [x] is a call prepared on this session: a lazy promise made by
    [prepare]. *)
Definition is_prepared (w : world) (x : value) : bool :=
  match x with
  | VLazy l =>
      match l_exec <$> lazies w !! l with
      | Some (ExPrepare _ _) => true
      | _ => false
      end
  | _ => false
  end.
(** ** Vocabulary of the further properties *)

(** The message carries at most one of [result] and [error]. *)
Definition one_outcome (msg : value) : bool :=
  match msg with
  | VObj o => negb (hasOwnProperty o "error" && hasOwnProperty o "result")
  | _ => true
  end.

(** The operation is a [transport.send]. *)
Definition is_send (op : transport_op) : bool :=
  match op with OpSend _ => true | _ => false end.


(** Between a state and a later one, the transport was called with the
    operations [new], which are all [send]s if it needs no connection. *)
Definition log_grows (w w' : world) : Prop :=
  needsConnection w' = needsConnection w
  ∧ ∃ new, transport_log w' = transport_log w ++ new
           ∧ (needsConnection w = false → forallb is_send new = true).

(** With batching off, a later state has nothing registered and unsent,
    and no flush queued, if the earlier one had not. *)
Definition nothing_queued (w w' : world) : Prop :=
  batchRequests w' = batchRequests w
  ∧ (batchRequests w = false →
     JRPC.outbox (remote w) = [] → immediates w = [] →
     JRPC.outbox (remote w') = [] ∧ immediates w' = []).

(** The options of the session and of its engine. *)
Definition configuration (w : world) : bool * bool * bool * Z :=
  (needsConnection w, autoConnect w, batchRequests w,
   JRPC.remoteTimeout (remote w)).

(** The requests the engine makes of the calls [(method, params)], made
    in this order after the correlation id [s] was given out. *)
Fixpoint requests_from (s : nat) (calls : list (value * value))
  : list JRPC.request :=
  match calls with
  | [] => []
  | mp :: rest =>
      JRPC.Request (S s) (as_string (fst mp)) (js_or (snd mp) (VArr []))
      :: requests_from (S s) rest
  end.

(** The lazy promise [l] is the call [mp] prepared and not awaited yet. *)
Definition unawaited (w : world) (l : nat) (mp : value * value) : Prop :=
  lazies w !! l = Some (Lazy (ExPrepare (fst mp) (snd mp)) None []).

(** Without batching, each request is sent as it is registered, the
    first one with what waited in the engine. *)
Fixpoint sends (waiting reqs : list JRPC.request) : list transport_op :=
  match reqs with
  | [] => []
  | r :: rs => OpSend (waiting ++ [r]) :: sends [] rs
  end.

(** The slots of a batch and the prepared calls they wait for. *)
Definition slots_of (ils : list (nat * nat)) : list (nat * value) :=
  map (fun il => (fst il, VLazy (snd il))) ils.

(** [requests] is a non-empty array or object of the prepared calls
    [ls], which are the calls [calls], all distinct, none of them
    awaited yet. *)
Definition batch_of (w : world) (requests : value) (ls : list nat)
    (calls : list (value * value)) : Prop :=
  inputs_of requests = map VLazy ls ∧ ls ≠ [] ∧ NoDup ls
  ∧ Forall2 (unawaited w) ls calls.

(** Every call has a valid method. *)
Definition valid_methods (calls : list (value * value)) : bool :=
  forallb (fun mp => check.nonEmptyString (fst mp)) calls.

(** The collector [c] of a batch waits for the prepared calls [ls]: the
    slots hold the responses that came; slot [k] alone waits for the
    call at position [k] while it is empty, and that call is pending;
    the promise of the batch is pending while a slot is empty, and
    fulfilled with all the responses once none is. *)
Definition waiting (w : world) (c p : nat) (keys : option (list string))
    (inputs : list value) (ls : list nat) (slots : list (option value)) : Prop :=
  collectors w !! c = Some (Collector p keys inputs slots)
  ∧ length slots = length ls
  ∧ (filled slots = None → promise_state w p = Some Pending)
  ∧ (∀ vs, filled slots = Some vs →
       promise_state w p = Some (Fulfilled (assemble keys vs)))
  ∧ ∀ k l, ls !! k = Some l → slots !! k = Some None →
      ∃ ex, lazies w !! l = Some (Lazy ex (Some Pending) [(c, k)]).

(** The engine completes the calls of a batch, in the order [order] of
    their positions, the call at position [k] with [outcome k]. *)
Definition complete_all (s : nat) (outcome : nat → value * value)
    (order : list nat) (w : world) : world :=
  fold_left (fun w k => exec (Completes (s + 1 + k) (fst (outcome k))
                                        (snd (outcome k))) w) order w.


(** ** Properties of the values *)



Lemma js_or_falsy a b : truthy a = false → js_or a b = b.
Proof. unfold js_or. by intros ->. Qed.

Lemma hasOwnProperty_delete_eq k o : hasOwnProperty (delete_prop k o) k = false.
Proof.
  unfold hasOwnProperty, delete_prop.
  induction o as [|[k' v] o IH]; simpl; [done|].
  destruct (String.eqb k' k) eqn:E; simpl; [done|]. by rewrite E.
Qed.








(** ** The constructor *)

Lemma constructor_inr o w :
  constructor o = inr w →
  ∃ t, opt_transport o = Some t
       ∧ Qle_bool 1000 (default 60000%Q (opt_timeout o)) = true
       ∧ needsConnection w = as_bool (t_needsConnection t)
       ∧ remote w = JRPC.new (Qfloor (default 60000%Q (opt_timeout o) / 1000))
       ∧ promises w = [] ∧ lazies w = [] ∧ collectors w = []
       ∧ awaited w = [] ∧ immediates w = []
       ∧ transport_log w = [] ∧ invoked w = [].
Proof.
  unfold constructor.
  destruct (checkTransport (opt_transport o)); [done|].
  destruct (opt_transport o) as [t|]; [|done].
  destruct (negb (is_boolean _)); [done|].
  destruct (negb (is_boolean _)); [done|].
  destruct (Qle_bool 1000 _) eqn:Ht; [|done]. simpl.
  intros [= <-]. by exists t.
Qed.



(** [timeout: 1999] and [timeout: 1000] give the same one second. *)
Example timeout_1999_as_1000 :
  constructor (Options (Some FakeTransport) VUndefined VUndefined (Some 1999%Q))
  = constructor (Options (Some FakeTransport) VUndefined VUndefined (Some 1000%Q)).
Proof. reflexivity. Qed.

Example constructor_fake_client :
  constructor (Options (Some FakeTransport) VUndefined VUndefined None)
  = inr fake_client.
Proof. reflexivity. Qed.

Example constructor_connected_client :
  constructor (Options (Some ConnectedTransport) VUndefined VUndefined None)
  = inr (connected_client true)
  ∧ constructor (Options (Some ConnectedTransport) (VBool false) VUndefined None)
    = inr (connected_client false).
Proof. split; reflexivity. Qed.

(** ** Settling promises *)

Lemma promise_state_settle_eq w p s :
  promise_state w p = Some Pending → promise_state (settle p s w) p = Some s.
Proof.
  unfold promise_state, settle. simpl. rewrite list_lookup_alter_eq.
  destruct (promises w !! p) as [[o st]|]; simpl; [|done].
  intros [= ->]. done.
Qed.

Lemma promise_state_settle_ne w p q s :
  p ≠ q → promise_state (settle q s w) p = promise_state w p.
Proof.
  intros Hne. unfold promise_state, settle. simpl.
  by rewrite list_lookup_alter_ne.
Qed.

Lemma promise_state_settle_settled w p q s s' :
  promise_state w p = Some s → s ≠ Pending →
  promise_state (settle q s' w) p = Some s.
Proof.
  intros Hp Hs. destruct (decide (p = q)) as [->|Hne].
  - revert Hp. unfold promise_state, settle. simpl. rewrite list_lookup_alter_eq.
    destruct (promises w !! q) as [[o st]|]; simpl; [|done].
    intros [= ->]. unfold settle_promise. simpl. by destruct s.
  - by rewrite promise_state_settle_ne.
Qed.

Lemma promise_state_new_promise_old w o p :
  p < length (promises w) →
  promise_state (fst (new_promise o w)) p = promise_state w p.
Proof.
  intros Hp. unfold promise_state, new_promise. simpl.
  by rewrite lookup_app_l.
Qed.

Lemma promise_state_new_promise w o :
  promise_state (fst (new_promise o w)) (length (promises w)) = Some Pending.
Proof.
  unfold promise_state, new_promise. simpl.
  rewrite lookup_app_r by lia. by rewrite Nat.sub_diag.
Qed.

(** Settling promises and filling collectors leaves the lazy promises,
    the engine and the transport alone. *)
Lemma notify_frame s w sub :
  lazies (notify s w sub) = lazies w
  ∧ remote (notify s w sub) = remote w
  ∧ transport_log (notify s w sub) = transport_log w
  ∧ awaited (notify s w sub) = awaited w
  ∧ immediates (notify s w sub) = immediates w
  ∧ invoked (notify s w sub) = invoked w.
Proof.
  destruct s; simpl; [done| |].
  - unfold fill. destruct (collectors w !! sub.1); [|done].
    simpl. by destruct (filled _).
  - unfold abort. by destruct (collectors w !! sub.1).
Qed.

Lemma fold_notify_frame s subs w :
  lazies (fold_left (notify s) subs w) = lazies w
  ∧ remote (fold_left (notify s) subs w) = remote w
  ∧ transport_log (fold_left (notify s) subs w) = transport_log w
  ∧ awaited (fold_left (notify s) subs w) = awaited w
  ∧ immediates (fold_left (notify s) subs w) = immediates w
  ∧ invoked (fold_left (notify s) subs w) = invoked w.
Proof.
  revert w. induction subs as [|sub subs IH]; intros w; simpl; [done|].
  destruct (IH (notify s w sub)) as (-> & -> & -> & -> & -> & ->).
  apply notify_frame.
Qed.

Lemma lazy_state_settle_lazy_eq w l s :
  lazy_state w l = Some Pending → lazy_state (settle_lazy l s w) l = Some s.
Proof.
  unfold lazy_state, settle_lazy.
  destruct (lazies w !! l) as [lz|] eqn:Hl; simpl; [|done].
  intros ->.
  destruct (fold_notify_frame s (l_subs lz)
              (set_lazies (<[l:=Lazy (l_exec lz) (Some s) (l_subs lz)]> (lazies w)) w))
    as (-> & _).
  simpl. rewrite list_lookup_insert_eq; [done|].
  by eapply lookup_lt_Some.
Qed.

(** ** C1: the RPCResponse object *)





(** ** C8: [connect] and [disconnect] *)

Lemma settle_new_promise o s w :
  settle (length (promises w)) s (fst (new_promise o w))
  = set_promises (promises w ++ [Promise o s]) w.
Proof.
  unfold settle, new_promise, set_promises. simpl. f_equal.
  induction (promises w) as [|pr ps IH]; simpl; [done|].
  by f_equal.
Qed.

Lemma awaited_settles_last w op r o :
  exec (TransportSettles (length (awaited w)) o) (transport_call op r w)
  = run_reaction r o
      (set_transport_log (transport_log w ++ [op])
         (set_awaited (awaited w ++ [None]) w)).
Proof.
  simpl. rewrite lookup_app_r by lia. rewrite Nat.sub_diag. simpl.
  f_equal. unfold set_awaited, set_transport_log. simpl. f_equal.
  induction (awaited w) as [|a l IH]; simpl; [done|]. by f_equal.
Qed.

Lemma connect_eq w :
  connect w
  = (if needsConnection w && negb (transport_isConnected w)
     then transport_call OpConnect (RSettle (length (promises w)))
            (fst (new_promise OConnect w))
     else resolve (length (promises w)) VUndefined (fst (new_promise OConnect w)),
     length (promises w)).
Proof. unfold connect. simpl. by destruct (_ && _). Qed.

Lemma disconnect_eq w :
  disconnect w
  = (if needsConnection w && transport_isConnected w
     then transport_call OpDisconnect (RSettle (length (promises w)))
            (fst (new_promise OConnect w))
     else resolve (length (promises w)) VUndefined (fst (new_promise OConnect w)),
     length (promises w)).
Proof. unfold disconnect. simpl. by destruct (_ && _). Qed.

(** C8: [connect()] on a connectionless or connected transport, and
    [disconnect()] on a connectionless or disconnected one, return a
    promise already fulfilled and touch nothing else (no call on the
    transport); otherwise they call [transport.connect()] (respectively
    [transport.disconnect()]) once, and the promise they return settles
    as the promise of the transport does: a failure [e] of the transport
    is the failure of the caller. *)
Theorem connect_disconnect_delegate (w : world) :
  let p := length (promises w) in
  let e := length (awaited w) in
  (snd (connect w) = p
   ∧ if negb (needsConnection w) || transport_isConnected w
     then fst (connect w)
          = set_promises (promises w ++ [Promise OConnect (Fulfilled VUndefined)]) w
     else transport_log (fst (connect w)) = transport_log w ++ [OpConnect]
          ∧ promise_state (fst (connect w)) p = Some Pending
          ∧ ∀ o, promise_state (exec (TransportSettles e o) (fst (connect w))) p
                 = Some (settled o))
  ∧ (snd (disconnect w) = p
     ∧ if negb (needsConnection w) || negb (transport_isConnected w)
       then fst (disconnect w)
            = set_promises (promises w ++ [Promise OConnect (Fulfilled VUndefined)]) w
       else transport_log (fst (disconnect w)) = transport_log w ++ [OpDisconnect]
            ∧ promise_state (fst (disconnect w)) p = Some Pending
            ∧ ∀ o, promise_state (exec (TransportSettles e o) (fst (disconnect w))) p
                   = Some (settled o)).
Proof.
  intros p e. split.
  - rewrite connect_eq.
    destruct (needsConnection w), (transport_isConnected w);
      cbn [andb negb orb fst snd]; (split; [done|]);
      try apply settle_new_promise.
    split; [done|]. split.
    { apply (promise_state_new_promise w OConnect). }
    intros o. subst e.
    change (length (awaited w))
      with (length (awaited (fst (new_promise OConnect w)))).
    rewrite awaited_settles_last. cbn [run_reaction].
    apply promise_state_settle_eq, (promise_state_new_promise w OConnect).
  - rewrite disconnect_eq.
    destruct (needsConnection w), (transport_isConnected w);
      cbn [andb negb orb fst snd]; (split; [done|]);
      try apply settle_new_promise.
    split; [done|]. split.
    { apply (promise_state_new_promise w OConnect). }
    intros o. subst e.
    change (length (awaited w))
      with (length (awaited (fst (new_promise OConnect w)))).
    rewrite awaited_settles_last. cbn [run_reaction].
    apply promise_state_settle_eq, (promise_state_new_promise w OConnect).
Qed.

(** [connect(); disconnect(); connect()] over the connected transport of
    the test suite, which flips [isConnected] when called. *)
Example connect_disconnect_connect :
  let w := run [Connect; TransportIs true; TransportSettles 0 (Resolves VUndefined);
                Disconnect; TransportIs false; TransportSettles 1 (Resolves VUndefined);
                Connect; TransportIs true; TransportSettles 2 (Resolves VUndefined);
                Connect]
               (connected_client true) in
  isConnected w = true
  ∧ transport_log w = [OpConnect; OpDisconnect; OpConnect]
  ∧ map p_state (promises w)
    = [Fulfilled VUndefined; Fulfilled VUndefined; Fulfilled VUndefined;
       Fulfilled VUndefined].
Proof. by vm_compute. Qed.

Lemma call_eq m ps b w :
  fst (call m ps b w)
  = call_executor (length (promises w)) m ps b (fst (new_promise (OCall b) w)).
Proof. done. Qed.

Lemma batch_eq requests w :
  fst (batch requests w)
  = batch_executor (length (promises w)) requests
      (fst (new_promise (OBatch requests) w)).
Proof. done. Qed.

(** ** What the operations leave alone *)

(** A view [π] of the session that does not look at the promises, the
    lazy promises, the collectors, the queues or the log of the
    transport, and looks at the engine only through [exposed], is kept
    by every operation of the client but [notification] and the
    handling of inbound data. *)
Section keeps.
Context {A : Type} (π : world → A).
Hypothesis π_promises : ∀ x w, π (set_promises x w) = π w.
Hypothesis π_lazies : ∀ x w, π (set_lazies x w) = π w.
Hypothesis π_collectors : ∀ x w, π (set_collectors x w) = π w.
Hypothesis π_awaited : ∀ x w, π (set_awaited x w) = π w.
Hypothesis π_immediates : ∀ x w, π (set_immediates x w) = π w.
Hypothesis π_transport_log : ∀ x w, π (set_transport_log x w) = π w.
Hypothesis π_isConnected : ∀ x w, π (set_transport_isConnected x w) = π w.
Hypothesis π_remote : ∀ r w,
  JRPC.exposed r = JRPC.exposed (remote w) → π (set_remote r w) = π w.

Lemma keeps_fold {B} (f : world → B → world) (l : list B) w :
  (∀ w x, π (f w x) = π w) → π (fold_left f l w) = π w.
Proof.
  intros Hf. revert w. induction l as [|x l IH]; intros w; simpl; [done|].
  by rewrite IH.
Qed.

Lemma keeps_settle p s w : π (settle p s w) = π w.
Proof. apply π_promises. Qed.

Lemma keeps_fill c i v w : π (fill c i v w) = π w.
Proof.
  unfold fill. destruct (collectors w !! c); [|done].
  cbv zeta. destruct (filled _); unfold resolve;
    by rewrite ?keeps_settle, π_collectors.
Qed.

Lemma keeps_abort c e w : π (abort c e w) = π w.
Proof.
  unfold abort. destruct (collectors w !! c); [|done]. apply keeps_settle.
Qed.

Lemma keeps_notify s w sub : π (notify s w sub) = π w.
Proof. destruct s; simpl; [done|apply keeps_fill|apply keeps_abort]. Qed.

Lemma keeps_settle_lazy l s w : π (settle_lazy l s w) = π w.
Proof.
  unfold settle_lazy. destruct (lazies w !! l) as [lz|]; [|done].
  destruct (l_state lz) as [[| |]|]; try done.
  rewrite keeps_fold; [apply π_lazies|]. intros. apply keeps_notify.
Qed.


Lemma keeps_transport_call op r w : π (transport_call op r w) = π w.
Proof. unfold transport_call. by rewrite π_transport_log, π_awaited. Qed.

Lemma keeps_transmit t w : π (transmit t w) = π w.
Proof.
  unfold transmit, JRPC.transmit. destruct (JRPC.outbox (remote w)).
  - by apply π_remote.
  - unfold send. rewrite keeps_transport_call. by apply π_remote.
Qed.

Lemma keeps_remote_call m ps next w :
  π (set_remote (JRPC.call m ps next (remote w)) w) = π w.
Proof. by apply π_remote. Qed.



Lemma keeps_start l w : π (start l w) = π w.
Proof.
  unfold start. destruct (lazies w !! l) as [lz|]; [|done].
  destruct (l_state lz); [done|].
  destruct (l_exec lz) as [m ps|]; simpl; [|apply π_lazies].
  unfold prepare_executor. destruct (negb (check.nonEmptyString m)).
  - by rewrite keeps_settle_lazy, π_lazies.
  - cbv zeta. destruct (negb (batchRequests _));
      by rewrite ?keeps_transmit, keeps_remote_call, π_lazies.
Qed.

Lemma keeps_subscribe c i l w : π (subscribe c i l w) = π w.
Proof.
  unfold subscribe. cbv zeta.
  destruct (lazies (start l w) !! l) as [lz|]; [|apply keeps_start].
  destruct (l_state lz) as [[| |]|];
    by rewrite ?keeps_notify, ?π_lazies, keeps_start.
Qed.

Lemma keeps_await_input c w iv : π (await_input c w iv) = π w.
Proof.
  unfold await_input. destruct (snd iv);
    try apply keeps_fill. apply keeps_subscribe.
Qed.












End keeps.

(** ** C9: the notification handlers *)













(** ** Later states *)

Lemma ext_refl w : ext w w.
Proof. split; eauto 10. Qed.

Lemma ext_trans w1 w2 w3 : ext w1 w2 → ext w2 w3 → ext w1 w3.
Proof.
  intros [o1 s1 l1 c1] [o2 s2 l2 c2]. split; [by eauto|by eauto|..].
  - intros l lz Hl. destruct (l1 l lz Hl) as (lz' & Hl' & He & Hs).
    destruct (l2 l lz' Hl') as (lz'' & Hl'' & He' & Hs').
    exists lz''. split; [done|]. split; [congruence|]. eauto.
  - intros c col Hc. destruct (c1 c col Hc) as (col' & Hc' & ? & ? & ? & ?).
    destruct (c2 c col' Hc') as (col'' & Hc'' & ? & ? & ? & ?).
    exists col''. repeat split; congruence.
Qed.

Lemma ext_same w w' :
  promises w' = promises w → lazies w' = lazies w →
  collectors w' = collectors w → ext w w'.
Proof.
  intros Hp Hl Hc.
  split; unfold origin_of, promise_state; rewrite ?Hp, ?Hl, ?Hc; eauto 10.
Qed.

Lemma ext_new_promise o w : ext w (fst (new_promise o w)).
Proof.
  split; unfold origin_of, promise_state; simpl; eauto 10.
  - intros p o' Hp. rewrite lookup_app_l; [done|].
    apply fmap_Some in Hp as (pr & Hp & _). by eapply lookup_lt_Some.
  - intros p s Hp _. rewrite lookup_app_l; [done|].
    apply fmap_Some in Hp as (pr & Hp & _). by eapply lookup_lt_Some.
Qed.

Lemma ext_settle p s w : ext w (settle p s w).
Proof.
  split; unfold origin_of; simpl; eauto 10.
  - intros q o Hq. destruct (decide (p = q)) as [->|Hne].
    + rewrite list_lookup_alter_eq.
      destruct (promises w !! q) as [[o' st]|]; simpl in *; [|done].
      unfold settle_promise. simpl. by destruct st.
    + by rewrite list_lookup_alter_ne.
  - intros q s' Hq Hs'. by apply promise_state_settle_settled.
Qed.

Lemma ext_fill c i v w : ext w (fill c i v w).
Proof.
  unfold fill. destruct (collectors w !! c) as [col|] eqn:Hc; [|apply ext_refl].
  cbv zeta.
  assert (Hx : ext w (set_collectors
    (<[c:=Collector (c_target col) (c_keys col) (c_inputs col)
            (<[i:=Some v]> (c_slots col))]> (collectors w)) w)).
  { split; unfold origin_of, promise_state; simpl; eauto 10.
    intros c' col' Hc'. destruct (decide (c = c')) as [->|Hne].
    - rewrite list_lookup_insert_eq by (by eapply lookup_lt_Some).
      eexists. split; [done|]. simpl. rewrite length_insert.
      by replace col' with col by congruence.
    - rewrite list_lookup_insert_ne by done. eauto 10. }
  destruct (filled _); [|done].
  eapply ext_trans; [exact Hx|apply ext_settle].
Qed.

Lemma ext_abort c e w : ext w (abort c e w).
Proof.
  unfold abort. destruct (collectors w !! c); [apply ext_settle|apply ext_refl].
Qed.

Lemma ext_notify s w sub : ext w (notify s w sub).
Proof. destruct s; [apply ext_refl|apply ext_fill|apply ext_abort]. Qed.

Lemma ext_fold {B} (f : world → B → world) (l : list B) w :
  (∀ w x, ext w (f w x)) → ext w (fold_left f l w).
Proof.
  intros Hf. revert w. induction l as [|x l IH]; intros w; simpl;
    [apply ext_refl|]. eapply ext_trans; [apply Hf|apply IH].
Qed.

(** A lazy promise that is not settled changes state or subscribers. *)
Lemma ext_set_lazy l lz st subs w :
  lazies w !! l = Some lz →
  (l_state lz = None ∨ l_state lz = Some Pending) →
  ext w (set_lazies (<[l:=Lazy (l_exec lz) st subs]> (lazies w)) w).
Proof.
  intros Hl Hst. split; unfold origin_of, promise_state; simpl; eauto 10.
  intros l' lz' Hl'. destruct (decide (l = l')) as [->|Hne].
  - rewrite list_lookup_insert_eq by (by eapply lookup_lt_Some).
    eexists. split; [done|]. simpl. replace lz' with lz by congruence.
    split; [done|]. intros s Hs Hp. destruct Hst as [Hst|Hst]; congruence.
  - rewrite list_lookup_insert_ne by done. eauto 10.
Qed.

Lemma ext_settle_lazy l s w : ext w (settle_lazy l s w).
Proof.
  unfold settle_lazy. destruct (lazies w !! l) as [lz|] eqn:Hl; [|apply ext_refl].
  destruct (l_state lz) as [[| |]|] eqn:Hst; try apply ext_refl.
  eapply ext_trans; [by apply ext_set_lazy; eauto|].
  apply ext_fold. intros. apply ext_notify.
Qed.

Lemma ext_reject_target t e w : ext w (reject_target t e w).
Proof. destruct t; [apply ext_settle|apply ext_settle_lazy]. Qed.

Lemma ext_transport_call op r w : ext w (transport_call op r w).
Proof. by apply ext_same. Qed.

Lemma ext_transmit t w : ext w (transmit t w).
Proof.
  unfold transmit, JRPC.transmit.
  destruct (JRPC.outbox (remote w)); by apply ext_same.
Qed.

Lemma ext_run_callback next err result w : ext w (run_callback next err result w).
Proof.
  destruct next as [p [|]|l]; simpl; [destruct (truthy err)|..];
    try apply ext_settle. apply ext_settle_lazy.
Qed.

Lemma ext_makeCall p m ps b w : ext w (makeCall p m ps b w).
Proof.
  unfold makeCall. eapply ext_trans; [|apply ext_transmit]. by apply ext_same.
Qed.

Lemma ext_prepare_executor l m ps w : ext w (prepare_executor l m ps w).
Proof.
  unfold prepare_executor. destruct (negb (check.nonEmptyString m));
    [apply ext_settle_lazy|].
  cbv zeta. destruct (negb (batchRequests _)); [|by apply ext_same].
  eapply ext_trans; [|apply ext_transmit]. by apply ext_same.
Qed.

Lemma ext_start l w : ext w (start l w).
Proof.
  unfold start. destruct (lazies w !! l) as [lz|] eqn:Hl; [|apply ext_refl].
  destruct (l_state lz) eqn:Hst; [apply ext_refl|].
  eapply ext_trans; [by apply ext_set_lazy; eauto|].
  destruct (l_exec lz); simpl; [apply ext_prepare_executor|apply ext_refl].
Qed.

Lemma ext_subscribe c i l w : ext w (subscribe c i l w).
Proof.
  unfold subscribe. cbv zeta.
  eapply ext_trans; [apply ext_start|].
  destruct (lazies (start l w) !! l) as [lz|] eqn:Hl; [|apply ext_refl].
  destruct (l_state lz) as [[| |]|] eqn:Hst;
    try apply ext_notify; try apply ext_refl.
  rewrite <- Hst. apply ext_set_lazy; eauto.
Qed.

Lemma ext_await_input c w iv : ext w (await_input c w iv).
Proof.
  unfold await_input. destruct (snd iv); try apply ext_fill.
  apply ext_subscribe.
Qed.

Lemma ext_add_collector col w :
  ext w (set_collectors (collectors w ++ [col]) w).
Proof.
  split; unfold origin_of, promise_state; simpl; eauto 10.
  intros c col' Hc. exists col'. rewrite lookup_app_l; [done|].
  by eapply lookup_lt_Some.
Qed.

Lemma ext_collect p keys inputs w : ext w (collect p keys inputs w).
Proof.
  unfold collect. destruct inputs as [|x inputs]; [apply ext_settle|].
  eapply ext_trans; [apply ext_add_collector|].
  apply ext_fold. intros. apply ext_await_input.
Qed.

Lemma ext_makeCalls p requests w : ext w (makeCalls p requests w).
Proof.
  unfold makeCalls. cbv zeta.
  assert (H : ext w match requests with
                    | VArr l => collect p None l w
                    | VObj o => collect p (Some (map fst o)) (map snd o) w
                    | _ => w
                    end).
  { destruct requests; try apply ext_refl; apply ext_collect. }
  destruct (batchRequests _); [|done].
  eapply ext_trans; [exact H|]. by apply ext_same.
Qed.

Lemma ext_run_reaction r o w : ext w (run_reaction r o w).
Proof.
  destruct r, o; cbn [run_reaction];
    first [apply ext_settle | apply ext_makeCall | apply ext_makeCalls
          | apply ext_reject_target | apply ext_refl].
Qed.

Lemma ext_connect_then k w : ext w (connect_then k w).
Proof.
  unfold connect_then. destruct (_ && _);
    [apply ext_transport_call|apply ext_run_reaction].
Qed.

Lemma ext_call_executor p m ps b w : ext w (call_executor p m ps b w).
Proof.
  unfold call_executor.
  repeat match goal with |- context [if ?b then _ else _] => destruct b end;
    first [apply ext_settle | apply ext_connect_then | apply ext_makeCall].
Qed.

Lemma ext_batch_valid p requests w : ext w (batch_valid p requests w).
Proof.
  unfold batch_valid.
  repeat match goal with |- context [if ?b then _ else _] => destruct b end;
    first [apply ext_settle | apply ext_connect_then | apply ext_makeCalls].
Qed.

Lemma ext_batch_executor p requests w : ext w (batch_executor p requests w).
Proof.
  unfold batch_executor.
  destruct requests as [| | | | |l|o| | |]; try apply ext_settle.
  - destruct l; [apply ext_settle|].
    destruct (negb _); [apply ext_settle|apply ext_batch_valid].
  - destruct o; [apply ext_settle|].
    destruct (negb _); [apply ext_settle|apply ext_batch_valid].
Qed.

Lemma ext_run_effect w e : ext w (run_effect w e).
Proof.
  destruct e; simpl; [apply ext_run_callback|]. by apply ext_same.
Qed.

(** Every event leads to a later state. *)
Lemma ext_exec ev w : ext w (exec ev w).
Proof.
  destruct ev; cbn [exec].
  - rewrite connect_eq. cbn [fst].
    eapply ext_trans; [apply ext_new_promise|].
    destruct (_ && _); [apply ext_transport_call|apply ext_settle].
  - rewrite disconnect_eq. cbn [fst].
    eapply ext_trans; [apply ext_new_promise|].
    destruct (_ && _); [apply ext_transport_call|apply ext_settle].
  - unfold notification. destruct handler; try (by apply ext_same);
      destruct (JRPC.exposed (remote w) !! name);
      first [by apply ext_same | apply ext_refl].
  - rewrite call_eq.
    eapply ext_trans; [apply ext_new_promise|apply ext_call_executor].
  - split; unfold origin_of, promise_state; simpl; eauto 10.
    intros l lz Hl. exists lz. rewrite lookup_app_l; [done|].
    by eapply lookup_lt_Some.
  - apply ext_start.
  - rewrite batch_eq.
    eapply ext_trans; [apply ext_new_promise|apply ext_batch_executor].
  - split; unfold origin_of, promise_state; simpl; eauto 10.
    intros l lz Hl. exists lz. rewrite lookup_app_l; [done|].
    by eapply lookup_lt_Some.
  - destruct (l_exec <$> lazies w !! l) as [[|]|]; try apply ext_refl.
    apply ext_settle_lazy.
  - destruct (awaited w !! e) as [[r|]|]; try apply ext_refl.
    eapply ext_trans; [|apply ext_run_reaction]. by apply ext_same.
  - by apply ext_same.
  - unfold onTransportData.
    destruct (JRPC.receive (normalize data) (remote w)) as [r es].
    eapply ext_trans; [|apply ext_fold; apply ext_run_effect].
    by apply ext_same.
  - destruct (JRPC.complete i (remote w)) as [[next r]|]; [|apply ext_refl].
    eapply ext_trans; [|apply ext_run_callback]. by apply ext_same.
  - destruct (immediates w) as [|[p] rest]; [apply ext_refl|].
    eapply ext_trans; [|apply ext_transmit]. by apply ext_same.
Qed.

Lemma ext_run evs w : ext w (run evs w).
Proof.
  revert w. induction evs as [|ev evs IH]; intros w; [apply ext_refl|].
  change (run (ev :: evs) w) with (run evs (exec ev w)).
  eapply ext_trans; [apply ext_exec|apply IH].
Qed.

(** ** C3: [call] with [rejectOnError: false] *)

(** [makeCall] registers the call under the next correlation id and
    hands one message, with everything unsent, to [transport.send]. *)
Lemma makeCall_eq p m ps b w :
  makeCall p m ps b w
  = transport_call
      (OpSend (JRPC.outbox (remote w)
               ++ [JRPC.Request (S (JRPC.serial (remote w))) (as_string m)
                                (js_or ps (VArr []))]))
      (RCatchReject (TPromise p))
      (set_remote
         (JRPC.Engine (JRPC.remoteTimeout (remote w)) (S (JRPC.serial (remote w)))
            (<[S (JRPC.serial (remote w)) := CbCall p b]> (JRPC.inbox (remote w)))
            [] (JRPC.exposed (remote w)) (JRPC.answered (remote w))) w).
Proof.
  unfold makeCall, transmit, JRPC.transmit, JRPC.call, send. simpl.
  by destruct (JRPC.outbox (remote w)).
Qed.




(** ** C2: [prepare] *)

Lemma transmit_after_call t m ps next w :
  transmit t (set_remote (JRPC.call m ps next (remote w)) w)
  = transport_call
      (OpSend (JRPC.outbox (remote w)
               ++ [JRPC.Request (S (JRPC.serial (remote w))) m ps]))
      (RCatchReject t)
      (set_remote
         (JRPC.Engine (JRPC.remoteTimeout (remote w)) (S (JRPC.serial (remote w)))
            (<[S (JRPC.serial (remote w)) := next]> (JRPC.inbox (remote w)))
            [] (JRPC.exposed (remote w)) (JRPC.answered (remote w))) w).
Proof.
  unfold transmit, JRPC.transmit, JRPC.call, send. simpl.
  by destruct (JRPC.outbox (remote w)).
Qed.

(** The first [then] of a prepared call with a valid method: the call
    is registered, and sent if batching is off. *)
Lemma start_prepared l m ps subs w :
  lazies w !! l = Some (Lazy (ExPrepare m ps) None subs) →
  check.nonEmptyString m = true →
  let i := S (JRPC.serial (remote w)) in
  let req := JRPC.Request i (as_string m) (js_or ps (VArr [])) in
  JRPC.inbox (remote (start l w)) !! i = Some (CbPrepare l)
  ∧ JRPC.serial (remote (start l w)) = i
  ∧ lazy_state (start l w) l = Some Pending
  ∧ if batchRequests w
    then JRPC.outbox (remote (start l w)) = JRPC.outbox (remote w) ++ [req]
         ∧ transport_log (start l w) = transport_log w
         ∧ awaited (start l w) = awaited w
    else JRPC.outbox (remote (start l w)) = []
         ∧ transport_log (start l w)
           = transport_log w ++ [OpSend (JRPC.outbox (remote w) ++ [req])]
         ∧ awaited (start l w) = awaited w ++ [Some (RCatchReject (TLazy l))].
Proof.
  intros Hl Hm. cbv zeta. unfold start. rewrite Hl. cbn [l_state l_exec run_executor].
  unfold prepare_executor. rewrite Hm. cbn [negb].
  set (w' := set_lazies _ w).
  assert (Hst : lazy_state w' l = Some Pending).
  { unfold lazy_state. subst w'. simpl.
    rewrite list_lookup_insert_eq; [done|]. by eapply lookup_lt_Some. }
  change (batchRequests (set_remote _ w')) with (batchRequests w).
  change (remote w) with (remote w').
  destruct (batchRequests w); cbn [negb].
  - simpl. by rewrite lookup_insert_eq.
  - rewrite transmit_after_call. simpl. by rewrite lookup_insert_eq.
Qed.

Lemma remote_subscribe c i l w :
  remote (subscribe c i l w) = remote (start l w)
  ∧ transport_log (subscribe c i l w) = transport_log (start l w)
  ∧ awaited (subscribe c i l w) = awaited (start l w).
Proof.
  unfold subscribe. cbv zeta.
  destruct (lazies (start l w) !! l) as [lz|]; [|done].
  destruct (l_state lz) as [s|]; [|done].
  destruct (notify_frame s (start l w) (c, i)) as (_ & Hr & Ht & Ha & _).
  by destruct s.
Qed.




(** ** C6: the checks of [batch] *)

(** C6, as stated, fails: a [LazyPromise] that [prepare] did not make
    passes the check; the batch awaits it and resolves to what it
    resolves to. *)
Lemma batch_accepts_foreign_lazy_promise :
  l_exec <$> lazies (run [NewLazyPromise] fake_client) !! 0 = Some ExForeign
  ∧ promise_state
      (run [NewLazyPromise; Batch (VArr [VLazy 0]);
            LazySettles 0 (Resolves (VNum 42))] fake_client) 0
    = Some (Fulfilled (VArr [VNum 42])).
Proof. by vm_compute. Qed.

Lemma batch_invalid_eq w requests :
  invalid_requests requests = true →
  fst (batch requests w)
  = set_promises (promises w ++ [Promise (OBatch requests)
      (Rejected (invalid "missing/invalid " "requests" "parameter"))]) w.
Proof.
  intros Hinv. rewrite batch_eq. unfold batch_executor.
  destruct requests as [| | | | |l|o| | |]; try apply settle_new_promise.
  - destruct l as [|x l]; [done|]. unfold invalid_requests in Hinv.
    rewrite Hinv. apply settle_new_promise.
  - destruct o as [|x o]; [done|]. unfold invalid_requests in Hinv.
    rewrite Hinv. apply settle_new_promise.
Qed.

(** C6, amended: when [requests] is neither an array nor an object, or
    when an element or value of it is not a [LazyPromise] instance,
    [batch] returns a promise rejected with the [TypeError] and does
    nothing else: no call on the transport, nothing registered, no lazy
    promise started. Whether a [LazyPromise] comes from [prepare] of this
    session is not checked. *)
Theorem batch_rejects_invalid_requests (w : world) (requests : value) :
  invalid_requests requests = true →
  fst (batch requests w)
  = set_promises
      (promises w
       ++ [Promise (OBatch requests)
                   (Rejected (VErr TypeError
                      ("missing/invalid " +:+ dq +:+ "requests" +:+ dq +:+ " parameter")))])
      w
  ∧ promise_state (fst (batch requests w)) (snd (batch requests w))
    = Some (Rejected (invalid "missing/invalid " "requests" "parameter"))
  ∧ transport_log (fst (batch requests w)) = transport_log w
  ∧ remote (fst (batch requests w)) = remote w
  ∧ lazies (fst (batch requests w)) = lazies w.
Proof.
  intros Hinv. pose proof (batch_invalid_eq w requests Hinv) as Heq.
  split; [exact Heq|]. rewrite Heq. split; [|done].
  change (snd (batch requests w)) with (length (promises w)).
  unfold promise_state. simpl. rewrite lookup_app_r by lia.
  by rewrite Nat.sub_diag.
Qed.

Lemma batch_rejects_invalid_requests_witness :
  promise_state
    (fst (batch (VArr [VLazy 0; VStr "method2"])
            (fst (prepare (VStr "method1") VNull fake_client)))) 0
  = Some (Rejected (invalid "missing/invalid " "requests" "parameter")).
Proof.
  exact (proj1 (proj2 (batch_rejects_invalid_requests
    (fst (prepare (VStr "method1") VNull fake_client))
    (VArr [VLazy 0; VStr "method2"]) eq_refl))).
Defined.

(** ** C7: calls and batches on a session that is not connected *)

Lemma settle_lazy_frame l s w :
  remote (settle_lazy l s w) = remote w
  ∧ transport_log (settle_lazy l s w) = transport_log w
  ∧ awaited (settle_lazy l s w) = awaited w
  ∧ immediates (settle_lazy l s w) = immediates w.
Proof.
  unfold settle_lazy. destruct (lazies w !! l) as [lz|]; [|done].
  destruct (l_state lz) as [[| |]|]; try done.
  destruct (fold_notify_frame s (l_subs lz)
    (set_lazies (<[l:=Lazy (l_exec lz) (Some s) (l_subs lz)]> (lazies w)) w))
    as (_ & -> & -> & -> & -> & _).
  done.
Qed.

Lemma lazies_settle_lazy_ne l l' s w :
  l ≠ l' → lazies (settle_lazy l' s w) !! l = lazies w !! l.
Proof.
  intros Hne. unfold settle_lazy. destruct (lazies w !! l') as [lz|]; [|done].
  destruct (l_state lz) as [[| |]|]; try done.
  destruct (fold_notify_frame s (l_subs lz)
    (set_lazies (<[l':=Lazy (l_exec lz) (Some s) (l_subs lz)]> (lazies w)) w))
    as (-> & _).
  simpl. by rewrite list_lookup_insert_ne.
Qed.

(** What the first [then] of a lazy promise does to the engine. *)
Lemma start_remote l w :
  remote (start l w) = remote w
  ∨ ∃ m ps,
      (batchRequests w = true
       ∧ remote (start l w) = JRPC.call m ps (CbPrepare l) (remote w))
      ∨ (batchRequests w = false
         ∧ remote (start l w)
           = fst (JRPC.transmit (JRPC.call m ps (CbPrepare l) (remote w)))).
Proof.
  unfold start. destruct (lazies w !! l) as [lz|]; [|by left].
  destruct (l_state lz); [by left|].
  destruct (l_exec lz) as [m ps|]; [|by left].
  cbn [run_executor]. unfold prepare_executor.
  destruct (negb (check.nonEmptyString m)).
  { left. by destruct (settle_lazy_frame l
      (Rejected (invalid "missing/invalid " "method" "parameter"))
      (set_lazies (<[l:=Lazy (ExPrepare m ps) (Some Pending) (l_subs lz)]> (lazies w)) w))
      as (-> & _). }
  right. exists (as_string m), (js_or ps (VArr [])). cbv zeta.
  change (batchRequests (set_remote _ _)) with (batchRequests w).
  destruct (batchRequests w); cbn [negb]; [by left|right].
  split; [done|]. rewrite transmit_after_call. simpl.
  unfold JRPC.transmit, JRPC.call. simpl.
  by destruct (JRPC.outbox (remote w)).
Qed.

Lemma lazies_start_ne l l' w :
  l ≠ l' → lazies (start l' w) !! l = lazies w !! l.
Proof.
  intros Hne. unfold start. destruct (lazies w !! l') as [lz|]; [|done].
  destruct (l_state lz); [done|].
  destruct (l_exec lz) as [m ps|]; cbn [run_executor].
  - unfold prepare_executor. destruct (negb (check.nonEmptyString m)).
    + rewrite lazies_settle_lazy_ne by done. simpl.
      by rewrite list_lookup_insert_ne.
    + cbv zeta. destruct (negb (batchRequests _)).
      * rewrite transmit_after_call. simpl. by rewrite list_lookup_insert_ne.
      * simpl. by rewrite list_lookup_insert_ne.
  - simpl. by rewrite list_lookup_insert_ne.
Qed.

Lemma lazies_subscribe_ne c i l l' w :
  l ≠ l' → lazies (subscribe c i l' w) !! l = lazies w !! l.
Proof.
  intros Hne. unfold subscribe. cbv zeta.
  destruct (lazies (start l' w) !! l') as [lz|]; [|by apply lazies_start_ne].
  destruct (l_state lz) as [s|]; [|by apply lazies_start_ne].
  destruct (notify_frame s (start l' w) (c, i)) as (Hl & _).
  destruct s; rewrite ?Hl; simpl; rewrite ?list_lookup_insert_ne by done;
    by apply lazies_start_ne.
Qed.

(** A registration stays through later registrations. *)
Lemma registered_start l l' w : registered l w → registered l (start l' w).
Proof.
  intros (i & Hi & Hin). unfold registered.
  destruct (start_remote l' w) as [->|(m & ps & [[_ ->]|[_ ->]])].
  - by exists i.
  - exists i. simpl. split; [lia|]. rewrite lookup_insert_ne by lia. done.
  - exists i. unfold JRPC.transmit, JRPC.call. simpl.
    destruct (JRPC.outbox (remote w)); simpl;
      (split; [lia|]); by rewrite lookup_insert_ne by lia.
Qed.

Lemma registered_remote l w w' :
  remote w' = remote w → registered l w → registered l w'.
Proof. unfold registered. by intros ->. Qed.

Lemma fill_frame c i v w :
  lazies (fill c i v w) = lazies w ∧ remote (fill c i v w) = remote w
  ∧ transport_log (fill c i v w) = transport_log w
  ∧ awaited (fill c i v w) = awaited w
  ∧ immediates (fill c i v w) = immediates w.
Proof.
  destruct (notify_frame (Fulfilled v) w (c, i)) as (? & ? & ? & ? & ? & _).
  done.
Qed.

Lemma registered_await_input c iv l w :
  registered l w → registered l (await_input c w iv).
Proof.
  intros Hreg. unfold await_input.
  destruct (snd iv) as [| | | | | | | | |l'] eqn:Hiv;
    try (destruct (fill_frame c (fst iv) (snd iv) w) as (_ & Hr & _);
         rewrite Hiv in Hr; by eapply registered_remote).
  destruct (remote_subscribe c (fst iv) l' w) as (Hr & _).
  eapply registered_remote; [exact Hr|]. by apply registered_start.
Qed.

Lemma registered_fold_await_input c ivs l w :
  registered l w → registered l (fold_left (await_input c) ivs w).
Proof.
  revert w. induction ivs as [|iv ivs IH]; intros w Hreg; simpl; [done|].
  by apply IH, registered_await_input.
Qed.

(** One input of the aggregate is awaited: a prepared call with a valid
    method that had not started, or was registered, is registered after
    its own turn and is one or the other after the turn of another. *)
Lemma await_input_registers c iv l m ps w :
  check.nonEmptyString m = true →
  (∃ subs, lazies w !! l = Some (Lazy (ExPrepare m ps) None subs))
  ∨ registered l w →
  ((∃ subs, lazies (await_input c w iv) !! l = Some (Lazy (ExPrepare m ps) None subs))
   ∨ registered l (await_input c w iv))
  ∧ (snd iv = VLazy l → registered l (await_input c w iv)).
Proof.
  intros Hm HJ.
  assert (Hstay : registered l w → registered l (await_input c w iv))
    by apply registered_await_input.
  unfold await_input in *.
  destruct (snd iv) as [| | | | | | | | |l'] eqn:Hiv;
    try (destruct (fill_frame c (fst iv) (snd iv) w) as (Hl & _);
         rewrite Hiv in Hl; split; [|done];
         destruct HJ as [HJ|HJ]; [left; by rewrite Hl|right; by apply Hstay]).
  destruct (decide (l = l')) as [<-|Hne].
  - assert (registered l (subscribe c (fst iv) l w)) as Hreg; [|by auto].
    destruct HJ as [[subs Hl]|HJ]; [|by auto].
    destruct (remote_subscribe c (fst iv) l w) as (Hr & _).
    eapply registered_remote; [exact Hr|].
    destruct (start_prepared l m ps subs w Hl Hm) as (Hi & Hs & _).
    exists (S (JRPC.serial (remote w))). split; [|exact Hi].
    rewrite Hs. lia.
  - split; [|congruence]. destruct HJ as [HJ|HJ]; [left|right; by auto].
    by rewrite lazies_subscribe_ne.
Qed.

Lemma fold_await_input_registers c ivs l m ps w :
  check.nonEmptyString m = true →
  (∃ subs, lazies w !! l = Some (Lazy (ExPrepare m ps) None subs))
  ∨ registered l w →
  (∃ i, (i, VLazy l) ∈ ivs) →
  registered l (fold_left (await_input c) ivs w).
Proof.
  intros Hm. revert w. induction ivs as [|iv ivs IH]; intros w HJ [i Hi]; simpl.
  - by apply elem_of_nil in Hi.
  - destruct (await_input_registers c iv l m ps w Hm HJ) as [HJ1 Hreg1].
    apply elem_of_cons in Hi as [<-|Hi].
    + by apply registered_fold_await_input, Hreg1.
    + apply IH; [done|]. by exists i.
Qed.

(** What awaiting the inputs leaves alone: the queue of immediate jobs;
    with batching on, the transport; with batching off, the fact that
    nothing registered is unsent. *)
Lemma start_frame l w :
  immediates (start l w) = immediates w
  ∧ batchRequests (start l w) = batchRequests w
  ∧ (batchRequests w = true → transport_log (start l w) = transport_log w)
  ∧ (batchRequests w = false → JRPC.outbox (remote w) = [] →
     JRPC.outbox (remote (start l w)) = []).
Proof.
  unfold start. destruct (lazies w !! l) as [lz|]; [|done].
  destruct (l_state lz); [done|].
  destruct (l_exec lz) as [m ps|]; cbn [run_executor]; [|done].
  unfold prepare_executor. destruct (negb (check.nonEmptyString m)).
  { destruct (settle_lazy_frame l
      (Rejected (invalid "missing/invalid " "method" "parameter"))
      (set_lazies (<[l:=Lazy (ExPrepare m ps) (Some Pending) (l_subs lz)]> (lazies w)) w))
      as (Hr & Ht & _ & Hi).
    rewrite Hr, Ht, Hi.
    split; [done|]. split; [|done].
    etrans; [by apply (keeps_settle_lazy batchRequests)|done]. }
  cbv zeta. change (batchRequests (set_remote _ _)) with (batchRequests w).
  destruct (batchRequests w) eqn:Hb; cbn [negb].
  - repeat split; simpl; congruence.
  - rewrite transmit_after_call. repeat split; simpl; congruence.
Qed.

Lemma await_input_frame c iv w :
  immediates (await_input c w iv) = immediates w
  ∧ batchRequests (await_input c w iv) = batchRequests w
  ∧ (batchRequests w = true → transport_log (await_input c w iv) = transport_log w)
  ∧ (batchRequests w = false → JRPC.outbox (remote w) = [] →
     JRPC.outbox (remote (await_input c w iv)) = []).
Proof.
  assert (Hb : batchRequests (await_input c w iv) = batchRequests w)
    by (apply (keeps_await_input batchRequests); done).
  unfold await_input in *.
  destruct (snd iv) as [| | | | | | | | |l] eqn:Hiv;
    try (destruct (fill_frame c (fst iv) (snd iv) w) as (_ & Hr & Ht & _ & Hi);
         rewrite Hiv in Hr, Ht, Hi; by rewrite Hr, Ht, Hi).
  destruct (remote_subscribe c (fst iv) l w) as (Hr & Ht & _).
  destruct (start_frame l w) as (Hi & _ & Ht' & Ho).
  rewrite Hr, Ht. split; [|done].
  unfold subscribe. cbv zeta.
  destruct (lazies (start l w) !! l) as [lz|]; [|done].
  destruct (l_state lz) as [s|]; [|done].
  destruct (notify_frame s (start l w) (c, fst iv)) as (_ & _ & _ & _ & Hi' & _).
  by destruct s; rewrite ?Hi'.
Qed.

Lemma fold_await_input_frame c ivs w :
  immediates (fold_left (await_input c) ivs w) = immediates w
  ∧ batchRequests (fold_left (await_input c) ivs w) = batchRequests w
  ∧ (batchRequests w = true →
     transport_log (fold_left (await_input c) ivs w) = transport_log w)
  ∧ (batchRequests w = false → JRPC.outbox (remote w) = [] →
     JRPC.outbox (remote (fold_left (await_input c) ivs w)) = []).
Proof.
  revert w. induction ivs as [|iv ivs IH]; intros w; simpl; [done|].
  destruct (await_input_frame c iv w) as (Hi & Hb & Ht & Ho).
  destruct (IH (await_input c w iv)) as (Hi' & Hb' & Ht' & Ho').
  rewrite Hi', Hb', Hi, Hb. split; [done|]. split; [done|]. split.
  - intros H. rewrite Ht' by congruence. by apply Ht.
  - intros H1 H2. apply Ho'; [congruence|by apply Ho].
Qed.

Lemma outbox_transmit t w : JRPC.outbox (remote (transmit t w)) = [].
Proof.
  unfold transmit, JRPC.transmit.
  by destruct (JRPC.outbox (remote w)) eqn:Ho.
Qed.

(** [makeCalls] on a valid batch: every prepared call among the inputs
    that had not started is registered; with batching on the flush is
    queued and nothing is sent yet, with batching off nothing stays
    unsent. *)
Lemma makeCalls_registers p requests w :
  valid_requests requests = true →
  (∀ i l m ps subs,
     inputs_of requests !! i = Some (VLazy l) →
     lazies w !! l = Some (Lazy (ExPrepare m ps) None subs) →
     check.nonEmptyString m = true →
     registered l (makeCalls p requests w))
  ∧ if batchRequests w
    then immediates (makeCalls p requests w) = immediates w ++ [JTransmit p]
         ∧ transport_log (makeCalls p requests w) = transport_log w
    else JRPC.outbox (remote w) = [] →
         JRPC.outbox (remote (makeCalls p requests w)) = [].
Proof.
  intros Hv.
  assert (Hc : ∃ x inputs,
    inputs_of requests = x :: inputs
    ∧ makeCalls p requests w
      = let w1 := fold_left (await_input (length (collectors w)))
                    (imap pair (x :: inputs))
                    (set_collectors
                       (collectors w
                        ++ [Collector p (keys_of requests) (x :: inputs)
                              (replicate (length (x :: inputs)) None)]) w) in
        if batchRequests w1
        then set_immediates (immediates w1 ++ [JTransmit p]) w1 else w1).
  { destruct requests as [| | | | |[|x l]|[|x o]| | |]; try done.
    - by exists x, l.
    - by exists (snd x), (map snd o). }
  destruct Hc as (x & inputs & Hin & ->). rewrite Hin. cbv zeta.
  set (w0 := set_collectors _ w).
  destruct (fold_await_input_frame (length (collectors w))
              (imap pair (x :: inputs)) w0) as (Hi & Hb & Ht & Ho).
  rewrite Hb. change (batchRequests w0) with (batchRequests w) in *.
  split.
  - intros i l m ps subs Hl Hlz Hm.
    eapply registered_remote;
      [|apply (fold_await_input_registers (length (collectors w))
                 (imap pair (x :: inputs)) l m ps w0 Hm);
        [left; by exists subs|]].
    + by destruct (batchRequests w).
    + exists i. apply list_elem_of_lookup. exists i.
      rewrite list_lookup_imap, Hl. done.
  - destruct (batchRequests w).
    + cbn [immediates transport_log set_immediates]. rewrite Hi.
      split; [done|]. by apply Ht.
    + intros Hout. by apply Ho.
Qed.







Example automatic_connection :
  let w := run [Call (VStr "base64") (VArr [VStr "params"]) true;
                TransportIs true; TransportSettles 0 (Resolves VUndefined);
                TransportSettles 1 (Resolves VUndefined);
                TransportData (result_message 1 (VStr "WyJwYXJhbXMiXQ=="))]
               (connected_client true) in
  promise_state w 0 = Some (Fulfilled (VStr "WyJwYXJhbXMiXQ=="))
  ∧ isConnected w = true
  ∧ transport_log w
    = [OpConnect; OpSend [JRPC.Request 1 "base64" (VArr [VStr "params"])]].
Proof. by vm_compute. Qed.

(** ** The invariant is kept *)

Lemma value_of_ext w w' x v : ext w w' → value_of w x v → value_of w' x v.
Proof.
  intros Hext. destruct x; simpl; try done.
  unfold lazy_state. destruct (lazies w !! l) as [lz|] eqn:Hl; simpl; [|done].
  intros Hs. destruct (ext_lazy _ _ Hext l lz Hl) as (lz' & -> & _ & Hst).
  simpl. by apply Hst.
Qed.

Lemma good_result_ext w w' requests v :
  ext w w' → good_result w requests v → good_result w' requests v.
Proof.
  intros Hext (vs & -> & Hvs). exists vs. split; [done|].
  eapply Forall2_impl; [exact Hvs|]. intros x y. by apply value_of_ext.
Qed.

Lemma reaction_ok_ext w w' r : ext w w' → reaction_ok w r → reaction_ok w' r.
Proof. intros Hext. destruct r; simpl; try done; apply (ext_origin _ _ Hext). Qed.

(** Changes that leave the promises, the lazy promises and the
    collectors alone. *)
Lemma inv_update w w' :
  inv w →
  promises w' = promises w → lazies w' = lazies w →
  collectors w' = collectors w →
  (∀ i p b, JRPC.inbox (remote w') !! i = Some (CbCall p b) →
            origin_of w p = Some (OCall b)) →
  (∀ e r, awaited w' !! e = Some (Some r) → reaction_ok w r) →
  inv w'.
Proof.
  intros [Hb Hc Hs Hi Ha Hp] Hpr Hl Hco Hin Haw.
  assert (Hext : ext w w') by by apply ext_same.
  split.
  - intros p requests v. rewrite Hpr. intros H.
    eapply good_result_ext; [exact Hext|]. by eapply Hb.
  - intros c col. rewrite Hco. intros H. destruct (Hc c col H) as (Ho & Hlen & Hv).
    split; [|split; [done|]].
    + destruct Ho as (requests & Ho & ? & ?). exists requests.
      split; [|done]. by apply (ext_origin _ _ Hext).
    + intros i v Hiv. destruct (Hv i v Hiv) as (x & Hx & Hval).
      exists x. split; [done|]. by eapply value_of_ext.
  - intros l lz c i. rewrite Hl, Hco. apply Hs.
  - intros i p b H. apply (ext_origin _ _ Hext). by eapply Hin.
  - intros e r H. eapply reaction_ok_ext; [exact Hext|]. by eapply Haw.
  - intros l lz v. rewrite Hl. apply Hp.
Qed.

Lemma origin_of_lt w p o : origin_of w p = Some o → p < length (promises w).
Proof.
  unfold origin_of. intros H. apply fmap_Some in H as (pr & H & _).
  by eapply lookup_lt_Some.
Qed.

Lemma inv_new_promise o w : inv w → inv (fst (new_promise o w)).
Proof.
  intros Hinv. pose proof (ext_new_promise o w) as Hext.
  destruct Hinv as [Hb Hc Hs Hi Ha Hp]. split.
  - intros p requests v. simpl. intros H.
    apply lookup_app_Some in H as [H|[_ H]].
    + eapply good_result_ext; [exact Hext|]. by eapply Hb.
    + by destruct (p - length (promises w)) as [|[|]].
  - intros c col H. destruct (Hc c col H) as (Ho & Hlen & Hv).
    split; [|split; [done|]].
    + destruct Ho as (requests & Ho & ? & ?). exists requests.
      split; [|done]. by apply (ext_origin _ _ Hext).
    + intros i v Hiv. destruct (Hv i v Hiv) as (x & Hx & Hval).
      exists x. split; [done|]. by eapply value_of_ext.
  - apply Hs.
  - intros i p b H. apply (ext_origin _ _ Hext). by eapply Hi.
  - intros e r H. eapply reaction_ok_ext; [exact Hext|]. by eapply Ha.
  - apply Hp.
Qed.

(** A promise is settled: if it is the promise of a batch and is
    fulfilled, the value must be a good result. *)
Lemma inv_settle p s w :
  inv w →
  (∀ requests v, origin_of w p = Some (OBatch requests) → s = Fulfilled v →
                 good_result w requests v) →
  inv (settle p s w).
Proof.
  intros Hinv Hok. pose proof (ext_settle p s w) as Hext.
  destruct Hinv as [Hb Hc Hs Hi Ha Hp]. split.
  - intros q requests v. simpl. intros H.
    eapply good_result_ext; [exact Hext|].
    destruct (decide (p = q)) as [->|Hne].
    + rewrite list_lookup_alter_eq in H.
      destruct (promises w !! q) as [[o st]|] eqn:Hq; simpl in H; [|done].
      unfold settle_promise in H. simpl in H. destruct st.
      * injection H as -> ->. apply Hok; [|done]. unfold origin_of. by rewrite Hq.
      * injection H as -> ->. by eapply Hb.
      * done.
    + rewrite list_lookup_alter_ne in H by done. by eapply Hb.
  - intros c col H. destruct (Hc c col H) as (Ho & Hlen & Hv).
    split; [|split; [done|]].
    + destruct Ho as (requests & Ho & ? & ?). exists requests.
      split; [|done]. by apply (ext_origin _ _ Hext).
    + intros i v Hiv. destruct (Hv i v Hiv) as (x & Hx & Hval).
      exists x. split; [done|]. by eapply value_of_ext.
  - apply Hs.
  - intros i q b H. apply (ext_origin _ _ Hext). by eapply Hi.
  - intros e r H. eapply reaction_ok_ext; [exact Hext|]. by eapply Ha.
  - apply Hp.
Qed.

Lemma inv_reject p e w : inv w → inv (reject p e w).
Proof. intros Hinv. by apply inv_settle. Qed.

Lemma filled_Some slots vs :
  filled slots = Some vs →
  length vs = length slots ∧ ∀ i v, vs !! i = Some v → slots !! i = Some (Some v).
Proof.
  revert vs. induction slots as [|[x|] slots IH]; intros vs; simpl; [|..|done].
  - intros [= <-]. split; [done|]. intros i v H. by rewrite lookup_nil in H.
  - destruct (filled slots) as [vs'|]; simpl; [|done]. intros [= <-].
    destruct (IH vs' eq_refl) as [Hlen Hl]. split; [simpl; lia|].
    intros [|i] v H; simpl in *; [congruence|by apply Hl].
Qed.

(** Slot [i] of collector [c] is filled with the value of its input. *)
Lemma inv_fill c i v w :
  inv w →
  (∀ col x, collectors w !! c = Some col → c_inputs col !! i = Some x →
            value_of w x v) →
  inv (fill c i v w).
Proof.
  intros Hinv Hval. unfold fill.
  destruct (collectors w !! c) as [col|] eqn:Hcol; [|done]. cbv zeta.
  set (col' := Collector (c_target col) (c_keys col) (c_inputs col)
                         (<[i:=Some v]> (c_slots col))).
  set (w1 := set_collectors (<[c:=col']> (collectors w)) w).
  destruct (inv_collector _ Hinv c col Hcol) as ((requests & Ho & Hk & Hin) & Hlen & Hslots).
  assert (Hcol' : ∀ j v', c_slots col' !! j = Some (Some v') →
            ∃ x, c_inputs col' !! j = Some x ∧ value_of w1 x v').
  { intros j v' Hj. simpl in *. destruct (decide (i = j)) as [<-|Hne].
    - assert (Hlt : i < length (c_slots col)).
      { apply lookup_lt_Some in Hj. by rewrite length_insert in Hj. }
      rewrite list_lookup_insert_eq in Hj by done. injection Hj as <-.
      destruct (lookup_lt_is_Some_2 (c_inputs col) i) as [x Hx]; [lia|].
      exists x. split; [done|]. by apply (Hval col x).
    - rewrite list_lookup_insert_ne in Hj by done. by apply Hslots. }
  assert (Hinv1 : inv w1).
  { destruct Hinv as [Hb Hc Hs Hi Ha Hp]. split; try done.
    - intros c' col0. simpl. intros H.
      destruct (decide (c = c')) as [<-|Hne].
      + rewrite list_lookup_insert_eq in H by (by eapply lookup_lt_Some).
        injection H as <-. split; [by exists requests|].
        split; [simpl; by rewrite length_insert|done].
      + rewrite list_lookup_insert_ne in H by done. exact (Hc c' col0 H).
    - intros l lz c' j Hl Hsub. simpl.
      destruct (Hs l lz c' j Hl Hsub) as (col0 & Hc0 & Hj).
      destruct (decide (c = c')) as [<-|Hne].
      + rewrite list_lookup_insert_eq by (by eapply lookup_lt_Some).
        exists col'. split; [done|]. simpl. congruence.
      + rewrite list_lookup_insert_ne by done. by exists col0. }
  destruct (filled (<[i:=Some v]> (c_slots col))) as [vs|] eqn:Hf; [|done].
  apply inv_settle; [done|].
  intros requests' v' Ho' [= <-].
  change (origin_of w1 (c_target col)) with (origin_of w (c_target col)) in Ho'.
  assert (requests' = requests) as -> by congruence.
  exists vs. rewrite Hk. split; [done|]. rewrite Hin.
  destruct (filled_Some _ _ Hf) as [Hlenvs Hvs].
  rewrite length_insert in Hlenvs.
  apply Forall2_same_length_lookup. split; [lia|].
  intros j x y Hx Hy. apply Hvs in Hy.
  destruct (Hcol' j y Hy) as (x' & Hx' & Hv'). simpl in Hx'. congruence.
Qed.

Lemma inv_abort c e w : inv w → inv (abort c e w).
Proof.
  intros Hinv. unfold abort. destruct (collectors w !! c); [|done].
  by apply inv_reject.
Qed.

(** The entry of a lazy promise that is not settled is replaced. *)
Lemma inv_set_lazy l lz st subs w :
  inv w →
  lazies w !! l = Some lz →
  (l_state lz = None ∨ l_state lz = Some Pending) →
  (∀ v, st = Some (Fulfilled v) → l_exec lz ≠ ExForeign → is_response v) →
  (∀ c i, (c, i) ∈ subs →
     ∃ col, collectors w !! c = Some col ∧ c_inputs col !! i = Some (VLazy l)) →
  inv (set_lazies (<[l:=Lazy (l_exec lz) st subs]> (lazies w)) w).
Proof.
  intros Hinv Hl Hst Hresp Hsubs.
  pose proof (ext_set_lazy l lz st subs w Hl Hst) as Hext.
  destruct Hinv as [Hb Hc Hs Hi Ha Hp]. split.
  - intros p requests v H. eapply good_result_ext; [exact Hext|]. by eapply Hb.
  - intros c col H. destruct (Hc c col H) as (Ho & Hlen & Hv).
    split; [done|]. split; [done|].
    intros i v Hiv. destruct (Hv i v Hiv) as (x & Hx & Hval).
    exists x. split; [done|]. by eapply value_of_ext.
  - intros l' lz' c i. simpl. intros H Hin.
    destruct (decide (l = l')) as [<-|Hne].
    + rewrite list_lookup_insert_eq in H by (by eapply lookup_lt_Some).
      injection H as <-. by apply Hsubs.
    + rewrite list_lookup_insert_ne in H by done. by eapply Hs.
  - done.
  - done.
  - intros l' lz' v. simpl. intros H Hex Hv.
    destruct (decide (l = l')) as [<-|Hne].
    + rewrite list_lookup_insert_eq in H by (by eapply lookup_lt_Some).
      injection H as <-. simpl in *. by eapply Hresp.
    + rewrite list_lookup_insert_ne in H by done. by eapply Hp.
Qed.

(** Those who wait for the lazy promise [l] are told how it settled. *)
Lemma inv_fold_notify s l subs w :
  inv w →
  (∀ v, s = Fulfilled v → lazy_state w l = Some (Fulfilled v)) →
  (∀ c i, (c, i) ∈ subs →
     ∃ col, collectors w !! c = Some col ∧ c_inputs col !! i = Some (VLazy l)) →
  inv (fold_left (notify s) subs w).
Proof.
  revert w. induction subs as [|[c i] subs IH]; intros w Hinv Hs Hsubs; [done|].
  simpl. apply IH.
  - destruct s as [|v|e]; simpl; [done| |by apply inv_abort].
    apply inv_fill; [done|]. intros col x Hcol Hx.
    destruct (Hsubs c i) as (col0 & Hcol0 & Hi); [by left|].
    assert (x = VLazy l) as -> by congruence. simpl. by apply Hs.
  - intros v Hv. destruct (notify_frame s w (c, i)) as (Hl & _).
    unfold lazy_state. rewrite Hl. by apply Hs.
  - intros c' i' Hin.
    destruct (Hsubs c' i') as (col0 & Hcol0 & Hi); [by right|].
    destruct (ext_collector _ _ (ext_notify s w (c, i)) c' col0 Hcol0)
      as (col1 & Hcol1 & _ & _ & Hin1 & _).
    exists col1. split; [done|]. by rewrite Hin1.
Qed.

Lemma inv_settle_lazy l s w :
  inv w →
  (∀ lz v, lazies w !! l = Some lz → l_exec lz ≠ ExForeign →
           s = Fulfilled v → is_response v) →
  inv (settle_lazy l s w).
Proof.
  intros Hinv Hresp. unfold settle_lazy.
  destruct (lazies w !! l) as [lz|] eqn:Hl; [|done].
  destruct (l_state lz) as [[| |]|] eqn:Hst; try done.
  apply (inv_fold_notify s l).
  - apply inv_set_lazy; try done; [by right| |].
    + intros v [= ->] Hex. by eapply Hresp.
    + intros c i Hin. by eapply (inv_subs _ Hinv).
  - intros v ->. unfold lazy_state. simpl.
    rewrite list_lookup_insert_eq by (by eapply lookup_lt_Some). done.
  - intros c i Hin. by eapply (inv_subs _ Hinv l lz).
Qed.

Lemma inv_reject_target t e w : inv w → inv (reject_target t e w).
Proof.
  intros Hinv. destruct t; [by apply inv_reject|].
  by apply inv_settle_lazy.
Qed.

(** A registration, a transmission and a call on the transport. *)
Lemma inv_remote_call m ps next w :
  inv w →
  (∀ p b, next = CbCall p b → origin_of w p = Some (OCall b)) →
  inv (set_remote (JRPC.call m ps next (remote w)) w).
Proof.
  intros Hinv Hnext. apply (inv_update w); try done.
  - intros i p b. simpl. intros H. apply lookup_insert_Some in H as [[_ H]|[_ H]].
    + by apply Hnext.
    + by eapply (inv_inbox _ Hinv).
  - apply (inv_awaited _ Hinv).
Qed.

Lemma inv_transport_call op r w :
  inv w → reaction_ok w r → inv (transport_call op r w).
Proof.
  intros Hinv Hr. apply (inv_update w); try done.
  - apply (inv_inbox _ Hinv).
  - intros e r'. simpl. intros H. apply lookup_app_Some in H as [H|[_ H]].
    + by eapply (inv_awaited _ Hinv).
    + destruct (e - length (awaited w)) as [|[|]]; simpl in H; try done.
      by injection H as <-.
Qed.

Lemma inv_transmit t w : inv w → inv (transmit t w).
Proof.
  intros Hinv. unfold transmit, JRPC.transmit.
  destruct (JRPC.outbox (remote w)) eqn:Ho.
  - apply (inv_update w); try done;
      [apply (inv_inbox _ Hinv)|apply (inv_awaited _ Hinv)].
  - unfold send. apply inv_transport_call; [|done].
    apply (inv_update w); try done;
      [apply (inv_inbox _ Hinv)|apply (inv_awaited _ Hinv)].
Qed.

Lemma inv_makeCall p m ps b w :
  inv w → origin_of w p = Some (OCall b) → inv (makeCall p m ps b w).
Proof.
  intros Hinv Ho. unfold makeCall. apply inv_transmit, inv_remote_call; [done|].
  by intros p' b' [= <- <-].
Qed.

Lemma inv_run_callback next err result w :
  inv w →
  (∀ p b, next = CbCall p b → origin_of w p = Some (OCall b)) →
  inv (run_callback next err result w).
Proof.
  intros Hinv Hnext. destruct next as [p b|l]; simpl.
  - assert (Hs : ∀ s, inv (settle p s w)).
    { intros s. apply inv_settle; [done|]. intros requests v Ho.
      rewrite (Hnext p b eq_refl) in Ho. done. }
    destruct b; [destruct (truthy err)|]; apply Hs.
  - apply inv_settle_lazy; [done|]. intros lz v _ _ [= <-].
    by exists err, result.
Qed.

Lemma inv_start l w : inv w → inv (start l w).
Proof.
  intros Hinv. unfold start.
  destruct (lazies w !! l) as [lz|] eqn:Hl; [|done].
  destruct (l_state lz) eqn:Hst; [done|].
  assert (Hinv1 : inv (set_lazies
            (<[l:=Lazy (l_exec lz) (Some Pending) (l_subs lz)]> (lazies w)) w)).
  { apply inv_set_lazy; try done; [by left|]. intros c i Hin.
    by eapply (inv_subs _ Hinv l lz). }
  destruct (l_exec lz) as [m ps|]; cbn [run_executor]; [|done].
  unfold prepare_executor. destruct (negb (check.nonEmptyString m)).
  - by apply inv_settle_lazy.
  - cbv zeta.
    assert (inv (set_remote
      (JRPC.call (as_string m) (js_or ps (VArr [])) (CbPrepare l)
         (remote (set_lazies (<[l:=Lazy (ExPrepare m ps) (Some Pending) (l_subs lz)]>
                                (lazies w)) w)))
      (set_lazies (<[l:=Lazy (ExPrepare m ps) (Some Pending) (l_subs lz)]>
                     (lazies w)) w))) as Hinv2
      by by apply inv_remote_call.
    destruct (negb (batchRequests _)); [by apply inv_transmit|done].
Qed.

Lemma inv_subscribe c i l w :
  inv w →
  (∃ col, collectors w !! c = Some col ∧ c_inputs col !! i = Some (VLazy l)) →
  inv (subscribe c i l w).
Proof.
  intros Hinv (col & Hcol & Hi). unfold subscribe. cbv zeta.
  pose proof (inv_start l w Hinv) as Hinv1.
  destruct (ext_collector _ _ (ext_start l w) c col Hcol)
    as (col1 & Hcol1 & _ & _ & Hin1 & _).
  rewrite <- Hin1 in Hi.
  destruct (lazies (start l w) !! l) as [lz|] eqn:Hl; [|done].
  destruct (l_state lz) as [[|v|e]|] eqn:Hst; [| | |done].
  - rewrite <- Hst. apply inv_set_lazy; try done; [by right| |].
    + intros v Hv. congruence.
    + intros c' i' Hin. apply elem_of_app in Hin as [Hin|Hin].
      * by eapply (inv_subs _ Hinv1 l lz).
      * apply list_elem_of_singleton in Hin. injection Hin as -> ->.
        by exists col1.
  - simpl. apply inv_fill; [done|]. intros col' x Hcol' Hx.
    assert (x = VLazy l) as -> by congruence.
    simpl. unfold lazy_state. by rewrite Hl.
  - simpl. by apply inv_abort.
Qed.

Lemma inv_await_input c w iv :
  inv w →
  (∃ col, collectors w !! c = Some col ∧ c_inputs col !! fst iv = Some (snd iv)) →
  inv (await_input c w iv).
Proof.
  intros Hinv (col & Hcol & Hi). unfold await_input.
  destruct (snd iv) as [| | | | | | | | |l] eqn:Hiv;
    try (apply inv_fill; [done|]; intros col' x Hcol' Hx;
         assert (x = snd iv) as -> by congruence; by rewrite Hiv).
  apply inv_subscribe; [done|]. by exists col.
Qed.

Lemma inv_fold_await_input c ivs w :
  inv w →
  (∀ iv, iv ∈ ivs →
     ∃ col, collectors w !! c = Some col ∧ c_inputs col !! fst iv = Some (snd iv)) →
  inv (fold_left (await_input c) ivs w).
Proof.
  revert w. induction ivs as [|iv ivs IH]; intros w Hinv Hivs; [done|].
  simpl. apply IH.
  - apply inv_await_input; [done|]. apply Hivs. by left.
  - intros iv' Hin. destruct (Hivs iv') as (col & Hcol & Hi); [by right|].
    destruct (ext_collector _ _ (ext_await_input c w iv) c col Hcol)
      as (col1 & Hcol1 & _ & _ & Hin1 & _).
    exists col1. split; [done|]. by rewrite Hin1.
Qed.

Lemma inv_collect p requests w :
  inv w →
  origin_of w p = Some (OBatch requests) →
  inv (collect p (keys_of requests) (inputs_of requests) w).
Proof.
  intros Hinv Ho. unfold collect.
  destruct (inputs_of requests) as [|x inputs] eqn:Hin.
  - apply inv_settle; [done|]. intros requests' v Ho' [= <-].
    assert (requests' = requests) as -> by congruence.
    exists []. rewrite Hin. by split.
  - set (col := Collector p (keys_of requests) (x :: inputs)
                          (replicate (length (x :: inputs)) None)).
    assert (Hinv0 : inv (set_collectors (collectors w ++ [col]) w)).
    { pose proof (ext_add_collector col w) as Hext.
      destruct Hinv as [Hb Hc Hs Hi Ha Hp]. split; try done.
      - intros c col0. simpl. intros H.
        apply lookup_app_Some in H as [H|[_ H]]; [exact (Hc c col0 H)|].
        destruct (c - length (collectors w)) as [|[|]]; simpl in H; try done.
        injection H as <-. split; [by exists requests|].
        split; [simpl; by rewrite length_replicate|].
        intros i v Hiv. unfold col in Hiv. cbn [c_slots] in Hiv.
        apply lookup_replicate in Hiv as [Hiv _]. done.
      - intros l lz c i Hl Hsub. simpl.
        destruct (Hs l lz c i Hl Hsub) as (col0 & Hc0 & Hj).
        exists col0. split; [|done]. by apply lookup_app_l_Some. }
    apply inv_fold_await_input; [done|].
    intros [i y] Hiv. apply list_elem_of_lookup in Hiv as [j Hj].
    rewrite list_lookup_imap in Hj.
    destruct ((x :: inputs) !! j) as [z|] eqn:Hz; simpl in Hj; [|done].
    injection Hj as <- <-.
    exists col. simpl. split; [|done].
    rewrite lookup_app_r by lia. by rewrite Nat.sub_diag.
Qed.

Lemma inv_makeCalls p requests w :
  inv w → origin_of w p = Some (OBatch requests) → inv (makeCalls p requests w).
Proof.
  intros Hinv Ho. unfold makeCalls. cbv zeta.
  assert (H : inv match requests with
                  | VArr l => collect p None l w
                  | VObj o => collect p (Some (map fst o)) (map snd o) w
                  | _ => w
                  end).
  { destruct requests as [| | | | |l|o| | |]; try done.
    - exact (inv_collect p (VArr l) w Hinv Ho).
    - exact (inv_collect p (VObj o) w Hinv Ho). }
  destruct (batchRequests _); [|done].
  apply (inv_update _ _ H); try done;
    [apply (inv_inbox _ H)|apply (inv_awaited _ H)].
Qed.

Lemma inv_run_reaction r o w :
  inv w → reaction_ok w r → inv (run_reaction r o w).
Proof.
  intros Hinv Hr. destruct r as [p|p m ps b|p requests|t]; simpl in Hr.
  - cbn [run_reaction]. apply inv_settle; [done|]. intros requests v Ho.
    congruence.
  - destruct o; cbn [run_reaction]; [by apply inv_makeCall|by apply inv_reject].
  - destruct o; cbn [run_reaction]; [by apply inv_makeCalls|by apply inv_reject].
  - destruct o; cbn [run_reaction]; [done|by apply inv_reject_target].
Qed.

Lemma inv_connect_then k w : inv w → reaction_ok w k → inv (connect_then k w).
Proof.
  intros Hinv Hk. unfold connect_then.
  destruct (_ && _); [by apply inv_transport_call|by apply inv_run_reaction].
Qed.

Lemma inv_call_executor p m ps b w :
  inv w → origin_of w p = Some (OCall b) → inv (call_executor p m ps b w).
Proof.
  intros Hinv Ho. unfold call_executor.
  repeat match goal with |- context [if ?b then _ else _] => destruct b end;
    first [by apply inv_reject | by apply inv_connect_then | by apply inv_makeCall].
Qed.

Lemma inv_batch_executor p requests w :
  inv w → origin_of w p = Some (OBatch requests) →
  inv (batch_executor p requests w).
Proof.
  intros Hinv Ho.
  assert (Hv : inv (batch_valid p requests w)).
  { unfold batch_valid.
    repeat match goal with |- context [if ?b then _ else _] => destruct b end;
      first [by apply inv_reject | by apply inv_connect_then
            | by apply inv_makeCalls]. }
  assert (He : ∀ v, good_result w requests v → inv (resolve p v w)).
  { intros v Hg. apply inv_settle; [done|]. intros requests' v' Ho' [= <-].
    by assert (requests' = requests) as -> by congruence. }
  unfold batch_executor.
  destruct requests as [| | | | |l|o| | |]; try by apply inv_reject.
  - destruct l; [apply He; by exists []|].
    destruct (negb _); [by apply inv_reject|done].
  - destruct o; [apply He; by exists []|].
    destruct (negb _); [by apply inv_reject|done].
Qed.

Lemma origin_of_new_promise o w :
  origin_of (fst (new_promise o w)) (length (promises w)) = Some o.
Proof.
  unfold origin_of. simpl. rewrite lookup_app_r by lia.
  by rewrite Nat.sub_diag.
Qed.

Lemma inv_run_effect w e : inv w →
  (∀ next err result p b, e = JRPC.Deliver next err result → next = CbCall p b →
     origin_of w p = Some (OCall b)) →
  inv (run_effect w e).
Proof.
  intros Hinv He. destruct e as [next err result|h name ps i]; simpl.
  - apply inv_run_callback; [done|]. intros p b ->. by eapply He.
  - apply (inv_update w); try done.
    + intros j p b. destruct i; simpl; apply (inv_inbox _ Hinv).
    + apply (inv_awaited _ Hinv).
Qed.

Lemma inv_add_lazy x w :
  inv w → inv (set_lazies (lazies w ++ [Lazy x None []]) w).
Proof.
  intros Hinv.
  assert (Hext : ext w (set_lazies (lazies w ++ [Lazy x None []]) w)).
  { split; unfold origin_of, promise_state; simpl; eauto 10.
    intros l lz Hl. exists lz. rewrite lookup_app_l; [done|].
    by eapply lookup_lt_Some. }
  destruct Hinv as [Hb Hc Hs Hi Ha Hp]. split; try done.
  - intros p requests v H. eapply good_result_ext; [exact Hext|]. by eapply Hb.
  - intros c col H. destruct (Hc c col H) as (Ho & Hlen & Hv).
    split; [done|]. split; [done|].
    intros i v Hiv. destruct (Hv i v Hiv) as (y & Hy & Hval).
    exists y. split; [done|]. by eapply value_of_ext.
  - intros l lz c i. simpl. intros H Hin.
    apply lookup_app_Some in H as [H|[_ H]]; [by eapply Hs|].
    destruct (l - length (lazies w)) as [|[|]]; simpl in H; try done.
    injection H as <-. by apply elem_of_nil in Hin.
  - intros l lz v. simpl. intros H Hex Hst.
    apply lookup_app_Some in H as [H|[_ H]]; [by eapply Hp|].
    destruct (l - length (lazies w)) as [|[|]]; simpl in H; try done.
    by injection H as <-.
Qed.

(** [receive] only takes callbacks out of the inbox. *)
Lemma receive_one_inbox msg r :
  (∀ i cb, JRPC.inbox (fst (JRPC.receive_one msg r)) !! i = Some cb →
           JRPC.inbox r !! i = Some cb)
  ∧ (∀ next err result,
       JRPC.Deliver next err result ∈ snd (JRPC.receive_one msg r) →
       ∃ i, JRPC.inbox r !! i = Some next).
Proof.
  assert (Hnone :
    (∀ i cb, JRPC.inbox (fst (r, @nil JRPC.effect)) !! i = Some cb →
             JRPC.inbox r !! i = Some cb)
    ∧ (∀ next err result,
         JRPC.Deliver next err result ∈ snd (r, @nil JRPC.effect) →
         ∃ i, JRPC.inbox r !! i = Some next)).
  { split; [done|]. intros next err result H. by apply elem_of_nil in H. }
  unfold JRPC.receive_one.
  destruct msg as [| | | | | |o| | |]; try exact Hnone.
  assert (Hdeliver :
    (∀ i cb, JRPC.inbox (fst (JRPC.deliverResponse o r)) !! i = Some cb →
             JRPC.inbox r !! i = Some cb)
    ∧ (∀ next err result,
         JRPC.Deliver next err result ∈ snd (JRPC.deliverResponse o r) →
         ∃ i, JRPC.inbox r !! i = Some next)).
  { unfold JRPC.deliverResponse.
    destruct (get_prop o "id") as [| | |[|k|k]| | | | | |]; try exact Hnone.
    unfold JRPC.complete.
    destruct (JRPC.inbox r !! Pos.to_nat k) as [next|] eqn:Hk; [|exact Hnone].
    destruct (hasOwnProperty o "error"); simpl; split;
      try (intros i cb H; apply lookup_delete_Some in H as [_ H]; done);
      intros next' err result Hin; apply list_elem_of_singleton in Hin;
      injection Hin as -> _ _; by exists (Pos.to_nat k). }
  destruct (get_prop o "method") as [| | | |name| | | | |]; try exact Hdeliver.
  destruct (JRPC.exposed r !! name); [|exact Hnone].
  split; [done|].
  intros next err result Hin. by apply list_elem_of_singleton in Hin.
Qed.

Lemma receive_inbox data r :
  (∀ i cb, JRPC.inbox (fst (JRPC.receive data r)) !! i = Some cb →
           JRPC.inbox r !! i = Some cb)
  ∧ (∀ next err result,
       JRPC.Deliver next err result ∈ snd (JRPC.receive data r) →
       ∃ i, JRPC.inbox r !! i = Some next).
Proof.
  unfold JRPC.receive.
  destruct data as [| | | | |l|o| | |];
    try (split; [done|]; intros ??? H; by apply elem_of_nil in H).
  - assert (Hgen : ∀ acc : JRPC.t * list JRPC.effect,
      (∀ i cb, JRPC.inbox (fst acc) !! i = Some cb → JRPC.inbox r !! i = Some cb) →
      (∀ next err result, JRPC.Deliver next err result ∈ snd acc →
         ∃ i, JRPC.inbox r !! i = Some next) →
      let res := fold_left
        (fun acc msg => let '(r', es) := JRPC.receive_one msg (fst acc) in
                        (r', snd acc ++ es)) l acc in
      (∀ i cb, JRPC.inbox (fst res) !! i = Some cb → JRPC.inbox r !! i = Some cb)
      ∧ (∀ next err result, JRPC.Deliver next err result ∈ snd res →
           ∃ i, JRPC.inbox r !! i = Some next)).
    { induction l as [|msg l IH]; intros acc Hi Hd; simpl; [done|].
      destruct (receive_one_inbox msg (fst acc)) as [Hi1 Hd1].
      destruct (JRPC.receive_one msg (fst acc)) as [r' es] eqn:Hone.
      simpl in Hi1, Hd1. apply IH; simpl.
      - intros i cb H. by apply Hi, Hi1.
      - intros next err result Hin. apply elem_of_app in Hin as [Hin|Hin].
        + by eapply Hd.
        + destruct (Hd1 _ _ _ Hin) as [i Hin']. exists i. by apply Hi. }
    apply Hgen; simpl; [done|]. intros ??? H. by apply elem_of_nil in H.
  - apply (receive_one_inbox (VObj o) r).
Qed.

Lemma inv_fold_run_effect es w :
  inv w →
  (∀ p b err result, JRPC.Deliver (CbCall p b) err result ∈ es →
     origin_of w p = Some (OCall b)) →
  inv (fold_left run_effect es w).
Proof.
  revert w. induction es as [|e es IH]; intros w Hinv Hes; [done|].
  simpl. apply IH.
  - apply inv_run_effect; [done|]. intros next err result p b -> ->.
    apply (Hes p b err result). by left.
  - intros p b err result Hin.
    apply (ext_origin _ _ (ext_run_effect w e)).
    apply (Hes p b err result). by right.
Qed.

(** Every event keeps the invariant. *)
Lemma inv_exec ev w : inv w → inv (exec ev w).
Proof.
  intros Hinv. destruct ev; cbn [exec].
  - rewrite connect_eq. cbn [fst].
    pose proof (inv_new_promise OConnect w Hinv) as H1.
    pose proof (origin_of_new_promise OConnect w) as Ho.
    destruct (_ && _); [by apply inv_transport_call|].
    apply inv_settle; [done|]. intros requests v Ho'. congruence.
  - rewrite disconnect_eq. cbn [fst].
    pose proof (inv_new_promise OConnect w Hinv) as H1.
    pose proof (origin_of_new_promise OConnect w) as Ho.
    destruct (_ && _); [by apply inv_transport_call|].
    apply inv_settle; [done|]. intros requests v Ho'. congruence.
  - unfold notification.
    destruct handler; try destruct (JRPC.exposed (remote w) !! name); try done;
      (apply (inv_update w); try done;
       [apply (inv_inbox _ Hinv)|apply (inv_awaited _ Hinv)]).
  - rewrite call_eq. apply inv_call_executor; [by apply inv_new_promise|].
    apply origin_of_new_promise.
  - by apply inv_add_lazy.
  - by apply inv_start.
  - rewrite batch_eq. apply inv_batch_executor; [by apply inv_new_promise|].
    apply origin_of_new_promise.
  - by apply inv_add_lazy.
  - destruct (lazies w !! l) as [lz|] eqn:Hl; simpl; [|done].
    destruct (l_exec lz) eqn:Hex; [done|].
    apply inv_settle_lazy; [done|]. intros lz' v Hl' Hex'. congruence.
  - destruct (awaited w !! e) as [[r|]|] eqn:He; try done.
    apply inv_run_reaction.
    + apply (inv_update w); try done; [apply (inv_inbox _ Hinv)|].
      intros e' r'. simpl. intros H.
      apply list_lookup_insert_Some in H as [[_ [H _]]|[_ H]]; [done|].
      by eapply (inv_awaited _ Hinv).
    + by apply (inv_awaited _ Hinv e r).
  - apply (inv_update w); try done;
      [apply (inv_inbox _ Hinv)|apply (inv_awaited _ Hinv)].
  - unfold onTransportData.
    destruct (receive_inbox (normalize data) (remote w)) as [Hi Hd].
    destruct (JRPC.receive (normalize data) (remote w)) as [r es].
    simpl in Hi, Hd. apply inv_fold_run_effect.
    + apply (inv_update w); try done; [|apply (inv_awaited _ Hinv)].
      intros i p b H. apply Hi in H. by eapply (inv_inbox _ Hinv).
    + intros p b err result Hin. destruct (Hd _ _ _ Hin) as [i Hin'].
      by eapply (inv_inbox _ Hinv).
  - unfold JRPC.complete.
    destruct (JRPC.inbox (remote w) !! i) as [next|] eqn:Hi; [|done].
    apply inv_run_callback.
    + apply (inv_update w); try done; [|apply (inv_awaited _ Hinv)].
      intros j p b. simpl. intros H. apply lookup_delete_Some in H as [_ H].
      by eapply (inv_inbox _ Hinv).
    + intros p b ->. by eapply (inv_inbox _ Hinv).
  - destruct (immediates w) as [|[p] rest]; [done|].
    apply inv_transmit. apply (inv_update w); try done;
      [apply (inv_inbox _ Hinv)|apply (inv_awaited _ Hinv)].
Qed.

Lemma inv_run evs w : inv w → inv (run evs w).
Proof.
  revert w. induction evs as [|ev evs IH]; intros w Hinv; [done|].
  change (run (ev :: evs) w) with (run evs (exec ev w)).
  by apply IH, inv_exec.
Qed.

(** A new session satisfies the invariant. *)
Lemma inv_constructor o w : constructor o = inr w → inv w.
Proof.
  intros Hc. destruct (constructor_inr o w Hc)
    as (t & _ & _ & _ & Hr & Hp & Hl & Hco & Ha & _).
  split; rewrite ?Hp, ?Hl, ?Hco, ?Ha, ?Hr; try done.
Qed.

(** ** C5: the shape of a batch *)

Lemma batch_origin requests w evs :
  origin_of (run evs (fst (batch requests w))) (length (promises w))
  = Some (OBatch requests).
Proof.
  apply (ext_origin _ _ (ext_run evs _)). rewrite batch_eq.
  apply (ext_origin _ _ (ext_batch_executor _ _ _)).
  apply origin_of_new_promise.
Qed.

(** A batch that is fulfilled is fulfilled with a good result. *)
Lemma batch_fulfilled_good w requests evs v :
  inv w →
  promise_state (run evs (fst (batch requests w))) (length (promises w))
  = Some (Fulfilled v) →
  good_result (run evs (fst (batch requests w))) requests v.
Proof.
  intros Hinv Hp.
  assert (Hinv' : inv (run evs (fst (batch requests w)))).
  { apply inv_run. exact (inv_exec (Batch requests) w Hinv). }
  pose proof (batch_origin requests w evs) as Ho.
  apply (inv_batch _ Hinv' (length (promises w))).
  unfold origin_of, promise_state in *.
  destruct (promises _ !! length (promises w)) as [[o st]|]; simpl in *; [|done].
  congruence.
Qed.

(** Without an array or an object there is nothing to fulfil. *)
Lemma batch_no_collection_rejected w requests evs :
  match requests with VArr _ | VObj _ => False | _ => True end →
  ∃ e, promise_state (run evs (fst (batch requests w))) (length (promises w))
       = Some (Rejected e).
Proof.
  intros Hr. eexists. apply (ext_settled _ _ (ext_run evs _)); [|done].
  rewrite batch_invalid_eq by (by destruct requests).
  unfold promise_state. simpl. rewrite lookup_app_r by lia.
  by rewrite Nat.sub_diag.
Qed.

(** C5: on a session made by the constructor, after any events, the
    value a batch of prepared calls is fulfilled with, whatever happens
    in between, has the shape of its input: an array of as many
    responses, the response in each place being the one of the prepared
    call in that place, or an object with the same keys in the same
    order; and an empty array or object is fulfilled at once with an
    empty array or object, nothing else changing (no call on the
    transport, connected or not). *)
Theorem batch_preserves_shape (o : options) (w0 : world) (before : list event)
    (requests : value) :
  constructor o = inr w0 →
  let w := run before w0 in
  let p := snd (batch requests w) in
  fst (batch (VArr []) w)
  = set_promises
      (promises w ++ [Promise (OBatch (VArr [])) (Fulfilled (VArr []))]) w
  ∧ fst (batch (VObj []) w)
    = set_promises
        (promises w ++ [Promise (OBatch (VObj [])) (Fulfilled (VObj []))]) w
  ∧ ∀ after v,
      forallb (is_prepared w) (inputs_of requests) = true →
      let w' := run after (fst (batch requests w)) in
      promise_state w' p = Some (Fulfilled v) →
      ∃ vs,
        length vs = length (inputs_of requests)
        ∧ (∀ i l, inputs_of requests !! i = Some (VLazy l) →
             ∃ r, vs !! i = Some r ∧ lazy_state w' l = Some (Fulfilled r))
        ∧ Forall is_response vs
        ∧ match requests with
          | VArr _ => v = VArr vs
          | VObj props =>
              v = VObj (zip (map fst props) vs)
              ∧ map fst (zip (map fst props) vs) = map fst props
          | _ => False
          end.
Proof.
  intros Hc w p.
  split; [apply settle_new_promise|]. split; [apply settle_new_promise|].
  intros after v Hprep w' Hp. subst p w'.
  change (snd (batch requests w)) with (length (promises w)) in Hp.
  assert (Hinv : inv w) by (apply inv_run; by eapply inv_constructor).
  assert (Hinv' : inv (run after (fst (batch requests w)))).
  { apply inv_run. exact (inv_exec (Batch requests) w Hinv). }
  destruct (batch_fulfilled_good w requests after v Hinv Hp) as (vs & Hv & Hvs).
  pose proof (Forall2_length _ _ _ Hvs) as Hlen.
  exists vs. split; [done|]. split; [|split].
  - intros i l Hi. destruct (Forall2_lookup_l _ _ _ _ _ Hvs Hi) as (r & Hr & Hval).
    by exists r.
  - apply Forall_lookup_2. intros i r Hr.
    destruct (Forall2_lookup_r _ _ _ _ _ Hvs Hr) as (x & Hx & Hval).
    rewrite forallb_forall in Hprep.
    assert (Hpx : is_prepared w x = true).
    { apply Hprep. apply list_elem_of_In. by eapply list_elem_of_lookup_2. }
    destruct x as [| | | | | | | | |l]; try done.
    unfold is_prepared in Hpx. cbn [value_of] in Hval.
    destruct (lazies w !! l) as [lz|] eqn:Hl; simpl in Hpx; [|done].
    destruct (ext_lazy _ _ (ext_trans _ _ _ (ext_exec (Batch requests) w)
                                      (ext_run after _)) l lz Hl)
      as (lz' & Hl' & Hex & _).
    cbn [exec] in Hl'. unfold lazy_state in Hval. rewrite Hl' in Hval.
    simpl in Hval. apply (inv_prepared _ Hinv' l lz' r Hl'); [|done].
    rewrite Hex. by destruct (l_exec lz).
  - assert (Hrej : match requests with VArr _ | VObj _ => False | _ => True end
                   → False).
    { intros H.
      destruct (batch_no_collection_rejected w requests after H) as [e He].
      congruence. }
    destruct requests as [| | | | |l|props| | |]; try (by apply Hrej).
    + exact Hv.
    + split; [exact Hv|]. apply fst_zip. simpl in Hlen.
      rewrite !length_map in *. lia.
Qed.

(** The batch of the test suite: a result, an RPC error and a timeout. *)
Lemma batch_preserves_shape_witness :
  ∃ vs,
    length vs = 3
    ∧ Forall is_response vs
    ∧ promise_state
        (run [Prepare (VStr "base64") (VArr [VStr "params"]);
              Prepare (VStr "rpc-error") VNull;
              Prepare (VStr "non-existent-method") VNull;
              Batch (VArr [VLazy 0; VLazy 1; VLazy 2]);
              Immediate;
              TransportSettles 0 (Resolves VUndefined);
              TransportData (result_message 1 (VStr "WyJwYXJhbXMiXQ=="));
              TransportData (VObj [("jsonrpc", VStr "2.0"); ("id", VNum 2);
                                   ("error", VObj [("code", VNum 1234);
                                                   ("message", VStr "Generic RPC error")])]);
              Completes 3 TimeoutError VNull]
             fake_client) 0
      = Some (Fulfilled (VArr vs)).
Proof.
  destruct (proj2 (proj2 (batch_preserves_shape
      (Options (Some FakeTransport) VUndefined VUndefined None) fake_client
      [Prepare (VStr "base64") (VArr [VStr "params"]);
       Prepare (VStr "rpc-error") VNull;
       Prepare (VStr "non-existent-method") VNull]
      (VArr [VLazy 0; VLazy 1; VLazy 2]) eq_refl))
    [Immediate;
     TransportSettles 0 (Resolves VUndefined);
     TransportData (result_message 1 (VStr "WyJwYXJhbXMiXQ=="));
     TransportData (VObj [("jsonrpc", VStr "2.0"); ("id", VNum 2);
                          ("error", VObj [("code", VNum 1234);
                                          ("message", VStr "Generic RPC error")])]);
     Completes 3 TimeoutError VNull]
    (VArr [VObj [("error", VNull); ("result", VStr "WyJwYXJhbXMiXQ==")];
           VObj [("error", VObj [("code", VNum 1234);
                                 ("message", VStr "Generic RPC error")]);
                 ("result", VNull)];
           VObj [("error", TimeoutError); ("result", VNull)]])
    eq_refl eq_refl) as (vs & Hlen & _ & Hresp & Hv).
  exists vs. split; [exact Hlen|]. split; [exact Hresp|].
  rewrite <- Hv. reflexivity.
Defined.

(** The same batch as an object, as the test suite sends it. *)
Example batch_of_an_object :
  promise_state
    (run [Prepare (VStr "base64") (VArr [VStr "params"]);
          Prepare (VStr "rpc-error") VNull;
          Batch (VObj [("call1", VLazy 0); ("call2", VLazy 1)]);
          Immediate;
          TransportSettles 0 (Resolves VUndefined);
          TransportData (VArr [result_message 1 (VStr "WyJwYXJhbXMiXQ==");
                               VObj [("jsonrpc", VStr "2.0"); ("id", VNum 2);
                                     ("error", VObj [("code", VNum 1234)])]])]
         fake_client) 0
  = Some (Fulfilled
            (VObj [("call1", VObj [("error", VNull);
                                   ("result", VStr "WyJwYXJhbXMiXQ==")]);
                   ("call2", VObj [("error", VObj [("code", VNum 1234)]);
                                   ("result", VNull)])])).
Proof. by vm_compute. Qed.

(** A failed [transport.send] rejects the whole batch, whatever the
    engine completes later. *)
Example batch_transport_error :
  promise_state
    (run [Prepare (VStr "base64") (VArr [VStr "params"]);
          Prepare (VStr "transport-error") VNull;
          Batch (VArr [VLazy 0; VLazy 1]);
          Immediate;
          TransportSettles 0 (Rejects (VErr PlainError "Generic transport error"));
          TransportData (result_message 1 (VStr "WyJwYXJhbXMiXQ=="));
          Completes 2 TimeoutError VNull]
         fake_client) 0
  = Some (Rejected (VErr PlainError "Generic transport error")).
Proof. by vm_compute. Qed.
(** * Further properties of the client *)

(** ** The constructor and [checkTransport] *)

(** X1: the transport contract: [checkTransport] accepts a transport exactly
    when it is an event emitter with a boolean [needsConnection] and a
    function [send] and, if [needsConnection] is true, with a boolean
    [isConnected] and functions [connect] and [disconnect]. What a
    connectionless transport has under these three names is not looked
    at. *)
Theorem checkTransport_accepts (t : transport_object) :
  checkTransport (Some t) = None
  ↔ t_emitter t = true
    ∧ is_boolean (t_needsConnection t) = true
    ∧ is_function (t_send t) = true
    ∧ (t_needsConnection t = VBool true →
       is_boolean (t_isConnected t) = true
       ∧ is_function (t_connect t) = true
       ∧ is_function (t_disconnect t) = true).
Proof.
  unfold checkTransport. destruct t as [em nc snd ic co di]. simpl.
  destruct em; simpl; [|by split; [|intros [? _]]].
  destruct nc as [| |b| | | | | | |]; simpl;
    try (split; [done|by intros (_ & ? & _)]).
  destruct (is_function snd); simpl; [|by split; [|intros (_ & _ & ? & _)]].
  destruct b; simpl; [|by split].
  destruct (is_boolean ic); simpl;
    [|split; [done|intros (_ & _ & _ & H); by destruct (H eq_refl)]].
  destruct (is_function co); simpl;
    [|split; [done|intros (_ & _ & _ & H); by destruct (H eq_refl) as (_ & ? & _)]].
  destruct (is_function di); simpl;
    [|split; [done|intros (_ & _ & _ & H); by destruct (H eq_refl) as (_ & _ & ?)]].
  by split.
Qed.

(** X2: whatever the options, what the constructor throws is a [TypeError];
    and when the transport is not valid, it is the error of
    [checkTransport], whatever the other options are. *)
Theorem constructor_throws_TypeError (o : options) (e : value) :
  constructor o = inl e →
  (∃ m, e = VErr TypeError m)
  ∧ ∀ e', checkTransport (opt_transport o) = Some e' → e = e'.
Proof.
  unfold constructor.
  destruct (checkTransport (opt_transport o)) as [e0|] eqn:Hc.
  - intros [= <-]. split; [|by intros e' [= ->]].
    revert Hc. unfold checkTransport, invalid.
    destruct (opt_transport o) as [t|]; [|intros [= <-]; by eexists].
    repeat (match goal with
            | |- context [if ?b then _ else _] => destruct b
            end; try (intros [= <-]; by eexists)); done.
  - destruct (opt_transport o) as [t|]; [|intros [= <-]; split; [by eexists|done]].
    unfold invalid.
    repeat (match goal with
            | |- context [if ?b then _ else _] => destruct b
            end; try (intros [= <-]; split; [by eexists|done])); done.
Qed.

(** [new JRPCClient({ transport: false })]. *)
Lemma constructor_throws_TypeError_witness :
  ∃ m, invalid "missing/invalid " "transport" "option" = VErr TypeError m.
Proof.
  exact (proj1 (constructor_throws_TypeError
    (Options None VUndefined VUndefined None)
    (invalid "missing/invalid " "transport" "option") eq_refl)).
Defined.

(** X3: with a valid transport and no other option, the session connects
    automatically, batches, and gives the engine 60 seconds; an option
    given as [undefined] is the default too, while [null] is refused. *)
Theorem constructor_defaults (t : transport_object) :
  checkTransport (Some t) = None →
  constructor (Options (Some t) VUndefined VUndefined None)
  = inr (World (as_bool (t_needsConnection t)) (as_bool (t_isConnected t))
               true true (JRPC.new 60) [] [] [] [] [] [] [])
  ∧ constructor (Options (Some t) VNull VUndefined None)
    = inl (invalid "invalid " "autoConnect" "option")
  ∧ constructor (Options (Some t) VUndefined VNull None)
    = inl (invalid "invalid " "batchRequests" "option").
Proof.
  intros Hc. unfold constructor.
  cbn [opt_transport opt_autoConnect opt_batchRequests opt_timeout].
  by rewrite Hc.
Qed.

Lemma constructor_defaults_witness :
  constructor (Options (Some ConnectedTransport) VUndefined VUndefined None)
  = inr (connected_client true).
Proof. exact (proj1 (constructor_defaults ConnectedTransport eq_refl)). Defined.

(** ** [cleanResponse] and [onTransportData] *)

Lemma cleanResponse_one_outcome v : one_outcome (cleanResponse v) = true.
Proof.
  destruct v as [| | | | | |o| | |]; try done. unfold cleanResponse.
  destruct (hasOwnProperty o "error" && hasOwnProperty o "result") eqn:E.
  - destruct (truthy _); simpl; rewrite hasOwnProperty_delete_eq;
      [by rewrite andb_false_r|done].
  - simpl. by rewrite E.
Qed.

Lemma cleanResponse_fixed v : one_outcome v = true → cleanResponse v = v.
Proof.
  destruct v as [| | | | | |o| | |]; try done. simpl.
  by destruct (hasOwnProperty o "error" && hasOwnProperty o "result").
Qed.

Lemma cleanResponse_object o : ∃ o', cleanResponse (VObj o) = VObj o'.
Proof. unfold cleanResponse. repeat case_match; by eexists. Qed.

(** X4: whatever the transport emits, no message handed to the engine (the
    data itself, or an element of the array) has both a [result] and an
    [error]. *)
Theorem normalize_one_outcome (data : value) :
  match normalize data with
  | VArr l => forallb one_outcome l = true
  | msg => one_outcome msg = true
  end.
Proof.
  unfold normalize. destruct (truthy data) eqn:Ht.
  - destruct data as [| | | | |l|o| | |]; try done.
    + apply forallb_forall. intros x Hx. apply in_map_iff in Hx as (y & <- & _).
      apply cleanResponse_one_outcome.
    + pose proof (cleanResponse_one_outcome (VObj o)) as H.
      destruct (cleanResponse_object o) as [o' Ho']. by rewrite Ho' in *.
  - by destruct data.
Qed.

(** X5: cleaning is idempotent: data that went through [onTransportData]
    once is left as it is by a second pass, which handles it the same. *)
Theorem normalize_idempotent (data : value) :
  normalize (normalize data) = normalize data
  ∧ ∀ w, onTransportData (normalize data) w = onTransportData data w.
Proof.
  assert (H : normalize (normalize data) = normalize data).
  { unfold normalize at 2. destruct (truthy data) eqn:Ht.
    - destruct data as [| | | | |l|o| | |]; try done.
      + unfold normalize. cbn [truthy]. f_equal. rewrite map_map.
        apply map_ext. intros x. apply cleanResponse_fixed, cleanResponse_one_outcome.
      + pose proof (cleanResponse_one_outcome (VObj o)) as H1.
        pose proof (cleanResponse_fixed _ H1) as H2.
        destruct (cleanResponse_object o) as [o' Ho'].
        rewrite Ho' in H1, H2.
        transitivity (VObj o'); [by rewrite Ho'|symmetry; exact Ho'].
    - unfold normalize. by rewrite Ht. }
  split; [done|]. intros w. unfold onTransportData. by rewrite H.
Qed.

(** ** [call] *)


(** A call with a valid method on a session that is connected, or that
    connects automatically and whose transport then connects, comes down
    to [makeCall] on a state that differs from the first one by the new
    promise and, if it had to connect, by the call of
    [transport.connect()]. *)
Lemma call_made w method params b connected :
  check.nonEmptyString method = true →
  isConnected w || autoConnect w = true →
  ∃ w',
    (if isConnected w then fst (call method params b w)
     else exec (TransportSettles (length (awaited w)) (Resolves connected))
               (fst (call method params b w)))
    = makeCall (length (promises w)) method params b w'
    ∧ promise_state w' (length (promises w)) = Some Pending
    ∧ remote w' = remote w
    ∧ immediates w' = immediates w
    ∧ transport_log w'
      = transport_log w ++ (if isConnected w then [] else [OpConnect])
    ∧ length (awaited w')
      = if isConnected w then length (awaited w) else S (length (awaited w)).
Proof.
  intros Hm Hc. rewrite call_eq. unfold call_executor, connect_then, isConnected in *.
  rewrite Hm. cbn [negb].
  change (needsConnection (fst (new_promise (OCall b) w)))
    with (needsConnection w).
  change (transport_isConnected (fst (new_promise (OCall b) w)))
    with (transport_isConnected w).
  change (autoConnect (fst (new_promise (OCall b) w))) with (autoConnect w).
  pose proof (promise_state_new_promise w (OCall b)) as Hp.
  destruct (negb (needsConnection w) || transport_isConnected w) eqn:Hic;
    cbn [negb fst].
  - eexists. split; [done|]. by rewrite app_nil_r.
  - simpl in Hc. rewrite Hc. cbn [negb].
    destruct (needsConnection w), (transport_isConnected w); try done.
    cbn [andb negb].
    change (length (awaited w))
      with (length (awaited (fst (new_promise (OCall b) w)))).
    rewrite awaited_settles_last. cbn [run_reaction].
    eexists. split; [done|]. split; [exact Hp|].
    split; [done|]. split; [done|]. split; [done|].
    simpl. rewrite length_app. simpl. lia.
Qed.



(** X7: a call with a valid method on a connected session is sent at once,
    with or without [batchRequests]: [transport.send] is called once,
    with the requests that waited in the engine followed by the new one,
    which has the next correlation id, the method and the params, or
    [[]] when the params are falsy; nothing stays unsent, no flush is
    queued, and the call is pending under its id. *)
Theorem call_sends_at_once (w : world) (method params : value) (b : bool) :
  check.nonEmptyString method = true →
  isConnected w = true →
  let w1 := fst (call method params b w) in
  let i := S (JRPC.serial (remote w)) in
  let req := JRPC.Request i (as_string method) (js_or params (VArr [])) in
  transport_log w1 = transport_log w ++ [OpSend (JRPC.outbox (remote w) ++ [req])]
  ∧ JRPC.outbox (remote w1) = []
  ∧ immediates w1 = immediates w
  ∧ JRPC.inbox (remote w1)
    = <[i := CbCall (snd (call method params b w)) b]> (JRPC.inbox (remote w))
  ∧ (truthy params = false → JRPC.params req = VArr []).
Proof.
  intros Hm Hc. cbv zeta.
  change (snd (call method params b w)) with (length (promises w)).
  destruct (call_made w method params b VUndefined Hm) as (w' & Hw & _ & Hr & Hi & Hl & _).
  { by rewrite Hc. }
  rewrite Hc in Hw, Hl. rewrite Hw, makeCall_eq. simpl.
  rewrite Hr, Hi, Hl, app_nil_r.
  repeat split; try done. intros Hp. by apply js_or_falsy.
Qed.

(** [call('base64', null)] over the fake transport is sent with [[]]. *)
Lemma call_sends_at_once_witness :
  transport_log (fst (call (VStr "base64") VNull true fake_client))
  = [OpSend [JRPC.Request 1 "base64" (VArr [])]].
Proof.
  exact (proj1 (call_sends_at_once fake_client (VStr "base64") VNull true
                  eq_refl eq_refl)).
Defined.

(** ** Responses from the transport *)





(** ** Every event is made of a few steps *)

(** [receive] changes nothing of the engine but the pending calls. *)
Lemma receive_one_quiet msg r :
  JRPC.outbox (fst (JRPC.receive_one msg r)) = JRPC.outbox r
  ∧ JRPC.serial (fst (JRPC.receive_one msg r)) = JRPC.serial r
  ∧ JRPC.remoteTimeout (fst (JRPC.receive_one msg r)) = JRPC.remoteTimeout r.
Proof.
  unfold JRPC.receive_one, JRPC.deliverResponse, JRPC.complete.
  repeat case_match; simplify_eq; done.
Qed.

Lemma receive_quiet data r :
  JRPC.outbox (fst (JRPC.receive data r)) = JRPC.outbox r
  ∧ JRPC.serial (fst (JRPC.receive data r)) = JRPC.serial r
  ∧ JRPC.remoteTimeout (fst (JRPC.receive data r)) = JRPC.remoteTimeout r.
Proof.
  unfold JRPC.receive. destruct data as [| | | | |l|o| | |]; try done.
  - assert (Hgen : ∀ acc : JRPC.t * list JRPC.effect,
      let res := fold_left
        (fun acc msg => let '(r', es) := JRPC.receive_one msg (fst acc) in
                        (r', snd acc ++ es)) l acc in
      JRPC.outbox (fst res) = JRPC.outbox (fst acc)
      ∧ JRPC.serial (fst res) = JRPC.serial (fst acc)
      ∧ JRPC.remoteTimeout (fst res) = JRPC.remoteTimeout (fst acc)).
    { induction l as [|msg l IH]; intros acc; simpl; [done|].
      destruct (receive_one_quiet msg (fst acc)) as (H1 & H2 & H3).
      destruct (JRPC.receive_one msg (fst acc)) as [r' es].
      destruct (IH (r', snd acc ++ es)) as (-> & -> & ->). done. }
    apply (Hgen (r, [])).
  - apply receive_one_quiet.
Qed.

(** A relation between a state and a later one that holds across the
    steps below holds across every event: the client settles promises,
    keeps its lazy promises and collectors, queues and runs the flush of
    a batch, calls [connect] on a transport that needs a connection and
    has none, [disconnect] on one that has one, registers a call and
    sends, registers a prepared call (and sends when batching is off),
    and otherwise leaves what the engine has registered and not sent. *)
Section steps.
Context (R : world → world → Prop) `{!PreOrder R}.
Hypothesis R_promises : ∀ x w, R w (set_promises x w).
Hypothesis R_lazies : ∀ x w, R w (set_lazies x w).
Hypothesis R_collectors : ∀ x w, R w (set_collectors x w).
Hypothesis R_awaited : ∀ x w, R w (set_awaited x w).
Hypothesis R_invoked : ∀ x w, R w (set_invoked x w).
Hypothesis R_isConnected : ∀ x w, R w (set_transport_isConnected x w).
Hypothesis R_queue : ∀ p w,
  batchRequests w = true → R w (set_immediates (immediates w ++ [JTransmit p]) w).
Hypothesis R_pop : ∀ j rest w,
  immediates w = j :: rest → R w (set_immediates rest w).
Hypothesis R_connect : ∀ r w,
  needsConnection w = true → transport_isConnected w = false →
  R w (transport_call OpConnect r w).
Hypothesis R_disconnect : ∀ r w,
  needsConnection w = true → transport_isConnected w = true →
  R w (transport_call OpDisconnect r w).
Hypothesis R_transmit : ∀ t w, R w (transmit t w).
Hypothesis R_call_transmit : ∀ t m ps next w,
  R w (transmit t (set_remote (JRPC.call m ps next (remote w)) w)).
Hypothesis R_call_batched : ∀ m ps next w,
  batchRequests w = true → R w (set_remote (JRPC.call m ps next (remote w)) w).
Hypothesis R_engine : ∀ r w,
  JRPC.outbox r = JRPC.outbox (remote w) →
  JRPC.serial r = JRPC.serial (remote w) →
  JRPC.remoteTimeout r = JRPC.remoteTimeout (remote w) →
  R w (set_remote r w).

Lemma steps_fold {B} (f : world → B → world) (l : list B) w :
  (∀ w x, R w (f w x)) → R w (fold_left f l w).
Proof.
  intros Hf. revert w. induction l as [|x l IH]; intros w; simpl; [done|].
  etrans; [apply Hf|apply IH].
Qed.

Lemma steps_settle p s w : R w (settle p s w).
Proof. apply R_promises. Qed.

Lemma steps_fill c i v w : R w (fill c i v w).
Proof.
  unfold fill. destruct (collectors w !! c); [|done].
  cbv zeta. destruct (filled _); unfold resolve; [|apply R_collectors].
  etrans; [apply R_collectors|apply steps_settle].
Qed.

Lemma steps_abort c e w : R w (abort c e w).
Proof.
  unfold abort. destruct (collectors w !! c); [|done]. apply steps_settle.
Qed.

Lemma steps_notify s w sub : R w (notify s w sub).
Proof. destruct s; simpl; [done|apply steps_fill|apply steps_abort]. Qed.

Lemma steps_settle_lazy l s w : R w (settle_lazy l s w).
Proof.
  unfold settle_lazy. destruct (lazies w !! l) as [lz|]; [|done].
  destruct (l_state lz) as [[| |]|]; try done.
  etrans; [apply R_lazies|]. apply steps_fold. intros. apply steps_notify.
Qed.

Lemma steps_reject_target t e w : R w (reject_target t e w).
Proof. destruct t; [apply steps_settle|apply steps_settle_lazy]. Qed.

Lemma steps_run_callback next err result w : R w (run_callback next err result w).
Proof.
  destruct next as [p [|]|l]; simpl; [destruct (truthy err)|..];
    try apply steps_settle. apply steps_settle_lazy.
Qed.

Lemma steps_makeCall p m ps b w : R w (makeCall p m ps b w).
Proof. apply R_call_transmit. Qed.

Lemma steps_start l w : R w (start l w).
Proof.
  unfold start. destruct (lazies w !! l) as [lz|]; [|done].
  destruct (l_state lz); [done|].
  destruct (l_exec lz) as [m ps|]; cbn [run_executor]; [|apply R_lazies].
  etrans; [apply R_lazies|].
  unfold prepare_executor. destruct (negb (check.nonEmptyString m)).
  - apply steps_settle_lazy.
  - cbv zeta. destruct (batchRequests (set_remote _ _)) eqn:Hb; cbn [negb].
    + by apply R_call_batched.
    + apply R_call_transmit.
Qed.

Lemma steps_subscribe c i l w : R w (subscribe c i l w).
Proof.
  unfold subscribe. cbv zeta. etrans; [apply steps_start|].
  destruct (lazies (start l w) !! l) as [lz|]; [|done].
  destruct (l_state lz) as [[| |]|]; try done;
    first [apply R_lazies | apply steps_notify].
Qed.

Lemma steps_await_input c w iv : R w (await_input c w iv).
Proof.
  unfold await_input. destruct (snd iv);
    try apply steps_fill. apply steps_subscribe.
Qed.

Lemma steps_collect p keys inputs w : R w (collect p keys inputs w).
Proof.
  unfold collect. destruct inputs as [|v inputs]; [apply steps_settle|].
  etrans; [apply R_collectors|]. apply steps_fold. intros. apply steps_await_input.
Qed.

Lemma steps_makeCalls p requests w : R w (makeCalls p requests w).
Proof.
  unfold makeCalls. cbv zeta.
  set (w1 := match requests with
             | VArr l => collect p None l w
             | VObj o => collect p (Some (map fst o)) (map snd o) w
             | _ => w
             end).
  assert (H1 : R w w1).
  { subst w1. destruct requests; try done; apply steps_collect. }
  destruct (batchRequests w1) eqn:Hb; [|done].
  etrans; [exact H1|by apply R_queue].
Qed.

Lemma steps_run_reaction r o w : R w (run_reaction r o w).
Proof.
  destruct r, o; cbn [run_reaction]; try done;
    first [apply steps_settle | apply steps_makeCall | apply steps_makeCalls
          | apply steps_reject_target].
Qed.

Lemma steps_connect_then k w : R w (connect_then k w).
Proof.
  unfold connect_then.
  destruct (needsConnection w) eqn:Hn, (transport_isConnected w) eqn:Hc;
    cbn [andb negb]; try apply steps_run_reaction.
  by apply R_connect.
Qed.

Lemma steps_call_executor p m ps b w : R w (call_executor p m ps b w).
Proof.
  unfold call_executor.
  repeat match goal with |- context [if ?b then _ else _] => destruct b end;
    first [apply steps_settle | apply steps_connect_then | apply steps_makeCall].
Qed.

Lemma steps_call m ps b w : R w (fst (call m ps b w)).
Proof. rewrite call_eq. etrans; [|apply steps_call_executor]. apply R_promises. Qed.

Lemma steps_batch_executor p requests w : R w (batch_executor p requests w).
Proof.
  assert (Hv : ∀ r w', R w' (batch_valid p r w')).
  { intros r w'. unfold batch_valid.
    repeat match goal with |- context [if ?b then _ else _] => destruct b end;
      first [apply steps_settle | apply steps_connect_then | apply steps_makeCalls]. }
  unfold batch_executor.
  destruct requests as [| | | | |l|o| | |]; try apply steps_settle.
  - destruct l; [apply steps_settle|].
    destruct (negb _); [apply steps_settle|apply Hv].
  - destruct o; [apply steps_settle|].
    destruct (negb _); [apply steps_settle|apply Hv].
Qed.

Lemma steps_batch requests w : R w (fst (batch requests w)).
Proof. rewrite batch_eq. etrans; [|apply steps_batch_executor]. apply R_promises. Qed.

Lemma steps_connect w : R w (fst (connect w)).
Proof.
  rewrite connect_eq. cbn [fst]. unfold resolve.
  etrans; [apply (R_promises (promises w ++ [Promise OConnect Pending]))|].
  change (fst (new_promise OConnect w))
    with (set_promises (promises w ++ [Promise OConnect Pending]) w).
  destruct (needsConnection w) eqn:Hn, (transport_isConnected w) eqn:Hc;
    cbn [andb negb]; try apply steps_settle.
  by apply R_connect.
Qed.

Lemma steps_disconnect w : R w (fst (disconnect w)).
Proof.
  rewrite disconnect_eq. cbn [fst]. unfold resolve.
  etrans; [apply (R_promises (promises w ++ [Promise OConnect Pending]))|].
  change (fst (new_promise OConnect w))
    with (set_promises (promises w ++ [Promise OConnect Pending]) w).
  destruct (needsConnection w) eqn:Hn, (transport_isConnected w) eqn:Hc;
    cbn [andb negb]; try apply steps_settle.
  by apply R_disconnect.
Qed.

Lemma steps_notification name handler w : R w (notification name handler w).
Proof.
  unfold notification. destruct handler; try (destruct (_ !! name); [|done]);
    by apply R_engine.
Qed.

Lemma steps_run_effect w e : R w (run_effect w e).
Proof.
  destruct e as [next err result|h name ps i]; cbn [run_effect].
  - apply steps_run_callback.
  - etrans; [apply R_invoked|]. apply R_engine; by destruct i.
Qed.

Lemma steps_onTransportData data w : R w (onTransportData data w).
Proof.
  unfold onTransportData.
  destruct (receive_quiet (normalize data) (remote w)) as (H1 & H2 & H3).
  destruct (JRPC.receive (normalize data) (remote w)) as [r es].
  etrans; [by apply (R_engine r)|]. apply steps_fold. apply steps_run_effect.
Qed.

Lemma steps_exec ev w : R w (exec ev w).
Proof.
  destruct ev; cbn [exec];
    try first [apply steps_connect | apply steps_disconnect | apply steps_call
              | apply steps_start | apply steps_batch | apply R_lazies
              | apply R_isConnected | apply steps_notification
              | apply steps_onTransportData].
  - destruct (l_exec <$> lazies w !! l) as [[|]|]; try done.
    apply steps_settle_lazy.
  - destruct (awaited w !! e) as [[r|]|]; try done.
    etrans; [apply R_awaited|apply steps_run_reaction].
  - unfold JRPC.complete. destruct (JRPC.inbox (remote w) !! i); [|done].
    etrans; [|apply steps_run_callback]. by apply R_engine.
  - destruct (immediates w) as [|[p] rest] eqn:Hi; [done|].
    etrans; [by eapply R_pop|apply R_transmit].
Qed.

Lemma steps_run evs w : R w (run evs w).
Proof.
  revert w. induction evs as [|ev evs IH]; intros w; simpl; [done|].
  etrans; [apply steps_exec|apply IH].
Qed.
End steps.

(** ** What no event does *)

#[local] Instance log_grows_preorder : PreOrder log_grows.
Proof.
  split.
  - intros w. split; [done|]. exists []. by rewrite app_nil_r.
  - intros w1 w2 w3 (Hn1 & new1 & Hl1 & Hs1) (Hn2 & new2 & Hl2 & Hs2).
    split; [congruence|]. exists (new1 ++ new2).
    split; [by rewrite Hl2, Hl1, app_assoc|].
    intros Hn. rewrite forallb_app, Hs1, Hs2; [done|congruence|done].
Qed.

Lemma log_grows_same w w' :
  needsConnection w' = needsConnection w → transport_log w' = transport_log w →
  log_grows w w'.
Proof. intros Hn Hl. split; [done|]. exists []. by rewrite app_nil_r. Qed.

Lemma log_grows_transmit t w : log_grows w (transmit t w).
Proof.
  unfold transmit, JRPC.transmit. destruct (JRPC.outbox (remote w)) as [|r l];
    [by apply log_grows_same|].
  split; [done|]. by exists [OpSend (r :: l)].
Qed.

Lemma log_grows_run evs w : log_grows w (run evs w).
Proof.
  apply (steps_run log_grows); try (intros; by apply log_grows_same).
  - intros r w' Hn _. split; [done|]. exists [OpConnect]. split; [done|congruence].
  - intros r w' Hn _. split; [done|]. exists [OpDisconnect]. split; [done|congruence].
  - apply log_grows_transmit.
  - intros t m ps next w'. rewrite transmit_after_call.
    split; [done|]. eexists [_]. by split.
Qed.

(** X9: on a session whose transport needs no connection, whatever happens,
    [isConnected] stays true and the client never calls [connect] or
    [disconnect] on the transport: all it calls is [send]. *)
Theorem connectionless_only_sends (w : world) (evs : list event) :
  needsConnection w = false →
  isConnected (run evs w) = true
  ∧ ∃ new, transport_log (run evs w) = transport_log w ++ new
           ∧ forallb is_send new = true.
Proof.
  intros Hn. destruct (log_grows_run evs w) as (Hn' & new & Hl & Hs).
  split.
  - unfold isConnected. by rewrite Hn', Hn.
  - exists new. split; [done|by apply Hs].
Qed.

(** The session of the test suite over the fake transport: its owner
    connects, calls, disconnects. *)
Lemma connectionless_only_sends_witness :
  isConnected
    (run [Connect; Call (VStr "base64") VNull true; Disconnect] fake_client)
  = true.
Proof.
  exact (proj1 (connectionless_only_sends fake_client
    [Connect; Call (VStr "base64") VNull true; Disconnect] eq_refl)).
Defined.

#[local] Instance nothing_queued_preorder : PreOrder nothing_queued.
Proof.
  split.
  - intros w. by split.
  - intros w1 w2 w3 (Hb1 & H1) (Hb2 & H2). split; [congruence|].
    intros Hb Ho Hi. destruct (H1 Hb Ho Hi) as [Ho' Hi'].
    apply H2; [congruence|done|done].
Qed.

Lemma nothing_queued_same w w' :
  batchRequests w' = batchRequests w →
  JRPC.outbox (remote w') = JRPC.outbox (remote w) →
  immediates w' = immediates w →
  nothing_queued w w'.
Proof. intros Hb Ho Hi. split; [done|]. intros _. by rewrite Ho, Hi. Qed.

Lemma nothing_queued_run evs w : nothing_queued w (run evs w).
Proof.
  apply (steps_run nothing_queued); try (intros; by apply nothing_queued_same).
  - intros p w' Hb. split; [done|]. congruence.
  - intros j rest w' Hi. split; [done|]. congruence.
  - intros t w'. split; [apply (keeps_transmit batchRequests); by intros|].
    intros _ _ Hi. split; [apply outbox_transmit|].
    rewrite <- Hi. unfold transmit, JRPC.transmit.
    by destruct (JRPC.outbox (remote w')).
  - intros t m ps next w'. rewrite transmit_after_call. by split.
  - intros m ps next w' Hb. split; [done|]. congruence.
Qed.

(** X10: with [batchRequests] off, at no moment is a registered call left
    unsent in the engine, and no flush is ever queued: what [call] and
    the first [then] of a prepared call register, they send. *)
Theorem unbatched_nothing_queued (o : options) (w : world) (evs : list event) :
  constructor o = inr w →
  batchRequests w = false →
  JRPC.outbox (remote (run evs w)) = [] ∧ immediates (run evs w) = [].
Proof.
  intros Hc Hb.
  destruct (constructor_inr o w Hc) as (t & _ & _ & _ & Hr & _ & _ & _ & _ & Hi & _).
  destruct (nothing_queued_run evs w) as (_ & H).
  apply H; [done| |done]. by rewrite Hr.
Qed.

(** Two prepared calls batched on a session without batching. *)
Lemma unbatched_nothing_queued_witness :
  JRPC.outbox
    (remote (run [Prepare (VStr "method1") VNull; Prepare (VStr "method2") VNull;
                  Batch (VArr [VLazy 0; VLazy 1])]
                 (World false false true false (JRPC.new 60) [] [] [] [] [] [] [])))
  = [].
Proof.
  exact (proj1 (unbatched_nothing_queued
    (Options (Some FakeTransport) VUndefined (VBool false) None)
    (World false false true false (JRPC.new 60) [] [] [] [] [] [] [])
    [Prepare (VStr "method1") VNull; Prepare (VStr "method2") VNull;
     Batch (VArr [VLazy 0; VLazy 1])] eq_refl eq_refl)).
Defined.

#[local] Instance configuration_preorder :
  PreOrder (fun w w' => configuration w' = configuration w).
Proof. split; [done|]. intros w1 w2 w3 H1 H2. by rewrite H2. Qed.


(** ** Prepared calls and batches *)

Lemma transmit_set_lazies t x w :
  transmit t (set_lazies x w) = set_lazies x (transmit t w).
Proof.
  unfold transmit, JRPC.transmit. simpl. by destruct (JRPC.outbox (remote w)).
Qed.

(** The function of a prepared call with a valid method leaves the lazy
    promises alone. *)
Lemma prepare_executor_valid l m ps w :
  check.nonEmptyString m = true →
  prepare_executor l m ps w
  = (if batchRequests w
     then set_remote (JRPC.call (as_string m) (js_or ps (VArr [])) (CbPrepare l)
                                (remote w)) w
     else transmit (TLazy l)
            (set_remote (JRPC.call (as_string m) (js_or ps (VArr [])) (CbPrepare l)
                                   (remote w)) w)).
Proof.
  intros Hm. unfold prepare_executor. rewrite Hm. cbn [negb]. cbv zeta.
  change (batchRequests (set_remote _ w)) with (batchRequests w).
  by destruct (batchRequests w).
Qed.

Lemma prepare_executor_set_lazies l m ps x w :
  check.nonEmptyString m = true →
  prepare_executor l m ps (set_lazies x w)
  = set_lazies x (prepare_executor l m ps w).
Proof.
  intros Hm. rewrite !prepare_executor_valid by done.
  change (batchRequests (set_lazies x w)) with (batchRequests w).
  destruct (batchRequests w); [done|].
  change (set_remote ?r (set_lazies x w)) with (set_lazies x (set_remote r w)).
  apply transmit_set_lazies.
Qed.

Lemma set_lazies_twice x y w : set_lazies x (set_lazies y w) = set_lazies x w.
Proof. done. Qed.


(** [batch] awaits a prepared call that was not awaited before, with a
    valid method: the call is registered (and sent, without batching),
    and the lazy promise is pending, with the slot of the batch waiting
    for it. *)
Lemma subscribe_fresh_valid c i l mp w :
  unawaited w l mp →
  check.nonEmptyString (fst mp) = true →
  subscribe c i l w
  = set_lazies (<[l := Lazy (ExPrepare (fst mp) (snd mp)) (Some Pending) [(c, i)]]>
                  (lazies w))
               (prepare_executor l (fst mp) (snd mp) w).
Proof.
  intros Hl Hm. unfold unawaited in Hl.
  assert (Hlt : l < length (lazies w)) by (by eapply lookup_lt_Some).
  assert (Hs : start l w
    = set_lazies (<[l := Lazy (ExPrepare (fst mp) (snd mp)) (Some Pending) []]>
                    (lazies w))
                 (prepare_executor l (fst mp) (snd mp) w)).
  { unfold start. rewrite Hl. cbn [l_state l_exec l_subs run_executor].
    by apply prepare_executor_set_lazies. }
  unfold subscribe. cbv zeta. rewrite Hs.
  cbn [lazies set_lazies]. rewrite list_lookup_insert_eq by done.
  cbn [l_state l_exec l_subs]. rewrite list_insert_insert_eq.
  by rewrite set_lazies_twice.
Qed.

(** The same with an invalid method: the lazy promise is rejected with
    the [TypeError], and with it the batch; nothing is registered. *)
Lemma subscribe_fresh_invalid c i l mp col w :
  unawaited w l mp →
  check.nonEmptyString (fst mp) = false →
  collectors w !! c = Some col →
  subscribe c i l w
  = reject (c_target col) (invalid "missing/invalid " "method" "parameter")
      (set_lazies
         (<[l := Lazy (ExPrepare (fst mp) (snd mp))
                      (Some (Rejected (invalid "missing/invalid " "method" "parameter")))
                      []]> (lazies w)) w).
Proof.
  intros Hl Hm Hc. unfold unawaited in Hl.
  assert (Hlt : l < length (lazies w)) by (by eapply lookup_lt_Some).
  assert (Hs : start l w
    = set_lazies
        (<[l := Lazy (ExPrepare (fst mp) (snd mp))
                     (Some (Rejected (invalid "missing/invalid " "method" "parameter")))
                     []]> (lazies w)) w).
  { unfold start. rewrite Hl. cbn [l_state l_exec l_subs run_executor].
    unfold prepare_executor. rewrite Hm. cbn [negb]. unfold settle_lazy.
    cbn [lazies set_lazies]. rewrite list_lookup_insert_eq by done.
    cbn [l_state l_exec l_subs fold_left]. rewrite list_insert_insert_eq.
    by rewrite set_lazies_twice. }
  unfold subscribe. cbv zeta. rewrite Hs.
  cbn [lazies set_lazies]. rewrite list_lookup_insert_eq by done.
  cbn [l_state notify fst snd]. unfold abort.
  change (collectors (set_lazies ?x w)) with (collectors w). by rewrite Hc.
Qed.

Lemma prepare_executor_fields l m ps w :
  check.nonEmptyString m = true →
  let w' := prepare_executor l m ps w in
  let s := JRPC.serial (remote w) in
  let req := JRPC.Request (S s) (as_string m) (js_or ps (VArr [])) in
  promises w' = promises w ∧ collectors w' = collectors w
  ∧ immediates w' = immediates w ∧ batchRequests w' = batchRequests w
  ∧ JRPC.serial (remote w') = S s
  ∧ JRPC.inbox (remote w') = <[S s := CbPrepare l]> (JRPC.inbox (remote w))
  ∧ if batchRequests w
    then JRPC.outbox (remote w') = JRPC.outbox (remote w) ++ [req]
         ∧ transport_log w' = transport_log w ∧ awaited w' = awaited w
    else JRPC.outbox (remote w') = []
         ∧ transport_log w' = transport_log w ++ [OpSend (JRPC.outbox (remote w) ++ [req])]
         ∧ awaited w' = awaited w ++ [Some (RCatchReject (TLazy l))].
Proof.
  intros Hm. cbv zeta. rewrite prepare_executor_valid by done.
  destruct (batchRequests w) eqn:Hb; [done|].
  by rewrite transmit_after_call.
Qed.

(** [batch] awaits prepared calls that were not awaited before, all
    with a valid method. *)
Lemma await_fresh_valid c ils calls w :
  NoDup (map snd ils) →
  Forall2 (fun il mp => unawaited w (snd il) mp
                        ∧ check.nonEmptyString (fst mp) = true) ils calls →
  let w' := fold_left (await_input c) (slots_of ils) w in
  let s := JRPC.serial (remote w) in
  promises w' = promises w ∧ collectors w' = collectors w
  ∧ immediates w' = immediates w
  ∧ JRPC.serial (remote w') = s + length ils
  ∧ (∀ k il mp, ils !! k = Some il → calls !! k = Some mp →
       lazies w' !! snd il
       = Some (Lazy (ExPrepare (fst mp) (snd mp)) (Some Pending) [(c, fst il)])
       ∧ JRPC.inbox (remote w') !! (s + 1 + k) = Some (CbPrepare (snd il)))
  ∧ (∀ l, l ∉ map snd ils → lazies w' !! l = lazies w !! l)
  ∧ (∀ i : nat, (i ≤ s)%nat →
       JRPC.inbox (remote w') !! i = JRPC.inbox (remote w) !! i)
  ∧ if batchRequests w
    then JRPC.outbox (remote w') = JRPC.outbox (remote w) ++ requests_from s calls
         ∧ transport_log w' = transport_log w ∧ awaited w' = awaited w
    else (ils ≠ [] → JRPC.outbox (remote w') = [])
         ∧ transport_log w'
           = transport_log w ++ sends (JRPC.outbox (remote w)) (requests_from s calls)
         ∧ awaited w'
           = awaited w ++ map (fun il => Some (RCatchReject (TLazy (snd il)))) ils.
Proof.
  intros Hnd Hf. revert w Hf.
  induction ils as [|il ils IH] in calls, Hnd |- *; intros w Hf.
  - apply Forall2_nil_inv_l in Hf as ->. cbv zeta. simpl.
    rewrite Nat.add_0_r, !app_nil_r.
    repeat split; try done. by destruct (batchRequests w).
  - apply Forall2_cons_inv_l in Hf as (mp & calls' & [Hl Hm] & Hf & ->).
    cbn [map] in Hnd. apply NoDup_cons in Hnd as [Hnotin Hnd].
    cbv zeta. cbn [slots_of map fold_left]. fold (slots_of ils).
    change (await_input c w (fst il, VLazy (snd il)))
      with (subscribe c (fst il) (snd il) w).
    rewrite (subscribe_fresh_valid c (fst il) (snd il) mp w Hl Hm).
    set (w1 := set_lazies _ (prepare_executor _ _ _ w)).
    destruct (prepare_executor_fields (snd il) (fst mp) (snd mp) w Hm)
      as (Hp1 & Hc1 & Hi1 & Hb1 & Hs1 & Hin1 & Hout1).
    assert (Hlt : snd il < length (lazies w)) by (by eapply lookup_lt_Some).
    assert (Hf1 : Forall2 (fun il mp => unawaited w1 (snd il) mp
                             ∧ check.nonEmptyString (fst mp) = true) ils calls').
    { apply Forall2_same_length_lookup. split; [by eapply Forall2_length|].
      intros k il' mp' Hk Hk'.
      destruct (Forall2_lookup_lr _ _ _ _ _ _ Hf Hk Hk') as [Hfr Hv].
      split; [|done]. unfold unawaited in *. subst w1. cbn [lazies set_lazies].
      rewrite list_lookup_insert_ne; [done|].
      intros Heq. apply Hnotin. rewrite Heq.
      apply list_elem_of_fmap. exists il'. split; [done|].
      by eapply list_elem_of_lookup_2. }
    destruct (IH calls' Hnd w1 Hf1)
      as (Hp & Hc & Hi & Hs & Hk & Hl' & Hin & Hout).
    change (remote w1) with (remote (prepare_executor (snd il) (fst mp) (snd mp) w)) in *.
    change (batchRequests w1)
      with (batchRequests (prepare_executor (snd il) (fst mp) (snd mp) w)) in *.
    change (transport_log w1)
      with (transport_log (prepare_executor (snd il) (fst mp) (snd mp) w)) in *.
    change (awaited w1)
      with (awaited (prepare_executor (snd il) (fst mp) (snd mp) w)) in *.
    rewrite Hs1, Hin1, Hb1 in *.
    split; [by rewrite Hp|]. split; [by rewrite Hc|]. split; [by rewrite Hi|].
    split; [rewrite Hs; simpl; lia|]. split; [|split; [|split]].
    + intros [|k] il' mp' Hk1 Hk2; simpl in Hk1, Hk2.
      * injection Hk1 as <-. injection Hk2 as <-. split.
        -- rewrite Hl' by done. subst w1. cbn [lazies set_lazies].
           by rewrite list_lookup_insert_eq.
        -- rewrite Nat.add_0_r, Nat.add_1_r. rewrite Hin by lia.
           by rewrite lookup_insert_eq.
      * destruct (Hk k il' mp' Hk1 Hk2) as [H1 H2]. split; [done|].
        by replace (JRPC.serial (remote w) + 1 + S k)
          with (S (JRPC.serial (remote w)) + 1 + k) by lia.
    + intros l Hl0. rewrite not_elem_of_cons in Hl0. destruct Hl0 as [Hne Hl0].
      rewrite Hl' by done. subst w1. cbn [lazies set_lazies].
      by rewrite list_lookup_insert_ne.
    + intros i Hle. rewrite Hin by lia. rewrite lookup_insert_ne by lia. done.
    + cbn [requests_from sends].
      destruct (batchRequests w).
      * destruct Hout1 as (Ho1 & Ht1 & Ha1). destruct Hout as (Ho & Ht & Ha).
        rewrite Ho, Ht, Ha, Ho1, Ht1, Ha1. by rewrite <- app_assoc.
      * destruct Hout1 as (Ho1 & Ht1 & Ha1). destruct Hout as (Ho & Ht & Ha).
        rewrite Ht, Ha, Ho1, Ht1, Ha1. rewrite <- !app_assoc. cbn [map app].
        split; [|done]. intros _. destruct ils as [|il2 ils]; [|by apply Ho].
        simpl. exact Ho1.
Qed.

Lemma slots_of_imap ls : imap pair (map VLazy ls) = slots_of (imap pair ls).
Proof.
  unfold slots_of. change (map VLazy ls) with (VLazy <$> ls).
  rewrite imap_fmap.
  change (map ?f (imap pair ls)) with (f <$> imap pair ls).
  by rewrite fmap_imap.
Qed.

Lemma snd_imap_pair (ls : list nat) : map snd (imap pair ls) = ls.
Proof.
  change (map snd (imap pair ls)) with (snd <$> imap pair ls).
  rewrite fmap_imap. apply list_eq. intros k.
  rewrite list_lookup_imap. by destruct (ls !! k).
Qed.



(** A valid batch on a connected session comes down to [makeCalls]. *)
Lemma batch_connected requests w :
  valid_requests requests = true →
  isConnected w = true →
  fst (batch requests w)
  = makeCalls (length (promises w)) requests (fst (new_promise (OBatch requests) w)).
Proof.
  intros Hv Hc. rewrite batch_eq. unfold batch_executor, batch_valid.
  change (isConnected (fst (new_promise _ w))) with (isConnected w).
  rewrite Hc. cbn [negb].
  destruct requests as [| | | | |[|x l]|[|x o]| | |]; try done;
    unfold valid_requests in Hv; by rewrite Hv.
Qed.

Lemma forallb_map_snd (f : value → bool) (o : list (string * value)) :
  forallb f (map snd o) = forallb (fun kv => f (snd kv)) o.
Proof. induction o as [|kv o IH]; simpl; [done|]. by rewrite IH. Qed.

Lemma batch_of_valid w requests ls calls :
  batch_of w requests ls calls → valid_requests requests = true.
Proof.
  intros (Hin & Hne & _).
  assert (Hall : forallb check.instanceLazyPromise (inputs_of requests) = true).
  { rewrite Hin. apply forallb_forall. intros x Hx.
    apply in_map_iff in Hx as (l & <- & _). done. }
  destruct requests as [| | | | |l|o| | |]; simpl in Hin;
    try (by destruct ls).
  - destruct l as [|x l]; [by destruct ls|]. exact Hall.
  - destruct o as [|x o]; [by destruct ls|].
    unfold valid_requests, check.object_of_LazyPromise.
    change (forallb check.instanceLazyPromise (map snd (x :: o)) = true) in Hall.
    by rewrite forallb_map_snd in Hall.
Qed.

Lemma makeCalls_collect p requests w :
  valid_requests requests = true →
  makeCalls p requests w
  = (let w1 := collect p (keys_of requests) (inputs_of requests) w in
     if batchRequests w1
     then set_immediates (immediates w1 ++ [JTransmit p]) w1 else w1).
Proof. intros Hv. by destruct requests. Qed.

Lemma collect_nonempty p keys inputs w :
  inputs ≠ [] →
  collect p keys inputs w
  = fold_left (await_input (length (collectors w))) (imap pair inputs)
      (set_collectors
         (collectors w ++ [Collector p keys inputs (replicate (length inputs) None)])
         w).
Proof. by destruct inputs. Qed.

(** The state after a batch of prepared calls that were not awaited
    before, all with a valid method, on a connected session. *)
Lemma batch_fresh_fields w requests ls calls :
  isConnected w = true →
  batch_of w requests ls calls →
  valid_methods calls = true →
  let w' := fst (batch requests w) in
  let p := length (promises w) in
  let c := length (collectors w) in
  let s := JRPC.serial (remote w) in
  promises w' = promises w ++ [Promise (OBatch requests) Pending]
  ∧ collectors w'
    = collectors w ++ [Collector p (keys_of requests) (map VLazy ls)
                                 (replicate (length ls) None)]
  ∧ immediates w'
    = immediates w ++ (if batchRequests w then [JTransmit p] else [])
  ∧ JRPC.serial (remote w') = s + length ls
  ∧ (∀ k l mp, ls !! k = Some l → calls !! k = Some mp →
       lazies w' !! l
       = Some (Lazy (ExPrepare (fst mp) (snd mp)) (Some Pending) [(c, k)])
       ∧ JRPC.inbox (remote w') !! (s + 1 + k) = Some (CbPrepare l))
  ∧ (∀ l, l ∉ ls → lazies w' !! l = lazies w !! l)
  ∧ (∀ i : nat, (i ≤ s)%nat →
       JRPC.inbox (remote w') !! i = JRPC.inbox (remote w) !! i)
  ∧ if batchRequests w
    then JRPC.outbox (remote w') = JRPC.outbox (remote w) ++ requests_from s calls
         ∧ transport_log w' = transport_log w ∧ awaited w' = awaited w
    else JRPC.outbox (remote w') = []
         ∧ transport_log w'
           = transport_log w ++ sends (JRPC.outbox (remote w)) (requests_from s calls)
         ∧ awaited w'
           = awaited w ++ map (fun l => Some (RCatchReject (TLazy l))) ls.
Proof.
  intros Hc Hb Hm. pose proof (batch_of_valid _ _ _ _ Hb) as Hv.
  destruct Hb as (Hin & Hne & Hnd & Hf). cbv zeta.
  rewrite (batch_connected requests w Hv Hc), (makeCalls_collect _ _ _ Hv).
  cbv zeta. rewrite Hin. rewrite collect_nonempty by (by destruct ls).
  rewrite slots_of_imap, length_map.
  set (w0 := set_collectors _ _).
  assert (Hf0 : Forall2 (fun il mp => unawaited w0 (snd il) mp
                           ∧ check.nonEmptyString (fst mp) = true)
                        (imap pair ls) calls).
  { apply Forall2_same_length_lookup. split.
    - rewrite length_imap. by eapply Forall2_length.
    - intros k il mp Hk Hk'. rewrite list_lookup_imap in Hk.
      destruct (ls !! k) as [l|] eqn:Hl; [|done]. injection Hk as <-.
      split; [exact (Forall2_lookup_lr _ _ _ _ _ _ Hf Hl Hk')|].
      unfold valid_methods in Hm. rewrite forallb_forall in Hm.
      apply Hm, list_elem_of_In. by eapply list_elem_of_lookup_2. }
  destruct (await_fresh_valid (length (collectors (fst (new_promise (OBatch requests) w))))
              (imap pair ls) calls w0) as (Hp & Hco & Hi & Hs & Hk & Hl & Hinb & Hout).
  { by rewrite snd_imap_pair. }
  { exact Hf0. }
  rewrite snd_imap_pair, length_imap in *.
  set (w1 := fold_left _ _ w0) in *.
  assert (Hbat : batchRequests w1 = batchRequests w).
  { subst w1. etrans; [apply (keeps_fold batchRequests)|done].
    intros. apply (keeps_await_input batchRequests); done. }
  rewrite Hbat.
  assert (Hgoal :
    promises w1 = promises w ++ [Promise (OBatch requests) Pending]
    ∧ collectors w1
      = collectors w ++ [Collector (length (promises w)) (keys_of requests)
                                   (map VLazy ls) (replicate (length ls) None)]
    ∧ immediates w1 = immediates w
    ∧ JRPC.serial (remote w1) = JRPC.serial (remote w) + length ls
    ∧ (∀ k l mp, ls !! k = Some l → calls !! k = Some mp →
         lazies w1 !! l
         = Some (Lazy (ExPrepare (fst mp) (snd mp)) (Some Pending)
                      [(length (collectors w), k)])
         ∧ JRPC.inbox (remote w1) !! (JRPC.serial (remote w) + 1 + k)
           = Some (CbPrepare l))
    ∧ (∀ l, l ∉ ls → lazies w1 !! l = lazies w !! l)
    ∧ (∀ i : nat, (i ≤ JRPC.serial (remote w))%nat →
         JRPC.inbox (remote w1) !! i = JRPC.inbox (remote w) !! i)).
  { split; [by rewrite Hp|]. split; [by rewrite Hco|]. split; [by rewrite Hi|].
    split; [exact Hs|]. split; [|by split].
    intros k l mp Hkl Hkm.
    apply (Hk k (k, l) mp); [|done]. rewrite list_lookup_imap. by rewrite Hkl. }
  destruct Hgoal as (G1 & G2 & G3 & G4 & G5 & G6 & G7).
  change (batchRequests w0) with (batchRequests w) in Hout.
  change (remote w0) with (remote w) in Hout.
  change (transport_log w0) with (transport_log w) in Hout.
  change (awaited w0) with (awaited w) in Hout.
  destruct (batchRequests w); cbn [promises collectors immediates remote lazies
                                     transport_log awaited set_immediates];
    rewrite ?G1, ?G2, ?G3, ?G4, ?app_nil_r;
    (split; [done|]); (split; [done|]); (split; [done|]); (split; [done|]);
    (split; [done|]); (split; [done|]); (split; [done|]).
  - done.
  - destruct Hout as (Ho & Ht & Ha). split; [|split; [done|]].
    + apply Ho. intros Himap. apply (f_equal length) in Himap.
      rewrite length_imap in Himap. by destruct ls.
    + rewrite Ha. f_equal.
      change (map ?f (imap pair ls)) with (f <$> imap pair ls).
      rewrite fmap_imap. apply list_eq. intros k.
      rewrite list_lookup_imap, list_lookup_fmap. by destruct (ls !! k).
Qed.

(** Two prepared calls, as the test suite and the examples batch them. *)
Lemma batch_of_two w requests (l1 l2 : nat) mp1 mp2 :
  inputs_of requests = [VLazy l1; VLazy l2] →
  l1 ≠ l2 →
  unawaited w l1 mp1 → unawaited w l2 mp2 →
  batch_of w requests [l1; l2] [mp1; mp2].
Proof.
  intros Hin Hne H1 H2. split; [done|]. split; [done|]. split.
  - apply NoDup_cons. split; [|apply NoDup_singleton].
    intros H. by apply list_elem_of_singleton in H.
  - by repeat constructor.
Qed.

Lemma requests_from_length s calls : length (requests_from s calls) = length calls.
Proof. revert s. induction calls as [|mp calls IH]; intros s; simpl; [done|]. by rewrite IH. Qed.





(** *** A batch is fulfilled when all its calls have completed *)

Lemma filled_lookup_None slots k : slots !! k = Some None → filled slots = None.
Proof.
  revert k. induction slots as [|[v|] slots IH]; intros k Hk; simpl; try done.
  destruct k as [|k]; [done|]. simpl in Hk. by rewrite (IH k Hk).
Qed.

Lemma filled_all (f : nat → value) l :
  filled (map (fun k => Some (f k)) l) = Some (map f l).
Proof. induction l as [|k l IH]; simpl; [done|]. by rewrite IH. Qed.

(** The response to one call of the batch is delivered. *)
Lemma waiting_deliver w c p keys inputs ls slots k l err result :
  NoDup ls →
  waiting w c p keys inputs ls slots →
  ls !! k = Some l →
  slots !! k = Some None →
  waiting (run_callback (CbPrepare l) err result w) c p keys inputs ls
          (<[k := Some (response err result)]> slots).
Proof.
  intros Hnd (Hc & Hlen & Hpend & Hful & Hslots) Hk Hd.
  destruct (Hslots k l Hk Hd) as [ex Hl].
  pose proof (Hpend (filled_lookup_None _ _ Hd)) as Hp.
  assert (Hlt : l < length (lazies w)) by (by eapply lookup_lt_Some).
  assert (Hclt : c < length (collectors w)) by (by eapply lookup_lt_Some).
  cbn [run_callback]. unfold settle_lazy. rewrite Hl.
  cbn [l_state l_exec l_subs fold_left notify fst snd]. unfold fill.
  cbn [collectors set_lazies]. rewrite Hc.
  cbn [c_target c_keys c_inputs c_slots].
  set (v := response err result).
  set (w1 := set_collectors _ _).
  assert (Hw1 : collectors w1 !! c
                = Some (Collector p keys inputs (<[k := Some v]> slots))).
  { subst w1. cbn [collectors set_collectors]. by rewrite list_lookup_insert_eq. }
  assert (Hrest : ∀ k' l', ls !! k' = Some l' →
            <[k := Some v]> slots !! k' = Some None →
            ∃ ex', lazies w1 !! l' = Some (Lazy ex' (Some Pending) [(c, k')])).
  { intros k' l' Hk' Hd'.
    destruct (decide (k' = k)) as [->|Hne].
    { rewrite list_lookup_insert_eq in Hd' by (by eapply lookup_lt_Some). done. }
    rewrite list_lookup_insert_ne in Hd' by done.
    destruct (Hslots k' l' Hk' Hd') as [ex' Hl'].
    assert (l' ≠ l).
    { intros ->. apply Hne. by eapply NoDup_lookup. }
    subst w1. cbn [lazies set_collectors set_lazies].
    exists ex'. by rewrite list_lookup_insert_ne. }
  destruct (filled (<[k := Some v]> slots)) as [vs|] eqn:Hf.
  - split; [exact Hw1|]. split; [by rewrite length_insert|].
    split; [by rewrite Hf|]. split; [|exact Hrest].
    intros vs' Hvs'. rewrite Hf in Hvs'. injection Hvs' as <-.
    by apply promise_state_settle_eq.
  - split; [exact Hw1|]. split; [by rewrite length_insert|].
    split; [done|]. split; [by rewrite Hf|exact Hrest].
Qed.

(** What the collector waits for does not depend on the engine, the
    queue of flushes or the transport. *)
Lemma waiting_frame w w' c p keys inputs ls slots :
  collectors w' = collectors w → promises w' = promises w → lazies w' = lazies w →
  waiting w c p keys inputs ls slots → waiting w' c p keys inputs ls slots.
Proof.
  intros Hc Hp Hl. unfold waiting, promise_state. by rewrite Hc, Hp, Hl.
Qed.

(** The responses come one after the other, in any order: [step k] is
    what brings the response [v k] to the call at position [k], which it
    can do in a state where [ready k] holds. *)
Section waiting_fold.
Context (c p : nat) (keys : option (list string)) (inputs : list value).
Context (ls : list nat) (v : nat → value).
Context (step : nat → world → world) (ready : nat → world → Prop).
Hypothesis ls_NoDup : NoDup ls.
Hypothesis step_waiting : ∀ k l w slots,
  ready k w → ls !! k = Some l → slots !! k = Some None →
  waiting w c p keys inputs ls slots →
  waiting (step k w) c p keys inputs ls (<[k := Some (v k)]> slots).
Hypothesis step_ready : ∀ k k' w, k ≠ k' → ready k w → ready k (step k' w).

Lemma waiting_fold order w slots :
  NoDup order →
  (∀ k, k ∈ order → slots !! k = Some None ∧ k < length ls ∧ ready k w) →
  waiting w c p keys inputs ls slots →
  ∃ slots',
    waiting (fold_left (fun w k => step k w) order w) c p keys inputs ls slots'
    ∧ (∀ k, k ∈ order → slots' !! k = Some (Some (v k)))
    ∧ (∀ k, k ∉ order → slots' !! k = slots !! k).
Proof.
  revert w slots.
  induction order as [|k order IH]; intros w slots Hno Hin Hw.
  - exists slots. split; [done|]. split; [|done].
    intros k Hk. by apply elem_of_nil in Hk.
  - apply NoDup_cons in Hno as [Hk Hno].
    destruct (Hin k) as (Hd & Hlt & Hr); [by left|].
    destruct (lookup_lt_is_Some_2 ls k Hlt) as [l Hl].
    pose proof (step_waiting k l w slots Hr Hl Hd Hw) as Hw'.
    assert (Hin1 : ∀ k', k' ∈ order →
              <[k := Some (v k)]> slots !! k' = Some None ∧ k' < length ls
              ∧ ready k' (step k w)).
    { intros k' Hk'. destruct (Hin k') as (Hd' & Hlt' & Hr'); [by right|].
      assert (k' ≠ k) by (by intros ->).
      split; [by rewrite list_lookup_insert_ne|]. split; [done|].
      by apply step_ready. }
    destruct (IH _ _ Hno Hin1 Hw') as (slots' & Hw'' & Hin' & Hout').
    exists slots'. split; [exact Hw''|]. split.
    + intros k' Hk'. apply elem_of_cons in Hk' as [->|Hk']; [|by apply Hin'].
      rewrite Hout' by done. rewrite list_lookup_insert_eq; [done|].
      by eapply lookup_lt_Some.
    + intros k' Hk'. apply not_elem_of_cons in Hk' as [Hne Hk'].
      rewrite Hout' by done. by rewrite list_lookup_insert_ne.
Qed.

(** Once every response has come, the batch is fulfilled. *)
Lemma waiting_fold_all order w :
  order ≡ₚ seq 0 (length ls) →
  (∀ k, k < length ls → ready k w) →
  waiting w c p keys inputs ls (replicate (length ls) None) →
  promise_state (fold_left (fun w k => step k w) order w) p
  = Some (Fulfilled (assemble keys (map v (seq 0 (length ls))))).
Proof.
  intros Hperm Hready Hw.
  assert (Hno : NoDup order) by (rewrite Hperm; apply NoDup_seq).
  assert (Hin0 : ∀ k, k ∈ order →
            replicate (length ls) (@None value) !! k = Some None ∧ k < length ls
            ∧ ready k w).
  { intros k Hk'. rewrite Hperm in Hk'. apply elem_of_seq in Hk' as [_ Hk'].
    split; [|split; [lia|apply Hready; lia]].
    apply lookup_replicate. split; [done|lia]. }
  destruct (waiting_fold order w _ Hno Hin0 Hw)
    as (slots' & (_ & Hlen' & _ & Hful & _) & Hin' & _).
  apply Hful.
  assert (Hdone : slots' = map (fun k => Some (v k)) (seq 0 (length ls))).
  { apply list_eq. intros k.
    change (map ?f (seq 0 (length ls))) with (f <$> seq 0 (length ls)).
    rewrite list_lookup_fmap.
    destruct (decide (k < length ls)) as [Hlt|Hge].
    - rewrite lookup_seq_lt by done. simpl. apply Hin'.
      rewrite Hperm. apply elem_of_seq. lia.
    - rewrite lookup_seq_ge by lia. simpl. apply lookup_ge_None. lia. }
  rewrite Hdone. apply filled_all.
Qed.
End waiting_fold.

(** After a batch of prepared calls that were not awaited before, the
    collector of the batch waits for them. *)
Lemma batch_waiting w requests ls calls :
  isConnected w = true →
  batch_of w requests ls calls →
  valid_methods calls = true →
  waiting (fst (batch requests w)) (length (collectors w)) (length (promises w))
          (keys_of requests) (map VLazy ls) ls (replicate (length ls) None)
  ∧ ∀ k l, ls !! k = Some l →
      JRPC.inbox (remote (fst (batch requests w))) !! (JRPC.serial (remote w) + 1 + k)
      = Some (CbPrepare l).
Proof.
  intros Hc Hb Hm.
  destruct (batch_fresh_fields w requests ls calls Hc Hb Hm)
    as (Hp & Hco & _ & _ & Hk & _ & _ & _).
  destruct Hb as (Hin & Hne & Hnd & Hf).
  pose proof (Forall2_length _ _ _ Hf) as Hlen.
  assert (Hmp : ∀ k l, ls !! k = Some l → ∃ mp, calls !! k = Some mp).
  { intros k l Hkl. apply lookup_lt_is_Some_2. rewrite <- Hlen.
    by eapply lookup_lt_Some. }
  split; [split; [|split; [|split; [|split]]]|].
  - rewrite Hco, lookup_app_r by lia. by rewrite Nat.sub_diag.
  - by rewrite length_replicate.
  - intros _. unfold promise_state. rewrite Hp, lookup_app_r by lia.
    by rewrite Nat.sub_diag.
  - intros vs Hvs. by destruct ls.
  - intros k l Hkl _. destruct (Hmp k l Hkl) as [mp Hmp'].
    destruct (Hk k l mp Hkl Hmp') as [H1 _]. by eexists.
  - intros k l Hkl. destruct (Hmp k l Hkl) as [mp Hmp'].
    by destruct (Hk k l mp Hkl Hmp') as [_ H2].
Qed.

(** X14: a batch of prepared calls with valid methods, none awaited before,
    on a connected session: once the engine has completed every call,
    in whatever order, each with its own error or result, the promise of
    the batch is fulfilled with the responses of the calls in the order
    of the input (under the keys of the input, for an object). *)
Theorem batch_fulfilled_when_all_complete (w : world) (requests : value)
    (ls : list nat) (calls : list (value * value)) (order : list nat)
    (outcome : nat → value * value) :
  isConnected w = true →
  batch_of w requests ls calls →
  valid_methods calls = true →
  order ≡ₚ seq 0 (length ls) →
  promise_state
    (complete_all (JRPC.serial (remote w)) outcome order (fst (batch requests w)))
    (snd (batch requests w))
  = Some (Fulfilled
            (assemble (keys_of requests)
               (map (fun k => response (fst (outcome k)) (snd (outcome k)))
                    (seq 0 (length ls))))).
Proof.
  intros Hc Hb Hm Hperm.
  change (snd (batch requests w)) with (length (promises w)).
  destruct (batch_waiting w requests ls calls Hc Hb Hm) as [Hw Hinb].
  destruct Hb as (_ & _ & Hnd & _). unfold complete_all.
  apply (waiting_fold_all (length (collectors w)) (length (promises w))
           (keys_of requests) (map VLazy ls) ls
           (fun k => response (fst (outcome k)) (snd (outcome k)))
           (fun k w' => exec (Completes (JRPC.serial (remote w) + 1 + k)
                                        (fst (outcome k)) (snd (outcome k))) w')
           (fun k w' => ∀ l, ls !! k = Some l →
              JRPC.inbox (remote w') !! (JRPC.serial (remote w) + 1 + k)
              = Some (CbPrepare l)));
    try done.
  - intros k l w' slots Hr Hkl Hd Hw'.
    cbn [exec]. unfold JRPC.complete. rewrite (Hr l Hkl).
    apply (waiting_deliver _ _ _ _ _ _ _ _ _ _ _ Hnd); [|done|done].
    by apply (waiting_frame w').
  - intros k k' w' Hne Hr l Hkl. cbn [exec]. unfold JRPC.complete.
    destruct (JRPC.inbox (remote w') !! (JRPC.serial (remote w) + 1 + k'))
      as [next|] eqn:Hn; [|by apply Hr].
    assert (Hrem : ∀ next e r w2, remote (run_callback next e r w2) = remote w2).
    { intros [q [|]|l'] e r w2; cbn [run_callback];
        [by destruct (truthy e)|done|].
      by destruct (settle_lazy_frame l' (Fulfilled (response e r)) w2) as (-> & _). }
    rewrite Hrem. cbn [remote set_remote JRPC.inbox].
    rewrite lookup_delete_ne by lia. by apply Hr.
  - intros k Hk l Hkl. by apply Hinb.
Qed.

(** Two prepared calls batched over the fake transport; the second one
    times out before the response to the first one comes. *)
Lemma batch_fulfilled_when_all_complete_witness :
  let w := run [Prepare (VStr "base64") (VArr [VStr "params"]);
                Prepare (VStr "non-existent-method") VNull] fake_client in
  let requests := VArr [VLazy 0; VLazy 1] in
  let ls := [0; 1] in
  let outcome := fun k : nat => match k with
                                | 0 => (VNull, VStr "WyJwYXJhbXMiXQ==")
                                | _ => (TimeoutError, VNull)
                                end in
  promise_state
    (complete_all (JRPC.serial (remote w)) outcome [1; 0] (fst (batch requests w)))
    (snd (batch requests w))
  = Some (Fulfilled
            (assemble (keys_of requests)
               (map (fun k => response (fst (outcome k)) (snd (outcome k)))
                    (seq 0 (length ls))))).
Proof.
  intros w requests ls outcome.
  exact (batch_fulfilled_when_all_complete w requests ls
    [(VStr "base64", VArr [VStr "params"]); (VStr "non-existent-method", VNull)]
    [1; 0] outcome eq_refl
    (batch_of_two w requests 0 1 (VStr "base64", VArr [VStr "params"])
       (VStr "non-existent-method", VNull) eq_refl ltac:(done) eq_refl eq_refl) eq_refl
    (perm_swap 0 1 [])).
Defined.

(** *** A prepared call with an invalid method *)

(** X15: [prepare] never fails: with an invalid method it returns a lazy
    promise like any other and touches nothing else. The first [then]
    rejects the lazy promise with the [TypeError]; nothing is registered
    with the engine and nothing is sent. *)
Theorem prepare_invalid_method_rejects_on_then (w : world) (method params : value) :
  check.nonEmptyString method = false →
  let w1 := fst (prepare method params w) in
  let l := snd (prepare method params w) in
  (lazy_state w1 l = None ∧ promises w1 = promises w ∧ remote w1 = remote w)
  ∧ lazy_state (exec (Then l) w1) l
    = Some (Rejected (invalid "missing/invalid " "method" "parameter"))
  ∧ remote (exec (Then l) w1) = remote w
  ∧ transport_log (exec (Then l) w1) = transport_log w.
Proof.
  intros Hm. cbv zeta.
  change (snd (prepare method params w)) with (length (lazies w)).
  assert (Hl : lazies (fst (prepare method params w)) !! length (lazies w)
               = Some (Lazy (ExPrepare method params) None [])).
  { simpl. rewrite lookup_app_r by lia. by rewrite Nat.sub_diag. }
  split.
  { unfold lazy_state. by rewrite Hl. }
  cbn [exec]. unfold start. rewrite Hl.
  cbn [l_state l_exec l_subs run_executor]. unfold prepare_executor.
  rewrite Hm. cbn [negb].
  set (w0 := set_lazies _ _).
  destruct (settle_lazy_frame (length (lazies w))
              (Rejected (invalid "missing/invalid " "method" "parameter")) w0)
    as (Hr & Ht & _).
  split; [|by rewrite Hr, Ht].
  apply lazy_state_settle_lazy_eq. unfold lazy_state. subst w0.
  cbn [lazies set_lazies]. rewrite list_lookup_insert_eq; [done|].
  by eapply lookup_lt_Some.
Qed.

Lemma prepare_invalid_method_rejects_on_then_witness :
  lazy_state (exec (Then 0) (fst (prepare (VStr "") VNull fake_client))) 0
  = Some (Rejected (invalid "missing/invalid " "method" "parameter")).
Proof.
  exact (proj1 (proj2 (prepare_invalid_method_rejects_on_then
    fake_client (VStr "") VNull eq_refl))).
Defined.

(** [batch] awaits prepared calls that were not awaited before: those
    with a valid method are registered, and the first one with an
    invalid method rejects the batch. *)
Lemma await_fresh_any c ils calls col w :
  NoDup (map snd ils) →
  Forall2 (fun il mp => unawaited w (snd il) mp) ils calls →
  collectors w !! c = Some col →
  promise_state w (c_target col) = Some Pending
  ∨ promise_state w (c_target col)
    = Some (Rejected (invalid "missing/invalid " "method" "parameter")) →
  promise_state (fold_left (await_input c) (slots_of ils) w) (c_target col)
  = if valid_methods calls then promise_state w (c_target col)
    else Some (Rejected (invalid "missing/invalid " "method" "parameter")).
Proof.
  intros Hnd Hf. revert w Hf.
  induction ils as [|il ils IH] in calls, Hnd |- *; intros w Hf Hc Hp.
  - by apply Forall2_nil_inv_l in Hf as ->.
  - apply Forall2_cons_inv_l in Hf as (mp & calls' & Hl & Hf & ->).
    cbn [map] in Hnd. apply NoDup_cons in Hnd as [Hnotin Hnd].
    cbn [slots_of map fold_left]. fold (slots_of ils).
    change (await_input c w (fst il, VLazy (snd il)))
      with (subscribe c (fst il) (snd il) w).
    assert (Hlt : snd il < length (lazies w)) by (by eapply lookup_lt_Some).
    assert (Hfresh : ∀ w1 x, lazies w1 = <[snd il := x]> (lazies w) →
              Forall2 (fun il mp => unawaited w1 (snd il) mp) ils calls').
    { intros w1 x Hw1. apply Forall2_same_length_lookup.
      split; [by eapply Forall2_length|].
      intros k il' mp' Hk Hk'.
      pose proof (Forall2_lookup_lr _ _ _ _ _ _ Hf Hk Hk') as Hfr.
      unfold unawaited in *. rewrite Hw1.
      rewrite list_lookup_insert_ne; [done|].
      intros Heq. apply Hnotin. rewrite Heq.
      apply list_elem_of_fmap. exists il'. split; [done|].
      by eapply list_elem_of_lookup_2. }
    unfold valid_methods. cbn [forallb]. fold (valid_methods calls').
    destruct (check.nonEmptyString (fst mp)) eqn:Hm; cbn [andb].
    + rewrite (subscribe_fresh_valid c (fst il) (snd il) mp w Hl Hm).
      set (w1 := set_lazies _ _).
      destruct (prepare_executor_fields (snd il) (fst mp) (snd mp) w Hm)
        as (Hp1 & Hc1 & _).
      assert (Hps : promise_state w1 (c_target col) = promise_state w (c_target col)).
      { unfold promise_state. subst w1. cbn [promises set_lazies]. by rewrite Hp1. }
      rewrite (IH calls' Hnd w1); [by rewrite Hps| |by subst w1; simpl; rewrite Hc1
                                  |by rewrite Hps].
      by apply (Hfresh w1 (Lazy (ExPrepare (fst mp) (snd mp)) (Some Pending)
                                [(c, fst il)])).
    + rewrite (subscribe_fresh_invalid c (fst il) (snd il) mp col w Hl Hm Hc).
      set (w1 := reject _ _ _).
      assert (Hps : promise_state w1 (c_target col)
                = Some (Rejected (invalid "missing/invalid " "method" "parameter"))).
      { subst w1. destruct Hp as [Hp|Hp].
        - by apply promise_state_settle_eq.
        - by apply promise_state_settle_settled. }
      rewrite (IH calls' Hnd w1); [by destruct (valid_methods calls')| |done|by right].
      by apply (Hfresh w1 (Lazy (ExPrepare (fst mp) (snd mp))
                  (Some (Rejected (invalid "missing/invalid " "method" "parameter")))
                  [])).
Qed.

(** X16: a batch, on a connected session, of prepared calls none of which was
    awaited before, one of them at least with an invalid method: the
    promise of the batch is rejected with the [TypeError] of that call
    at once, without waiting for any response, while the calls with a
    valid method are registered with the engine all the same. *)
Theorem batch_rejects_invalid_method (w : world) (requests : value)
    (ls : list nat) (calls : list (value * value)) :
  isConnected w = true →
  batch_of w requests ls calls →
  valid_methods calls = false →
  promise_state (fst (batch requests w)) (snd (batch requests w))
  = Some (Rejected (invalid "missing/invalid " "method" "parameter"))
  ∧ ∀ k l mp, ls !! k = Some l → calls !! k = Some mp →
      check.nonEmptyString (fst mp) = true →
      registered l (fst (batch requests w)).
Proof.
  intros Hc Hb Hm. pose proof (batch_of_valid _ _ _ _ Hb) as Hv.
  destruct Hb as (Hin & Hne & Hnd & Hf).
  change (snd (batch requests w)) with (length (promises w)).
  rewrite (batch_connected requests w Hv Hc). split.
  - rewrite (makeCalls_collect _ _ _ Hv). cbv zeta.
    set (w0 := fst (new_promise (OBatch requests) w)).
    assert (Hcol : promise_state
              (collect (length (promises w)) (keys_of requests) (inputs_of requests) w0)
              (length (promises w))
            = Some (Rejected (invalid "missing/invalid " "method" "parameter"))).
    { rewrite Hin, collect_nonempty by (by destruct ls).
      rewrite slots_of_imap.
      set (col := Collector (length (promises w)) (keys_of requests) (map VLazy ls)
                            (replicate (length (map VLazy ls)) None)).
      set (w1 := set_collectors _ w0).
      change (promise_state ?x (length (promises w)))
        with (promise_state x (c_target col)).
      rewrite (await_fresh_any (length (collectors w0)) (imap pair ls) calls col w1).
      - by rewrite Hm.
      - by rewrite snd_imap_pair.
      - apply Forall2_same_length_lookup. split.
        + rewrite length_imap. by eapply Forall2_length.
        + intros k il mp Hk Hk'. rewrite list_lookup_imap in Hk.
          destruct (ls !! k) as [l|] eqn:Hl; [|done]. injection Hk as <-.
          exact (Forall2_lookup_lr _ _ _ _ _ _ Hf Hl Hk').
      - subst w1. cbn [collectors set_collectors].
        rewrite lookup_app_r by lia. by rewrite Nat.sub_diag.
      - left. apply (promise_state_new_promise w (OBatch requests)). }
    by destruct (batchRequests _).
  - intros k l mp Hk Hk' Hmp.
    destruct (makeCalls_registers (length (promises w)) requests
                (fst (new_promise (OBatch requests) w)) Hv) as [Hreg _].
    apply (Hreg k l (fst mp) (snd mp) []); [|exact (Forall2_lookup_lr _ _ _ _ _ _ Hf Hk Hk')|done].
    rewrite Hin. change (map VLazy ls) with (VLazy <$> ls).
    by rewrite list_lookup_fmap, Hk.
Qed.

Lemma batch_rejects_invalid_method_witness :
  let w := run [Prepare (VStr "method1") VNull; Prepare (VNum 2) VNull]
               fake_client in
  let requests := VArr [VLazy 0; VLazy 1] in
  promise_state (fst (batch requests w)) (snd (batch requests w))
  = Some (Rejected (invalid "missing/invalid " "method" "parameter")).
Proof.
  intros w requests.
  exact (proj1 (batch_rejects_invalid_method w requests [0; 1]
    [(VStr "method1", VNull); (VNum 2, VNull)] eq_refl
    (batch_of_two w requests 0 1 (VStr "method1", VNull)
       (VNum 2, VNull) eq_refl ltac:(done) eq_refl eq_refl) eq_refl)).
Defined.

(** *** A failed [transport.send] and a batch *)

(** X17: with batching, when the one message of a batch (of prepared calls
    with valid methods, none awaited before, on a connected session with
    no other flush queued) cannot be sent, the promise of the batch is
    rejected with the error of the transport, for good; the prepared
    calls themselves are not rejected: they stay pending in the engine. *)
Theorem batch_rejected_by_send_failure (w : world) (requests : value)
    (ls : list nat) (calls : list (value * value)) (err : value)
    (evs : list event) :
  isConnected w = true →
  batchRequests w = true →
  immediates w = [] →
  batch_of w requests ls calls →
  valid_methods calls = true →
  let w1 := exec (TransportSettles (length (awaited w)) (Rejects err))
                 (exec Immediate (fst (batch requests w))) in
  promise_state (run evs w1) (snd (batch requests w)) = Some (Rejected err)
  ∧ ∀ l, l ∈ ls → lazy_state w1 l = Some Pending.
Proof.
  intros Hc Hbat Hi0 Hb Hm. cbv zeta.
  change (snd (batch requests w)) with (length (promises w)).
  destruct (batch_fresh_fields w requests ls calls Hc Hb Hm)
    as (Hp & _ & Hi & _ & Hk & _ & _ & Hout).
  rewrite Hbat in Hi, Hout. destruct Hout as (Ho & Ht & Ha).
  destruct Hb as (_ & Hne & _ & Hf). pose proof (Forall2_length _ _ _ Hf) as Hlen.
  set (w2 := fst (batch requests w)) in *.
  assert (Himm : exec Immediate w2
    = transport_call (OpSend (JRPC.outbox (remote w2)))
        (RCatchReject (TPromise (length (promises w))))
        (set_remote (JRPC.Engine (JRPC.remoteTimeout (remote w2))
                       (JRPC.serial (remote w2)) (JRPC.inbox (remote w2)) []
                       (JRPC.exposed (remote w2)) (JRPC.answered (remote w2)))
                    (set_immediates [] w2))).
  { cbn [exec]. rewrite Hi, Hi0. cbn [app]. unfold transmit, JRPC.transmit, send.
    cbn [remote set_immediates].
    destruct (JRPC.outbox (remote w2)) as [|r rs] eqn:Hout; [|done].
    apply (f_equal length) in Ho. rewrite length_app, requests_from_length in Ho.
    destruct ls; [done|]. simpl in *. lia. }
  rewrite Himm. rewrite <- Ha.
  set (w3 := set_remote _ _).
  change (length (awaited w2)) with (length (awaited w3)).
  rewrite awaited_settles_last. cbn [run_reaction reject_target]. split.
  - apply (ext_settled _ _ (ext_run evs _)); [|done].
    apply promise_state_settle_eq. unfold promise_state.
    subst w3. cbn [promises set_transport_log set_awaited set_remote set_immediates].
    rewrite Hp, lookup_app_r by lia. by rewrite Nat.sub_diag.
  - intros l Hl. apply list_elem_of_lookup_1 in Hl as [k Hkl].
    destruct (lookup_lt_is_Some_2 calls k) as [mp Hmp].
    { rewrite <- Hlen. by eapply lookup_lt_Some. }
    destruct (Hk k l mp Hkl Hmp) as [H1 _].
    unfold lazy_state, reject, settle. subst w3.
    cbn [lazies set_promises set_transport_log set_awaited set_remote set_immediates].
    by rewrite H1.
Qed.

(** The batch of the test suite whose second call makes the transport
    fail. *)
Lemma batch_rejected_by_send_failure_witness :
  let w := run [Prepare (VStr "base64") (VArr [VStr "params"]);
                Prepare (VStr "transport-error") VNull] fake_client in
  let requests := VArr [VLazy 0; VLazy 1] in
  let err := VErr PlainError "Generic transport error" in
  promise_state
    (run [] (exec (TransportSettles (length (awaited w)) (Rejects err))
                  (exec Immediate (fst (batch requests w)))))
    (snd (batch requests w))
  = Some (Rejected err).
Proof.
  intros w requests err.
  exact (proj1 (batch_rejected_by_send_failure w requests [0; 1]
    [(VStr "base64", VArr [VStr "params"]); (VStr "transport-error", VNull)]
    err [] eq_refl eq_refl eq_refl
    (batch_of_two w requests 0 1 (VStr "base64", VArr [VStr "params"])
       (VStr "transport-error", VNull) eq_refl ltac:(done) eq_refl eq_refl) eq_refl)).
Defined.

(** X18: without batching, when the message of one call of the batch cannot
    be sent, that prepared call is rejected with the error of the
    transport, and with it the promise of the batch, for good. *)
Theorem unbatched_batch_rejected_by_send_failure (w : world) (requests : value)
    (ls : list nat) (calls : list (value * value)) (k l : nat) (err : value)
    (evs : list event) :
  isConnected w = true →
  batchRequests w = false →
  batch_of w requests ls calls →
  valid_methods calls = true →
  ls !! k = Some l →
  let w1 := exec (TransportSettles (length (awaited w) + k) (Rejects err))
                 (fst (batch requests w)) in
  promise_state (run evs w1) (snd (batch requests w)) = Some (Rejected err)
  ∧ lazy_state w1 l = Some (Rejected err).
Proof.
  intros Hc Hbat Hb Hm Hkl. cbv zeta.
  change (snd (batch requests w)) with (length (promises w)).
  destruct (batch_fresh_fields w requests ls calls Hc Hb Hm)
    as (Hp & Hco & _ & _ & Hk & _ & _ & Hout).
  rewrite Hbat in Hout. destruct Hout as (_ & _ & Ha).
  destruct Hb as (_ & Hne & _ & Hf). pose proof (Forall2_length _ _ _ Hf) as Hlen.
  set (w2 := fst (batch requests w)) in *.
  destruct (lookup_lt_is_Some_2 calls k) as [mp Hmp].
  { rewrite <- Hlen. by eapply lookup_lt_Some. }
  destruct (Hk k l mp Hkl Hmp) as [Hl _].
  assert (Hlt : l < length (lazies w2)) by (by eapply lookup_lt_Some).
  cbn [exec]. rewrite Ha.
  rewrite lookup_app_r by lia.
  replace (length (awaited w) + k - length (awaited w)) with k by lia.
  change (map ?f ls) with (f <$> ls). rewrite list_lookup_fmap, Hkl.
  cbn [fmap option_fmap option_map run_reaction reject_target].
  unfold settle_lazy. cbn [lazies set_awaited]. rewrite Hl.
  cbn [l_state l_exec l_subs fold_left notify fst snd]. unfold abort.
  cbn [collectors set_lazies set_awaited]. rewrite Hco.
  rewrite lookup_app_r by lia. rewrite Nat.sub_diag.
  cbn [lookup list_lookup c_target]. split.
  - apply (ext_settled _ _ (ext_run evs _)); [|done].
    apply promise_state_settle_eq. unfold promise_state.
    cbn [promises set_lazies set_awaited].
    rewrite Hp, lookup_app_r by lia. by rewrite Nat.sub_diag.
  - unfold lazy_state, reject, settle.
    cbn [lazies set_promises set_lazies set_awaited].
    by rewrite list_lookup_insert_eq.
Qed.

Lemma unbatched_batch_rejected_by_send_failure_witness :
  let w := run [Prepare (VStr "base64") (VArr [VStr "params"]);
                Prepare (VStr "transport-error") VNull]
               (World false false true false (JRPC.new 60) [] [] [] [] [] [] []) in
  let requests := VArr [VLazy 0; VLazy 1] in
  let err := VErr PlainError "Generic transport error" in
  promise_state
    (run [] (exec (TransportSettles (length (awaited w) + 1) (Rejects err))
                  (fst (batch requests w))))
    (snd (batch requests w))
  = Some (Rejected err).
Proof.
  intros w requests err.
  exact (proj1 (unbatched_batch_rejected_by_send_failure w requests [0; 1]
    [(VStr "base64", VArr [VStr "params"]); (VStr "transport-error", VNull)]
    1 1 err [] eq_refl eq_refl
    (batch_of_two w requests 0 1 (VStr "base64", VArr [VStr "params"])
       (VStr "transport-error", VNull) eq_refl ltac:(done) eq_refl eq_refl)
    eq_refl eq_refl)).
Defined.

(** *** A prepared call is registered once *)

Lemma start_started l w : is_Some (lazy_state w l) → start l w = w.
Proof.
  intros [s Hs]. unfold lazy_state in Hs. unfold start.
  destruct (lazies w !! l) as [lz|]; [|done]. simpl in Hs. by rewrite Hs.
Qed.


Lemma started_start l l' w :
  is_Some (lazy_state w l) → is_Some (lazy_state (start l' w) l).
Proof.
  intros Hs. destruct (decide (l = l')) as [<-|Hne].
  - by rewrite start_started.
  - unfold lazy_state in *. by rewrite lazies_start_ne.
Qed.

Lemma started_subscribe c i l l' w :
  is_Some (lazy_state w l) → is_Some (lazy_state (subscribe c i l' w) l).
Proof.
  intros Hs. apply (started_start l l') in Hs.
  unfold subscribe. cbv zeta.
  destruct (lazies (start l' w) !! l') as [lz|] eqn:Hl; [|done].
  destruct (l_state lz) as [s|] eqn:Hst; [|done].
  destruct (notify_frame s (start l' w) (c, i)) as (Hlz & _).
  unfold lazy_state in *.
  destruct s; rewrite ?Hlz; try done.
  cbn [lazies set_lazies]. destruct (decide (l = l')) as [->|Hne].
  - rewrite list_lookup_insert_eq by (by eapply lookup_lt_Some). by eexists.
  - by rewrite list_lookup_insert_ne.
Qed.

Lemma started_fill c i v l w :
  is_Some (lazy_state w l) → is_Some (lazy_state (fill c i v w) l).
Proof.
  intros Hs. destruct (fill_frame c i v w) as (Hl & _).
  unfold lazy_state in *. by rewrite Hl.
Qed.

(** Awaiting inputs that are values or lazy promises already awaited
    registers nothing and sends nothing. *)
Lemma await_started c ivs w :
  (∀ iv l, iv ∈ ivs → snd iv = VLazy l → is_Some (lazy_state w l)) →
  remote (fold_left (await_input c) ivs w) = remote w
  ∧ transport_log (fold_left (await_input c) ivs w) = transport_log w.
Proof.
  revert w. induction ivs as [|iv ivs IH]; intros w Hs; simpl; [done|].
  assert (Hstep : remote (await_input c w iv) = remote w
                  ∧ transport_log (await_input c w iv) = transport_log w).
  { unfold await_input.
    destruct (snd iv) as [| | | | | | | | |l] eqn:Hiv;
      try (destruct (fill_frame c (fst iv) (snd iv) w) as (_ & Hr & Ht & _);
           rewrite Hiv in Hr, Ht; by rewrite Hr, Ht).
    destruct (remote_subscribe c (fst iv) l w) as (-> & -> & _).
    rewrite start_started; [done|]. apply (Hs iv); [by left|done]. }
  destruct Hstep as [Hr Ht].
  destruct (IH (await_input c w iv)) as [Hr' Ht'].
  - intros iv' l' Hin Hl'.
    assert (Hs' : is_Some (lazy_state w l')) by (apply (Hs iv'); [by right|done]).
    unfold await_input. destruct (snd iv); try (by apply started_fill).
    by apply started_subscribe.
  - by rewrite Hr', Ht'.
Qed.


(** X20: a batch, on a connected session, of prepared calls that were all
    awaited before (by the application, or by an earlier batch)
    registers nothing with the engine and sends nothing itself: the
    batch waits for the calls already made. *)
Theorem batch_of_awaited_calls_registers_nothing (w : world) (requests : value) :
  isConnected w = true →
  valid_requests requests = true →
  (∀ x, x ∈ inputs_of requests → ∃ l, x = VLazy l ∧ is_Some (lazy_state w l)) →
  remote (fst (batch requests w)) = remote w
  ∧ transport_log (fst (batch requests w)) = transport_log w.
Proof.
  intros Hc Hv Hs. rewrite (batch_connected requests w Hv Hc).
  rewrite (makeCalls_collect _ _ _ Hv). cbv zeta.
  set (w0 := fst (new_promise (OBatch requests) w)).
  assert (Hcol : remote (collect (length (promises w)) (keys_of requests)
                                 (inputs_of requests) w0) = remote w
                 ∧ transport_log (collect (length (promises w)) (keys_of requests)
                                          (inputs_of requests) w0) = transport_log w).
  { destruct (inputs_of requests) as [|x xs] eqn:Hin; [done|].
    rewrite collect_nonempty by done.
    apply (await_started _ _ (set_collectors _ w0)).
    intros iv l Hiv Hl. apply list_elem_of_lookup_1 in Hiv as [k Hk].
    rewrite list_lookup_imap in Hk.
    destruct ((x :: xs) !! k) as [y|] eqn:Hy; [|done]. injection Hk as <-.
    simpl in Hl. subst y.
    destruct (Hs (VLazy l)) as (l' & [= <-] & Hl'); [|done].
    by eapply list_elem_of_lookup_2. }
  destruct Hcol as [Hr Ht].
  by destruct (batchRequests _).
Qed.

(** A prepared call awaited by the application, then batched. *)
Lemma batch_of_awaited_calls_registers_nothing_witness :
  remote (run [Prepare (VStr "method1") VNull; Then 0; Batch (VArr [VLazy 0])]
              fake_client)
  = remote (run [Prepare (VStr "method1") VNull; Then 0] fake_client).
Proof.
  pose proof (batch_of_awaited_calls_registers_nothing
    (run [Prepare (VStr "method1") VNull; Then 0] fake_client)
    (VArr [VLazy 0]) eq_refl eq_refl) as H.
  destruct H as [H _].
  - intros x Hx. apply list_elem_of_singleton in Hx as ->.
    exists 0. split; [done|]. by exists Pending.
  - exact H.
Defined.

(** ** Notifications and completions leave the rest alone *)



(** X22: the completion of a call settles the promise of that call and no
    other; it leaves the lazy promises and the transport alone, and
    takes nothing but that call out of the pending ones. *)
Theorem completion_settles_only_its_call (w : world) (i p : nat) (b : bool)
    (err result : value) :
  JRPC.inbox (remote w) !! i = Some (CbCall p b) →
  let w' := exec (Completes i err result) w in
  (∀ q, q ≠ p → promises w' !! q = promises w !! q)
  ∧ lazies w' = lazies w
  ∧ transport_log w' = transport_log w
  ∧ ∀ j, j ≠ i → JRPC.inbox (remote w') !! j = JRPC.inbox (remote w) !! j.
Proof.
  intros Hi. cbv zeta. cbn [exec]. unfold JRPC.complete. rewrite Hi.
  cbn [run_callback].
  assert (H : ∀ s,
    (∀ q, q ≠ p → promises (settle p s (set_remote
        (JRPC.Engine (JRPC.remoteTimeout (remote w)) (JRPC.serial (remote w))
           (delete i (JRPC.inbox (remote w))) (JRPC.outbox (remote w))
           (JRPC.exposed (remote w)) (JRPC.answered (remote w))) w)) !! q
      = promises w !! q)
    ∧ ∀ j, j ≠ i → delete i (JRPC.inbox (remote w)) !! j = JRPC.inbox (remote w) !! j).
  { intros s. split.
    - intros q Hq. simpl. by rewrite list_lookup_alter_ne.
    - intros j Hj. by rewrite lookup_delete_ne. }
  destruct b; [destruct (truthy err)|]; unfold resolve, reject;
    (split; [apply H|]); (split; [done|]); (split; [done|]); apply (H Pending).
Qed.

Lemma completion_settles_only_its_call_witness :
  let w := run [Call (VStr "a") VNull true; Call (VStr "b") VNull true]
               fake_client in
  promises (exec (Completes 2 VNull (VNum 5)) w) !! 0 = promises w !! 0.
Proof.
  intros w.
  exact (proj1 (completion_settles_only_its_call w 2 1 true VNull (VNum 5) eq_refl)
               0 ltac:(done)).
Defined.

(** *** The responses to a batch come as one array *)







(** ** A request of the server *)



